(** * Leaf tracking over a time series: a shallow embedding of
      [plantcv/plantcv/time_series/link_utilities.py]

    The development follows the Python source function by function:
    - [_compute_overlaps_masks] (the overlap engine),
    - [PlantData.getinitleaf], [getmaxleaf], [gettotaltime],
      [getnumemergence], [initialize_linking] (bookkeeping),
    - [PlantData.linking] (column filter, assignment, re-threshold),
    - [PlantData.get_series] (emergence detection and forward chaining).

    Modelling conventions.
    - A Python exception is a value [Raise e] of the [result] type; the
      methods of [PlantData], which mutate [self], are functions from a
      [PlantData] record to a [result PlantData].
    - A numpy [float64] is an [npfloat]: [NaN], the two infinities, or a
      finite value kept as an exact rational.  Rounding is not modelled; the
      only divisions of the source are quotients of two pixel counts.
    - [scipy.optimize.linear_sum_assignment] is external: it is a [Variable]
      of the sections below, constrained by its documented contract.
    - The threshold, hard-wired to 0.2 in [linking], is a parameter of
      [linking_at] and [link_weight]; [linking] is their instance at 0.2.
    - The dictionary keys ['t{}'.format(t)] and ['leaf{}'.format(leaf)] are
      represented by the numbers [t] and [leaf] they are built from. *)

From Stdlib Require String.
Import Stdlib.Strings.String.StringSyntax.
Delimit Scope string_scope with string.
From Stdlib Require Import ZArith QArith Lia Lqa Sorted.
From stdpp Require Import base tactics option list.

Local Open Scope nat_scope.

(** ** Python exceptions as results *)

Inductive exn : Type := ValueError | IndexError.

Inductive result (A : Type) : Type :=
| Ok (a : A)
| Raise (e : exn).

Arguments Ok {A} a.
Arguments Raise {A} e.

#[global] Instance result_ret : MRet result := @Ok.

#[global] Instance result_bind : MBind result :=
  fun A B f m => match m with Ok a => f a | Raise e => Raise e end.

(** [l[i]] for a non-negative index: [IndexError] out of range. *)
Definition getitem {A} (l : list A) (i : nat) : result A :=
  match l !! i with Some a => Ok a | None => Raise IndexError end.

(** [l[i] = x] for a non-negative index: [IndexError] out of range. *)
Definition setitem {A} (l : list A) (i : nat) (x : A) : result (list A) :=
  if decide (i < length l) then Ok (<[i:=x]> l) else Raise IndexError.

(** ** numpy floats *)

Inductive npfloat : Type :=
| NaN
| NInf
| PInf
| Fin (q : Q).

(** [a < b]; every comparison with [NaN] is false. *)
Definition flt (a b : npfloat) : bool :=
  match a, b with
  | NaN, _ | _, NaN => false
  | _, NInf => false
  | NInf, _ => true
  | PInf, _ => false
  | Fin _, PInf => true
  | Fin x, Fin y => negb (Qle_bool y x)
  end.

(** [a >= b]; every comparison with [NaN] is false. *)
Definition fge (a b : npfloat) : bool :=
  match a, b with
  | NaN, _ | _, NaN => false
  | _, NInf => true
  | NInf, _ => false
  | PInf, _ => true
  | Fin _, PInf => false
  | Fin x, Fin y => Qle_bool y x
  end.

(** [np.maximum]: the larger value, [NaN] if either is [NaN]. *)
Definition fmaximum (a b : npfloat) : npfloat :=
  match a, b with
  | NaN, _ | _, NaN => NaN
  | _, _ => if flt a b then b else a
  end.

(** [np.divide] on two floats that hold integers (pixel counts):
    [0/0] is [NaN], [x/0] an infinity of the sign of [x]. *)
Definition fdivide (a b : Z) : npfloat :=
  if (b =? 0)%Z then
    if (a =? 0)%Z then NaN else if (0 <? a)%Z then PInf else NInf
  else Fin (Qred (inject_Z a / inject_Z b)).

(** Neither [NaN] nor an infinity. *)
Definition is_finite (a : npfloat) : bool :=
  match a with Fin _ => true | _ => false end.

(** A matrix is the list of its rows. *)
Abbreviation matrix := (list (list npfloat)).

(** [np.zeros((n, m))], [-np.inf * np.ones((n, m))]. *)
Definition full (n m : nat) (v : npfloat) : matrix := replicate n (replicate m v).

(** ** Mask sets and the overlap engine *)

(** A numpy array of shape [Height, Width, instances]. *)
Record ndarray3 : Type := {
  height : nat;
  width : nat;
  instances : nat;
  item : nat -> nat -> nat -> Q
}.

(** [np.sum] of an array of zeros and ones, exact below 2^24 entries. *)
Definition sumZ (l : list Z) : Z := foldr Z.add 0%Z l.

(** Entry [(k, j)] of [np.reshape(m > .5, (-1, m.shape[-1])).astype(np.float32)]:
    pixel [k] of the row-major flattening of instance [j], 1 or 0. *)
Definition reshape_gt_half (m : ndarray3) (k j : nat) : Z :=
  if negb (Qle_bool (item m (k / width m) (k mod width m) j) (1 # 2)) then 1%Z else 0%Z.

(** Row count of that reshaped array. *)
Definition npixels (m : ndarray3) : nat := height m * width m.

(** [np.dot(masks_.T, maski_).squeeze()] at [j], [maski_] being instance
    [idx_m] of [masks1]; the two pixel counts must agree. *)
Definition intersection_at (masks1 masks2 : ndarray3) (idx_m j : nat) : Z :=
  sumZ (map (fun k => (reshape_gt_half masks2 k j * reshape_gt_half masks1 k idx_m)%Z)
            (seq 0 (npixels masks2))).

(** [np.sum(masks_, 0)] at [j]. *)
Definition area_at (m : ndarray3) (j : nat) : Z :=
  sumZ (map (fun k => reshape_gt_half m k j) (seq 0 (npixels m))).

(** [np.sum(masks_, 0) + np.sum(maski_) - intersection] at [j]. *)
Definition union_at (masks1 masks2 : ndarray3) (idx_m j : nat) : Z :=
  (area_at masks2 j + area_at masks1 idx_m - intersection_at masks1 masks2 idx_m j)%Z.

Definition _compute_overlaps_masks (masks1 masks2 : ndarray3) : result matrix :=
  if decide (instances masks1 = 0 \/ instances masks2 = 0) then
    Ok (full (instances masks1) (instances masks2) (Fin 0))
  else
    let n1 := instances masks1 in
    let n2 := instances masks2 in
    (* np.dot raises when the flattened masks differ in length *)
    if decide (npixels masks2 = npixels masks1) then
      Ok (map (fun idx_m =>
                 map (fun j => fdivide (intersection_at masks1 masks2 idx_m j)
                                       (union_at masks1 masks2 idx_m j))
                     (seq 0 n2))
              (seq 0 n1))
    else Raise ValueError.

(** ** The assignment step of [PlantData.linking] *)

(** [np.max(weight, axis=0)]: numpy raises [ValueError] for a reduction
    along an axis of length zero; [NaN] wins over every value. *)
Definition amax0 (weight : matrix) : result (list npfloat) :=
  match weight with
  | [] => Raise ValueError
  | row :: rest => Ok (foldl (zip_with fmaximum) row rest)
  end.

(** [np.where(v < threshold)[0]]. *)
Definition where_lt (v : list npfloat) (threshold : npfloat) : list nat :=
  List.filter (fun j => match v !! j with Some x => flt x threshold | None => false end)
              (seq 0 (length v)).

(** [x in l]. *)
Definition mem (x : nat) (l : list nat) : bool := existsb (Nat.eqb x) l.

(** [np.delete(row, idx_col)] on one row. *)
Definition delete_row (idx_col : list nat) (row : list npfloat) : list npfloat :=
  map snd (List.filter (fun p => negb (mem (fst p) idx_col)) (imap pair row)).

(** [np.delete(weight, idx_col, 1)]. *)
Definition delete_cols (weight : matrix) (idx_col : list nat) : matrix :=
  map (delete_row idx_col) weight.

(** [weight[r, c]]. *)
Definition getitem2 (weight : matrix) (r c : nat) : result npfloat :=
  row ← getitem weight r; getitem row c.

(** A [for] loop that threads a value and stops at the first exception. *)
Fixpoint foldM {A B} (f : A -> B -> result A) (a : A) (l : list B) : result A :=
  match l with
  | [] => Ok a
  | b :: l' => a' ← f a b; foldM f a' l'
  end.

Section Solver.

(** [scipy.optimize.linear_sum_assignment(W, maximize=True)], returning
    [(row_ind, col_ind)] or raising. *)
Variable linear_sum_assignment : matrix -> result (list nat * list nat).

(** Body of the loop [for (r, c) in zip(row_ind, col_ind)]. *)
Definition accept (threshold : npfloat) (weight_ : matrix) (avail_col : list nat)
    (link : list Z) (rc : nat * nat) : result (list Z) :=
  w ← getitem2 weight_ rc.1 rc.2;
  if fge w threshold then
    a ← getitem avail_col rc.2;
    setitem link rc.1 (Z.of_nat a)
  else Ok link.

(** Lines 330-341 of [linking]: from the similarity matrix to the link vector. *)
Definition link_weight (threshold : npfloat) (n0 n1 : nat) (weight : matrix)
    : result (list Z) :=
  let link := replicate n0 (-1)%Z in
  colmax ← amax0 weight;
  let idx_col := where_lt colmax threshold in
  let avail_col := List.filter (fun x => negb (mem x idx_col)) (seq 0 n1) in
  let weight_ := delete_cols weight idx_col in
  ind ← linear_sum_assignment weight_;
  foldM (accept threshold weight_ avail_col) link (zip ind.1 ind.2).

End Solver.

(** ** The [PlantData] object *)

(** One value of [link_series]: the dictionary stored under ['t{}'.format(t)],
    with its keys ['new_leaf'], ['unique_id'] and the ['leaf{}'.format(leaf)]
    trajectories (an insertion-ordered dictionary keyed by [leaf]). *)
Record series_entry : Type := {
  new_leaf : list nat;
  unique_id : list nat;
  leaf : list (nat * list Z)
}.

Record PlantData : Type := {
  time : list String.string;
  masks : list ndarray3;
  total_time : nat;
  max_nleaf : nat;
  init_nleaf : nat;
  num_leaves : list nat;
  num_emergence : list Z;
  link_info : list (list Z);
  weights : list matrix;
  available_leaves : list (list nat);
  link_series : list (nat * series_entry)
}.

(** The object after [__init__], [Sorttime] and [load_results] on the
    segmentation files [files]: [load_results] appends one mask set per time
    stamp; everything else is as [__init__] leaves it. *)
Definition loaded (files : list (String.string * ndarray3)) : PlantData :=
  {| time := files.*1; masks := files.*2; total_time := 0; max_nleaf := 0;
     init_nleaf := 0; num_leaves := []; num_emergence := [];
     link_info := []; weights := []; available_leaves := [];
     link_series := [] |}.

(** [d[k] = v] on an insertion-ordered dictionary. *)
Fixpoint dict_set {V} (k : nat) (v : V) (d : list (nat * V)) : list (nat * V) :=
  match d with
  | [] => [(k, v)]
  | (k', v') :: d' => if k =? k' then (k, v) :: d' else (k', v') :: dict_set k v d'
  end.

(** [d.get(k)]. *)
Fixpoint dict_get {V} (k : nat) (d : list (nat * V)) : option V :=
  match d with
  | [] => None
  | (k', v') :: d' => if k =? k' then Some v' else dict_get k d'
  end.

(** A list comprehension whose body may raise. *)
Fixpoint mapM {A B} (f : A -> result B) (l : list A) : result (list B) :=
  match l with
  | [] => Ok []
  | a :: l' => b ← f a; bs ← mapM f l'; Ok (b :: bs)
  end.

Definition getinitleaf (s : PlantData) : result PlantData :=
  m ← getitem (masks s) 0;
  Ok {| time := time s; masks := masks s; total_time := total_time s;
        max_nleaf := max_nleaf s; init_nleaf := instances m;
        num_leaves := num_leaves s; num_emergence := num_emergence s;
        link_info := link_info s; weights := weights s;
        available_leaves := available_leaves s; link_series := link_series s |}.

Definition getmaxleaf (s : PlantData) : result PlantData :=
  let num_leaves' := num_leaves s ++ map instances (masks s) in
  (* np.max of an empty list raises *)
  if decide (num_leaves' = []) then Raise ValueError else
  Ok {| time := time s; masks := masks s; total_time := total_time s;
        max_nleaf := foldr Nat.max 0 num_leaves'; init_nleaf := init_nleaf s;
        num_leaves := num_leaves'; num_emergence := num_emergence s;
        link_info := link_info s; weights := weights s;
        available_leaves := available_leaves s; link_series := link_series s |}.

Definition gettotaltime (s : PlantData) : result PlantData :=
  Ok {| time := time s; masks := masks s; total_time := length (time s);
        max_nleaf := max_nleaf s; init_nleaf := init_nleaf s;
        num_leaves := num_leaves s; num_emergence := num_emergence s;
        link_info := link_info s; weights := weights s;
        available_leaves := available_leaves s; link_series := link_series s |}.

(** [np.diff]. *)
Fixpoint diff (l : list nat) : list Z :=
  match l with
  | a :: (b :: _) as l' => (Z.of_nat b - Z.of_nat a)%Z :: diff l'
  | _ => []
  end.

(** [a[1:] = v] with numpy broadcasting of a one-element [v]. *)
Definition set_tail (a v : list Z) : result (list Z) :=
  if decide (length v = length (drop 1 a)) then Ok (take 1 a ++ v)
  else match v with
       | [x] => Ok (take 1 a ++ replicate (length (drop 1 a)) x)
       | _ => Raise ValueError
       end.

Definition getnumemergence (s : PlantData) : result PlantData :=
  let ones := replicate (total_time s) (Z.of_nat (init_nleaf s)) in
  e ← set_tail ones (diff (num_leaves s));
  Ok {| time := time s; masks := masks s; total_time := total_time s;
        max_nleaf := max_nleaf s; init_nleaf := init_nleaf s;
        num_leaves := num_leaves s; num_emergence := e;
        link_info := link_info s; weights := weights s;
        available_leaves := available_leaves s; link_series := link_series s |}.

Definition initialize_linking (s : PlantData) : result PlantData :=
  let T := total_time s in
  li ← mapM (fun i => n ← getitem (num_leaves s) i; Ok (replicate n (-1)%Z))
            (seq 0 (T - 1));
  ws ← mapM (fun i => n ← getitem (num_leaves s) i;
                      m ← getitem (num_leaves s) (i + 1);
                      Ok (full n m NInf))
            (seq 0 (T - 1));
  al ← mapM (fun i => n ← getitem (num_leaves s) i; Ok (seq 0 n)) (seq 0 T);
  Ok {| time := time s; masks := masks s; total_time := total_time s;
        max_nleaf := max_nleaf s; init_nleaf := init_nleaf s;
        num_leaves := num_leaves s; num_emergence := num_emergence s;
        link_info := li; weights := ws;
        available_leaves := al; link_series := link_series s |}.

(** The hard-wired [threshold = 0.2] of [linking]. *)
Definition threshold : npfloat := Fin (1 # 5).

Section Tracking.

Variable linear_sum_assignment : matrix -> result (list nat * list nat).

(** [PlantData.linking(t0)], with the threshold as a parameter. *)
Definition linking_at (thr : npfloat) (t0 : nat) (s : PlantData) : result PlantData :=
  masks0 ← getitem (masks s) t0;
  masks1 ← getitem (masks s) (t0 + 1);
  leaves0 ← getitem (available_leaves s) t0;
  leaves1 ← getitem (available_leaves s) (t0 + 1);
  let n0 := length leaves0 in
  let n1 := length leaves1 in
  weight ← _compute_overlaps_masks masks0 masks1;
  link ← link_weight linear_sum_assignment thr n0 n1 weight;
  li ← setitem (link_info s) t0 link;
  Ok {| time := time s; masks := masks s; total_time := total_time s;
        max_nleaf := max_nleaf s; init_nleaf := init_nleaf s;
        num_leaves := num_leaves s; num_emergence := num_emergence s;
        link_info := li; weights := weights s;
        available_leaves := available_leaves s; link_series := link_series s |}.

(** [PlantData.linking(t0)]. *)
Definition linking : nat -> PlantData -> result PlantData := linking_at threshold.

(** Modelled from the spec: the driver loop of the Linking State Manager,
    which calls [linking] once per consecutive frame pair [t] in
    [[0, T-1)]; the source files hold the methods but not their caller. *)
Definition link_frames_at (thr : npfloat) (s : PlantData) : result PlantData :=
  foldM (fun s t0 => linking_at thr t0 s) s (seq 0 (total_time s - 1)).

End Tracking.

(** *** [PlantData.get_series] *)

(** [i not in link], the link vector holding floats that are integers. *)
Definition not_in (i : nat) (link : list Z) : bool :=
  negb (existsb (Z.eqb (Z.of_nat i)) link).

(** [[i for i in leaves if i not in link_info[t - 1]]]: the link vector is
    looked up once per candidate. *)
Fixpoint new_leaves_of (link_info : list (list Z)) (t : nat) (leaves : list nat)
    : result (list nat) :=
  match leaves with
  | [] => Ok []
  | i :: rest =>
      link ← getitem link_info (t - 1);
      news ← new_leaves_of link_info t rest;
      Ok (if not_in i link then i :: news else news)
  end.

(** The loop [for new_leaf in new_leaves], from the counter [unique_id]:
    the identifiers handed out and the counter afterwards. *)
Definition fresh_ids (unique_id : nat) (new_leaves : list nat) : list nat * nat :=
  foldl (fun acc _ => (acc.1 ++ [acc.2], acc.2 + 1)) ([], unique_id) new_leaves.

(** Body of the loop [for t in range(1, self.total_time)]. *)
Definition emerge (s : PlantData) (acc : list (nat * series_entry) * nat) (t : nat)
    : result (list (nat * series_entry) * nat) :=
  leaves ← getitem (available_leaves s) t;
  new_leaves ← new_leaves_of (link_info s) t leaves;
  match new_leaves with
  | [] => Ok acc
  | _ => let ids := fresh_ids acc.2 new_leaves in
         Ok (dict_set t {| new_leaf := new_leaves; unique_id := ids.1; leaf := [] |} acc.1,
             ids.2)
  end.

(** The loop [for t_ in range(t0 + 2, self.total_time)] with its [break]. *)
Fixpoint chain (link_info : list (list Z)) (tr : list Z) (ts : list nat)
    : result (list Z) :=
  match ts with
  | [] => Ok tr
  | t_ :: ts' =>
      idx ← getitem tr (t_ - 1);
      if (idx <? 0)%Z then Ok tr
      else
        link ← getitem link_info (t_ - 1);
        v ← getitem link (Z.to_nat idx);
        tr' ← setitem tr t_ v;
        chain link_info tr' ts'
  end.

(** The array stored under ['leaf{}'.format(leaf)] of the entry of [t0]. *)
Definition trajectory (s : PlantData) (t0 lf : nat) : result (list Z) :=
  let T := total_time s in
  tr ← setitem (replicate T (-1)%Z) t0 (Z.of_nat lf);
  if t0 <? T - 1 then
    link ← getitem (link_info s) t0;
    v ← getitem link lf;
    tr' ← setitem tr (t0 + 1) v;
    chain (link_info s) tr' (seq (t0 + 2) (T - (t0 + 2)))
  else Ok tr.

(** The loop [for leaf in self.link_series[key_t]['new_leaf']]. *)
Definition fill_entry (s : PlantData) (te : nat * series_entry)
    : result (nat * series_entry) :=
  lf ← foldM (fun d l => tr ← trajectory s te.1 l; Ok (dict_set l tr d))
             (leaf te.2) (new_leaf te.2);
  Ok (te.1, {| new_leaf := new_leaf te.2; unique_id := unique_id te.2; leaf := lf |}).

Definition get_series (s : PlantData) : result PlantData :=
  leaves0 ← getitem (available_leaves s) 0;
  let series0 :=
    dict_set 0 {| new_leaf := leaves0; unique_id := leaves0; leaf := [] |} (link_series s) in
  let unique_id0 := length leaves0 in
  acc ← foldM (emerge s) (series0, unique_id0) (seq 1 (total_time s - 1));
  series ← mapM (fill_entry s) acc.1;
  Ok {| time := time s; masks := masks s; total_time := total_time s;
        max_nleaf := max_nleaf s; init_nleaf := init_nleaf s;
        num_leaves := num_leaves s; num_emergence := num_emergence s;
        link_info := link_info s; weights := weights s;
        available_leaves := available_leaves s; link_series := series |}.

(** Modelled from the spec: the order in which a caller runs the methods
    (bookkeeping, then the linking loop, then the trajectory builder); the
    source files hold the methods but not their caller. *)
Definition prepare (files : list (String.string * ndarray3)) : result PlantData :=
  s ← getinitleaf (loaded files);
  s ← getmaxleaf s;
  s ← gettotaltime s;
  s ← getnumemergence s;
  initialize_linking s.

(** Modelled from the spec: the whole pipeline, from the loaded frames to the
    trajectories; the source files hold the methods but not their caller. *)
Definition track_at (lsa : matrix -> result (list nat * list nat)) (thr : npfloat)
    (files : list (String.string * ndarray3)) : result PlantData :=
  s ← prepare files;
  s ← link_frames_at lsa thr s;
  get_series s.

(** The identities with their trajectories: [unique_id[k]] owns the array
    under ['leaf{}'.format(new_leaf[k])] of the same entry. *)
Definition trajectories_of (e : series_entry) : list (nat * list Z) :=
  zip_with (fun id lf => (id, default [] (dict_get lf (leaf e)))) (unique_id e) (new_leaf e).

Definition trajectories (series : list (nat * series_entry)) : list (nat * list Z) :=
  flat_map (fun te => trajectories_of te.2) series.

(** [tr] occupies leaf index [j] at time [t]. *)
Definition occupies (t j : nat) (tr : list Z) : bool :=
  match tr !! t with Some v => (v =? Z.of_nat j)%Z | None => false end.

(** ** The contract of [linear_sum_assignment] *)

(** The value of a finite float. *)
Definition fval (a : npfloat) : Q :=
  match a with Fin q => q | _ => 0%Q end.

(** [W[r, c]] as a total function. *)
Definition entry (W : matrix) (r c : nat) : npfloat :=
  match W !! r with
  | Some row => default NaN (row !! c)
  | None => NaN
  end.

(** [W[row_ind, col_ind].sum()]. *)
Definition total (W : matrix) (ind : list nat * list nat) : Q :=
  foldr Qplus 0%Q (zip_with (fun r c => fval (entry W r c)) ind.1 ind.2).

(** [W.shape[1]] of a matrix with at least one row. *)
Definition ncols (W : matrix) : nat :=
  match W with [] => 0 | row :: _ => length row end.

(** [W] has shape [n0 × n1]. *)
Definition shaped (n0 n1 : nat) (W : matrix) : Prop :=
  length W = n0 /\ Forall (fun row => length row = n1) W.

(** [(row_ind, col_ind)] pairs as many rows of [W] with distinct columns as
    the smaller dimension allows, the rows in increasing order. *)
Record assignment (W : matrix) (ind : list nat * list nat) : Prop := {
  asg_length : length ind.1 = length ind.2;
  asg_size : length ind.1 = length W `min` ncols W;
  asg_rows : StronglySorted lt ind.1;
  asg_cols : NoDup ind.2;
  asg_row_range : Forall (fun r => r < length W) ind.1;
  asg_col_range : Forall (fun c => c < ncols W) ind.2
}.

(** Whatever the solver returns is an assignment. *)
Definition lsa_valid (lsa : matrix -> result (list nat * list nat)) : Prop :=
  forall W ind, lsa W = Ok ind -> assignment W ind.

(** The solver returns on every rectangular matrix of finite entries. *)
Definition lsa_total (lsa : matrix -> result (list nat * list nat)) : Prop :=
  forall W, Forall (fun row => length row = ncols W) W ->
            Forall (Forall (fun x => is_finite x = true)) W ->
            exists ind, lsa W = Ok ind.

(** On a matrix of finite entries no assignment has a larger total than the
    one the solver returns ([maximize=True]). *)
Definition lsa_optimal (lsa : matrix -> result (list nat * list nat)) : Prop :=
  forall W ind ind',
    Forall (Forall (fun x => is_finite x = true)) W ->
    lsa W = Ok ind -> assignment W ind' ->
    (total W ind' <= total W ind)%Q.

(** ** An exhaustive solver, used to run the model on concrete frames *)

(** The ways to pick [k] elements of [l], in order. *)
Fixpoint sublists_len {A} (k : nat) (l : list A) : list (list A) :=
  match k, l with
  | 0, _ => [[]]
  | S _, [] => []
  | S k', x :: l' => map (cons x) (sublists_len k' l') ++ sublists_len k l'
  end.

(** The lists of [k] distinct elements of [cols]. *)
Fixpoint injections (k : nat) (cols : list nat) : list (list nat) :=
  match k with
  | 0 => [[]]
  | S k' =>
      flat_map (fun c => map (cons c)
                           (injections k' (List.filter (fun x => negb (x =? c)) cols)))
               cols
  end.

(** The first element of [best :: l] on which [f] is largest. *)
Fixpoint argmax {A} (f : A -> Q) (best : A) (l : list A) : A :=
  match l with
  | [] => best
  | x :: l' => argmax f (if Qle_bool (f x) (f best) then best else x) l'
  end.

(** Every assignment of [W]: increasing rows, distinct columns. *)
Definition candidates (W : matrix) : list (list nat * list nat) :=
  let k := length W `min` ncols W in
  flat_map (fun rs => map (pair rs) (injections k (seq 0 (ncols W))))
           (sublists_len k (seq 0 (length W))).

(** The assignment of largest total; like scipy, it rejects a matrix with a
    [NaN] or an infinity. *)
Definition brute_force (W : matrix) : result (list nat * list nat) :=
  if forallb (forallb is_finite) W then
    match candidates W with
    | [] => Raise ValueError
    | c :: cs => Ok (argmax (total W) c cs)
    end
  else Raise ValueError.

(** ** The assignment step as the design states it

    Filter the columns, solve on the remaining ones, re-threshold each match. *)

(** Column [j] of [W]. *)
Definition column (W : matrix) (j : nat) : list npfloat :=
  map (fun row => default NaN (row !! j)) W.

(** Maximum of a non-empty list, [NaN] winning. *)
Definition max_list (l : list npfloat) : npfloat :=
  match l with
  | [] => NaN
  | x :: l' => foldl fmaximum x l'
  end.

(** The columns whose maximum over all rows is not below the threshold. *)
Definition remaining_columns (thr : npfloat) (n1 : nat) (W : matrix) : list nat :=
  List.filter (fun j => negb (flt (max_list (column W j)) thr)) (seq 0 n1).

(** [W] restricted to the columns [cols], in that order. *)
Definition restrict (W : matrix) (cols : list nat) : matrix :=
  map (fun row => map (fun j => default NaN (row !! j)) cols) W.

(** The column the solver paired with row [i], if any. *)
Definition chosen (pairs : list (nat * nat)) (i : nat) : option nat :=
  snd <$> List.find (fun rc => rc.1 =? i) pairs.

(** The link of row [i]: the solver's column, mapped back to [W], if the
    similarity reaches the threshold; the sentinel otherwise. *)
Definition rethreshold (thr : npfloat) (W : matrix) (kept : list nat)
    (pairs : list (nat * nat)) (i : nat) : Z :=
  match chosen pairs i with
  | Some c =>
      match kept !! c with
      | Some j => if fge (entry W i j) thr then Z.of_nat j else (-1)%Z
      | None => (-1)%Z
      end
  | None => (-1)%Z
  end.

(** The link of row [i] after the loop over [pairs], started from [link0]. *)
Definition accepted (thr : npfloat) (weight_ : matrix) (avail_col : list nat)
    (pairs : list (nat * nat)) (link0 : list Z) (i : nat) : option Z :=
  match chosen pairs i with
  | Some c =>
      if fge (entry weight_ i c) thr then Z.of_nat <$> avail_col !! c else link0 !! i
  | None => link0 !! i
  end.

(** ** Concrete similarity matrices *)

(** Three leaves against two: row 0 meets column 0 exactly at the threshold. *)
Definition W_rect : matrix :=
  [[Fin (1 # 5); Fin 0]; [Fin (1 # 10); Fin (1 # 6)]; [Fin (1 # 2); Fin 1]].

(** Two leaves against two; the second column never reaches the threshold,
    and an unfiltered maximum-weight assignment would pair it with row 0. *)
Definition W_sparse : matrix :=
  [[Fin (1 # 2); Fin (19 # 100)]; [Fin (9 # 20); Fin 0]].

(** Two leaves against two, the second row below the threshold everywhere
    although both columns are kept. *)
Definition W_forced : matrix :=
  [[Fin (9 # 10); Fin (4 # 5)]; [Fin (1 # 10); Fin (1 # 10)]].

(** ** The trajectory builder as the design states it *)

(** [LinkVector[t]] and [num_leaves[t]]. *)
Definition link_at (L : list (list Z)) (t : nat) : list Z := default [] (L !! t).

Definition leaves_at (nl : list nat) (t : nat) : nat := default 0 (nl !! t).

(** The newly emerged leaf indices of frame [t], ascending: every index at
    [t = 0]; afterwards those that no entry of [LinkVector[t-1]] equals. *)
Definition emerged (nl : list nat) (L : list (list Z)) (t : nat) : list nat :=
  match t with
  | 0 => seq 0 (leaves_at nl 0)
  | S t' => List.filter (fun j => not_in j (link_at L t')) (seq 0 (leaves_at nl t))
  end.

(** Leaf index, [d] frames after [t0], of the identity that occupies [j0]
    at [t0]: [LinkVector[t-1][previous value]] until the sentinel, the
    sentinel from then on. *)
Fixpoint follow (L : list (list Z)) (t0 : nat) (j0 : Z) (d : nat) : Z :=
  match d with
  | 0 => j0
  | S d' =>
      let p := follow L t0 j0 d' in
      if (p =? -1)%Z then (-1)%Z
      else default (-1)%Z (link_at L (t0 + d') !! Z.to_nat p)
  end.

(** Entry [t] of the trajectory of the identity introduced at [t0] in [j0]:
    the sentinel before [t0]. *)
Definition position (L : list (list Z)) (t0 j0 t : nat) : Z :=
  if t <? t0 then (-1)%Z else follow L t0 (Z.of_nat j0) (t - t0).

(** The length-[T] trajectory of the identity introduced at [t0] in [j0]. *)
Definition spec_trajectory (L : list (list Z)) (T t0 j0 : nat) : list Z :=
  map (position L t0 j0) (seq 0 T).

(** Frames in order, a running identity counter: each emerged leaf of a
    frame takes the next unused identity, in ascending leaf index. *)
Fixpoint build (nl : list nat) (L : list (list Z)) (T : nat) (ts : list nat)
    (next_id : nat) : list (nat * list Z) :=
  match ts with
  | [] => []
  | t :: ts' =>
      let e := emerged nl L t in
      zip_with (fun id j => (id, spec_trajectory L T t j)) (seq next_id (length e)) e
      ++ build nl L T ts' (next_id + length e)
  end.

(** The identities and trajectories of a sequence with leaf counts [nl] and
    link table [L]. *)
Definition spec_trajectories (nl : list nat) (L : list (list Z)) : list (nat * list Z) :=
  build nl L (length nl) (seq 0 (length nl)) 0.

(** Every link is the sentinel or a leaf index of the next frame. *)
Definition links_in_range (nl : list nat) (L : list (list Z)) : Prop :=
  forall t link i v, L !! t = Some link -> link !! i = Some v ->
    v = (-1)%Z \/ (0 <= v < Z.of_nat (leaves_at nl (t + 1)))%Z.

(** No leaf of the next frame is the target of two links. *)
Definition links_injective (L : list (list Z)) : Prop :=
  forall t link i i' v, L !! t = Some link -> link !! i = Some v ->
    link !! i' = Some v -> v <> (-1)%Z -> i = i'.

(** The link table has one vector per consecutive pair, one entry per leaf. *)
Definition links_shaped (nl : list nat) (L : list (list Z)) : Prop :=
  length L = length nl - 1 /\
  forall t link, L !! t = Some link -> length link = leaves_at nl t.

(** The object as [initialize_linking] leaves it for the leaf counts [nl],
    with [link_info] possibly filled in by [linking] since. *)
Record initialized (nl : list nat) (s : PlantData) : Prop := {
  init_total_time : total_time s = length nl;
  init_num_leaves : num_leaves s = nl;
  init_available : available_leaves s = map (seq 0) nl;
  init_series : link_series s = []
}.

(** The content of [link_series] in terms of the builder of the design:
    the entries of the frames [ts] before their trajectories are filled in,
    the filling, and the whole dictionary. *)
Fixpoint entries (nl : list nat) (L : list (list Z)) (ts : list nat) (next_id : nat)
    : list (nat * series_entry) :=
  match ts with
  | [] => []
  | t :: ts' =>
      let e := emerged nl L t in
      match e with
      | [] => []
      | _ => [(t, {| new_leaf := e; unique_id := seq next_id (length e); leaf := [] |})]
      end ++ entries nl L ts' (next_id + length e)
  end.

Definition filled (L : list (list Z)) (T : nat) (te : nat * series_entry)
    : nat * series_entry :=
  (te.1, {| new_leaf := new_leaf te.2; unique_id := unique_id te.2;
            leaf := map (fun j => (j, spec_trajectory L T te.1 j)) (new_leaf te.2) |}).

Definition first_entry (nl : list nat) : nat * series_entry :=
  (0, {| new_leaf := seq 0 (leaves_at nl 0); unique_id := seq 0 (leaves_at nl 0);
         leaf := [] |}).

Definition spec_series (nl : list nat) (L : list (list Z)) : list (nat * series_entry) :=
  map (filled L (length nl))
      (first_entry nl :: entries nl L (seq 1 (length nl - 1)) (leaves_at nl 0)).

(** The identities of the frames [ts], each named by its frame and leaf of
    emergence, in the order in which the builder numbers them. *)
Definition identities (nl : list nat) (L : list (list Z)) (ts : list nat)
    : list (nat * nat) :=
  flat_map (fun t0 => map (pair t0) (emerged nl L t0)) ts.

(** A link vector of frame [t] is well formed for the leaf counts [nl]. *)
Definition wf_link (nl : list nat) (t : nat) (link : list Z) : Prop :=
  length link = leaves_at nl t /\
  (forall i v, link !! i = Some v ->
     v = (-1)%Z \/ (0 <= v < Z.of_nat (leaves_at nl (t + 1)))%Z) /\
  (forall i i' v, link !! i = Some v -> link !! i' = Some v -> v <> (-1)%Z -> i = i').

(** ** Concrete frames *)

(** A mask set of [h × w] images, each instance given by its pixels in
    row-major order. *)
Definition of_pixels (h w : nat) (inst : list (list Q)) : ndarray3 :=
  {| height := h; width := w; instances := length inst;
     item := fun y x i =>
       match inst !! i with
       | Some px => default 0%Q (px !! (y * w + x))
       | None => 0%Q
       end |}.

(** Frames of a 1 × 4 image: leaf A alone; leaf A and a new leaf B; leaf B,
    grown, alone; and a single leaf whose mask is empty. *)
Definition frame_A : ndarray3 := of_pixels 1 4 [[1; 1; 0; 0]%Q].
Definition frame_AB : ndarray3 := of_pixels 1 4 [[1; 1; 0; 0]%Q; [0; 0; 0; 1]%Q].
Definition frame_B : ndarray3 := of_pixels 1 4 [[0; 0; 1; 1]%Q].
Definition frame_E : ndarray3 := of_pixels 1 4 [[0; 0; 0; 0]%Q].

(** Leaf A is seen at frames 0 and 1 and then lost; leaf B emerges at
    frame 1 and is seen, grown, at frame 2. *)
Definition frames_AB : list (String.string * ndarray3) :=
  [ ("2020-06-09-09-00"%string, frame_A);
    ("2020-06-09-10-00"%string, frame_AB);
    ("2020-06-09-11-00"%string, frame_B) ].

(** The same, with leaf B seen once more at a fourth frame. *)
Definition frames_ABB : list (String.string * ndarray3) :=
  frames_AB ++ [ ("2020-06-09-12-00"%string, frame_B) ].

(** Two frames whose only leaf has an empty mask. *)
Definition frames_empty : list (String.string * ndarray3) :=
  [ ("2020-06-09-09-00"%string, frame_E);
    ("2020-06-09-10-00"%string, frame_E) ].

(** Masks that are not binary (0 and 255), and a mask set of another shape
    with as many pixels, and one with fewer. *)
Definition frame_255 : ndarray3 := of_pixels 1 4 [[255; 255; 0; 0]%Q].
Definition frame_2x2 : ndarray3 := of_pixels 2 2 [[1; 0; 0; 0]%Q].
Definition frame_1x3 : ndarray3 := of_pixels 1 3 [[1; 1; 0]%Q].

(** [m > .5] as a mask set of zeros and ones. *)
Definition binarize (m : ndarray3) : ndarray3 :=
  {| height := height m; width := width m; instances := instances m;
     item := fun y x i => if Qle_bool (item m y x i) (1 # 2) then 0%Q else 1%Q |}.

(** Some pixel of [m] is neither 0 nor 1. *)
Definition non_binary (m : ndarray3) : Prop :=
  exists y x i, y < height m /\ x < width m /\ i < instances m /\
                ~ (item m y x i == 0)%Q /\ ~ (item m y x i == 1)%Q.

(** The two mask sets differ in height or width. *)
Definition mismatched (m1 m2 : ndarray3) : Prop :=
  height m1 <> height m2 \/ width m1 <> width m2.

(** The object before [get_series], for leaf counts [nl] and link table [L]. *)
Definition linked (nl : list nat) (L : list (list Z)) : PlantData :=
  {| time := []; masks := []; total_time := length nl; max_nleaf := 0;
     init_nleaf := 0; num_leaves := nl; num_emergence := [];
     link_info := L; weights := []; available_leaves := map (seq 0) nl;
     link_series := [] |}.

(** Executable form of [links_in_range]. *)
Definition links_in_rangeb (nl : list nat) (L : list (list Z)) : bool :=
  forallb (fun tl : nat * list Z =>
             forallb (fun v => (v =? -1)%Z
                               || ((0 <=? v)%Z && (v <? Z.of_nat (leaves_at nl (tl.1 + 1)))%Z))
                     tl.2)
          (imap pair L).

(** Frames the pipeline accepts: at least one frame, all of the same
    flattened length, every frame but the last with a leaf, and no leaf
    with an empty mask facing an empty mask of the next frame. *)
Record well_formed (frames : list ndarray3) : Prop := {
  wf_nonempty : frames <> [];
  wf_pixels : forall t m0 m1, frames !! t = Some m0 -> frames !! (t + 1) = Some m1 ->
                npixels m1 = npixels m0;
  wf_leaves : forall t m0 m1, frames !! t = Some m0 -> frames !! (t + 1) = Some m1 ->
                0 < instances m0;
  wf_union : forall t m0 m1 i j, frames !! t = Some m0 -> frames !! (t + 1) = Some m1 ->
               i < instances m0 -> j < instances m1 ->
               (0 < area_at m0 i)%Z \/ (0 < area_at m1 j)%Z
}.

(** Scenario "static leaves": three frames of the same two disjoint masks. *)
Definition frame_static : ndarray3 := of_pixels 1 4 [[1; 1; 0; 0]%Q; [0; 0; 0; 1]%Q].

Definition frames_static : list (String.string * ndarray3) :=
  [ ("2020-06-09-09-00"%string, frame_static);
    ("2020-06-09-10-00"%string, frame_static);
    ("2020-06-09-11-00"%string, frame_static) ].

(** * Further definitions, for the further properties of the code *)

(** [self.link_info = li], every other attribute kept. *)
Definition with_link_info (s : PlantData) (li : list (list Z)) : PlantData :=
  {| time := time s; masks := masks s; total_time := total_time s;
     max_nleaf := max_nleaf s; init_nleaf := init_nleaf s;
     num_leaves := num_leaves s; num_emergence := num_emergence s;
     link_info := li; weights := weights s;
     available_leaves := available_leaves s; link_series := link_series s |}.

(** The object for [frames_AB] after the bookkeeping methods, before any
    call of [linking]. *)
Definition prepared_AB : PlantData :=
  match prepare frames_AB with Ok s => s | Raise _ => loaded [] end.

(** A first frame without any leaf, followed by leaf A. *)
Definition frames_none : list (String.string * ndarray3) :=
  [ ("2020-06-09-09-00"%string, of_pixels 1 4 []);
    ("2020-06-09-10-00"%string, frame_A) ].

Definition prepared_none : PlantData :=
  match prepare frames_none with Ok s => s | Raise _ => loaded [] end.

(** [v] is a link, not the sentinel; [v] is the sentinel. *)
Definition is_link (v : Z) : bool := negb (v =? -1)%Z.
Definition is_sentinel (v : Z) : bool := (v =? -1)%Z.

(** [tr] holds a leaf index, not the sentinel, at time [t]. *)
Definition alive (t : nat) (tr : list Z) : bool :=
  match tr !! t with Some v => negb (v =? -1)%Z | None => false end.

(** The object for [frames_AB] after [gettotaltime] alone: three frames and
    no leaf count yet. *)
Definition timed_AB : PlantData :=
  match gettotaltime (loaded frames_AB) with Ok s => s | Raise _ => loaded [] end.


(** ** Loading: all frames are cut to one square size *)

(** [a[0:min_dim, 0:min_dim, :]]: a slice stops at the bound of the array. *)
Definition crop (min_dim : nat) (a : ndarray3) : ndarray3 :=
  {| height := height a `min` min_dim; width := width a `min` min_dim;
     instances := instances a; item := item a |}.



(** [PlantData.load_results], the mask sets read from disk being the
    argument: the mask sets appended to [self.masks]. *)
Definition load_results (min_dim : nat) (read : list ndarray3) : list ndarray3 :=
  map (crop min_dim) read.

(** [self.min_dim] as [__init__] leaves it. *)
Definition initial_min_dim : nat := 0.

(** * Segment areas: [plantcv/plantcv/morphology/fill_segments.py] *)

(** One more occurrence of [v] in the sorted table of values and counts. *)
Fixpoint count_in (v : Z) (uc : list (Z * nat)) : list (Z * nat) :=
  match uc with
  | [] => [(v, 1)]
  | (u, c) :: uc' =>
      if (v =? u)%Z then (u, S c) :: uc'
      else if (v <? u)%Z then (v, 1) :: (u, c) :: uc'
      else (u, c) :: count_in v uc'
  end.

(** [np.unique(a, return_counts=True)] on the flattened array: the distinct
    values in ascending order, each with its number of occurrences. *)
Definition np_unique (a : list Z) : list (Z * nat) := foldr count_in [] a.

(** The observation [fill_segments] records from the label image
    [filled_mask] that the watershed returns (0 for the background, [l] for
    the segment grown from contour [l - 1]):
    [value = counts[1:]] and [label = ids[1:] - 1]. *)
Definition segment_area (filled_mask : list (list Z)) : list nat * list Z :=
  let uc := np_unique (concat filled_mask) in
  (map snd (drop 1 uc), map (fun p => (p.1 - 1)%Z) (drop 1 uc)).

(** Number of pixels of [filled_mask] with label [l]. *)
Definition pixels_of (l : Z) (filled_mask : list (list Z)) : nat :=
  length (List.filter (Z.eqb l) (concat filled_mask)).

(** A label image with background and segments 1 and 3, and one without
    any background pixel. *)
Definition filled_with_background : list (list Z) := [[0; 1; 1]; [3; 0; 1]]%Z.
Definition filled_without_background : list (list Z) := [[2; 1; 1]; [2; 2; 1]]%Z.

(** The keys of a table are in strictly ascending order. *)
Definition keys_sorted (uc : list (Z * nat)) : Prop :=
  StronglySorted (fun p q : Z * nat => (p.1 < q.1)%Z) uc.

(** The count the table holds for [u], 0 when [u] is not a key. *)
Definition held (u : Z) (uc : list (Z * nat)) : nat :=
  match List.find (fun p : Z * nat => (p.1 =? u)%Z) uc with
  | Some p => p.2
  | None => 0
  end.
(** * Properties *)

(** ** The [result] monad *)

Lemma bind_Ok {A B} (m : result A) (f : A -> result B) (b : B) :
  m ≫= f = Ok b <-> exists a, m = Ok a /\ f a = Ok b.
Proof.
  destruct m as [a|e]; simpl; split.
  - intros H; exists a; auto.
  - intros (a' & Ha & H); congruence.
  - discriminate.
  - intros (a' & Ha & H); discriminate.
Qed.

Lemma getitem_Ok {A} (l : list A) (i : nat) (a : A) :
  getitem l i = Ok a <-> l !! i = Some a.
Proof. unfold getitem; destruct (l !! i); split; congruence. Qed.

Lemma setitem_Ok {A} (l l' : list A) (i : nat) (x : A) :
  setitem l i x = Ok l' <-> i < length l /\ l' = <[i:=x]> l.
Proof.
  unfold setitem; destruct (decide (i < length l)); split.
  - intros [= <-]; auto.
  - intros [_ ->]; auto.
  - discriminate.
  - intros [? _]; lia.
Qed.

(** Decompose a hypothesis [H : (x ← m; k x) = Ok y] step by step. *)
Ltac bind_inv H :=
  repeat match type of H with
  | _ ≫= _ = Ok _ =>
      let a := fresh "a" in let Ha := fresh "Ha" in
      apply bind_Ok in H; destruct H as (a & Ha & H)
  end.

Lemma mapM_Ok_length {A B} (f : A -> result B) (l : list A) (bs : list B) :
  mapM f l = Ok bs -> length bs = length l.
Proof.
  revert bs; induction l as [|a l IH]; intros bs H; simpl in H.
  - injection H as <-; reflexivity.
  - bind_inv H. injection H as <-. simpl. f_equal. eauto.
Qed.

Lemma mapM_Ok_lookup {A B} (f : A -> result B) (l : list A) (bs : list B) i a :
  mapM f l = Ok bs -> l !! i = Some a -> exists b, bs !! i = Some b /\ f a = Ok b.
Proof.
  revert bs i; induction l as [|x l IH]; intros bs i H Hi; simpl in H.
  - discriminate.
  - bind_inv H. injection H as <-. destruct i as [|i]; simpl in *.
    + injection Hi as ->. eauto.
    + eauto.
Qed.

Lemma mapM_pure {A B} (f : A -> result B) (g : A -> B) (l : list A) :
  (forall a, a ∈ l -> f a = Ok (g a)) -> mapM f l = Ok (map g l).
Proof.
  induction l as [|a l IH]; intros H; simpl; [reflexivity|].
  rewrite H by constructor. simpl. rewrite IH; [reflexivity|].
  intros; apply H; constructor; assumption.
Qed.

(** ** Column filtering *)

Lemma mem_true (x : nat) (l : list nat) : mem x l = true <-> x ∈ l.
Proof.
  unfold mem. rewrite existsb_exists. split.
  - intros (y & Hy & Heq). apply Nat.eqb_eq in Heq as <-. now apply list_elem_of_In.
  - intros H. exists x. split; [now apply list_elem_of_In | apply Nat.eqb_refl].
Qed.

Lemma elem_of_filter_bool {A} (f : A -> bool) (l : list A) (x : A) :
  x ∈ List.filter f l <-> x ∈ l /\ f x = true.
Proof. rewrite !list_elem_of_In. apply filter_In. Qed.

Lemma NoDup_filter_bool {A} (f : A -> bool) (l : list A) :
  NoDup l -> NoDup (List.filter f l).
Proof.
  induction 1 as [|x l Hx Hl IH]; simpl; [constructor|].
  destruct (f x); [constructor|]; auto.
  rewrite elem_of_filter_bool. tauto.
Qed.

Lemma delete_row_shift (idx_col : list nat) (row : list npfloat) (k : nat) :
  map snd (List.filter (fun p => negb (mem (fst p) idx_col))
                       (imap (fun i x => (k + i, x)) row))
  = map (fun j => default NaN (row !! (j - k)))
        (List.filter (fun j => negb (mem j idx_col)) (seq k (length row))).
Proof.
  revert k; induction row as [|x row IH]; intros k; [reflexivity|].
  rewrite imap_cons. cbn [length seq List.filter fst].
  rewrite Nat.add_0_r.
  assert (Htail :
    map snd (List.filter (fun p => negb (mem (fst p) idx_col))
                         (imap ((fun i y => (k + i, y)) ∘ S) row))
    = map (fun j => default NaN ((x :: row) !! (j - k)))
          (List.filter (fun j => negb (mem j idx_col)) (seq (S k) (length row)))).
  { rewrite (imap_ext _ (fun i y => (S k + i, y))) by (intros; simpl; f_equal; lia).
    rewrite IH. apply map_ext_in. intros j Hj.
    apply filter_In in Hj as [Hj _]. apply in_seq in Hj.
    replace (j - k) with (S (j - S k)) by lia. reflexivity. }
  destruct (negb (mem k idx_col)); cbn [map snd].
  - rewrite Nat.sub_diag. simpl. f_equal. exact Htail.
  - exact Htail.
Qed.

Lemma delete_row_restrict (idx_col : list nat) (row : list npfloat) :
  delete_row idx_col row
  = map (fun j => default NaN (row !! j))
        (List.filter (fun j => negb (mem j idx_col)) (seq 0 (length row))).
Proof.
  unfold delete_row.
  rewrite (imap_ext _ (fun i x => (0 + i, x))) by reflexivity.
  rewrite delete_row_shift. apply map_ext. intros j. now rewrite Nat.sub_0_r.
Qed.

Lemma delete_cols_restrict (W : matrix) (idx_col : list nat) (n1 : nat) :
  Forall (fun row => length row = n1) W ->
  delete_cols W idx_col
  = restrict W (List.filter (fun j => negb (mem j idx_col)) (seq 0 n1)).
Proof.
  intros HW. unfold delete_cols, restrict. apply map_ext_in. intros row Hrow.
  rewrite delete_row_restrict.
  rewrite Forall_forall in HW. rewrite (HW row) by (apply list_elem_of_In; exact Hrow).
  reflexivity.
Qed.

Lemma foldl_zip_with_fmaximum (n1 : nat) (rest : matrix) (row : list npfloat) :
  length row = n1 -> Forall (fun r => length r = n1) rest ->
  length (foldl (zip_with fmaximum) row rest) = n1 /\
  forall j, j < n1 ->
    foldl (zip_with fmaximum) row rest !! j
    = Some (foldl fmaximum (default NaN (row !! j)) (column rest j)).
Proof.
  revert row; induction rest as [|r rest IH]; intros row Hrow Hrest.
  - split; [exact Hrow|]. intros j Hj. simpl.
    destruct (lookup_lt_is_Some_2 row j) as [x Hx]; [lia|]. now rewrite Hx.
  - apply Forall_cons in Hrest as [Hr Hrest]. simpl.
    assert (Hlen : length (zip_with fmaximum row r) = n1).
    { rewrite length_zip_with. lia. }
    destruct (IH _ Hlen Hrest) as [IHlen IHj]. split; [exact IHlen|].
    intros j Hj. rewrite (IHj j Hj). f_equal. f_equal.
    destruct (lookup_lt_is_Some_2 row j) as [x Hx]; [lia|].
    destruct (lookup_lt_is_Some_2 r j) as [y Hy]; [lia|].
    rewrite lookup_zip_with, Hx, Hy. reflexivity.
Qed.

Lemma amax0_columns (n0 n1 : nat) (W : matrix) (cm : list npfloat) :
  shaped n0 n1 W -> amax0 W = Ok cm ->
  length cm = n1 /\ forall j, j < n1 -> cm !! j = Some (max_list (column W j)).
Proof.
  intros [_ HW] H. destruct W as [|row rest]; [discriminate|].
  injection H as <-. apply Forall_cons in HW as [Hrow Hrest].
  destruct (foldl_zip_with_fmaximum n1 rest row Hrow Hrest) as [Hlen Hj].
  split; [exact Hlen|]. intros j Hlt. rewrite (Hj j Hlt). reflexivity.
Qed.

Lemma where_lt_spec (cm : list npfloat) (thr : npfloat) (j : nat) :
  j ∈ where_lt cm thr <-> exists x, cm !! j = Some x /\ flt x thr = true.
Proof.
  unfold where_lt. rewrite elem_of_filter_bool, elem_of_seq. split.
  - intros [_ H]. destruct (cm !! j) as [x|]; [eauto | discriminate].
  - intros (x & Hx & Hlt). rewrite Hx. split; [|exact Hlt].
    apply lookup_lt_Some in Hx. lia.
Qed.

Lemma avail_col_remaining (thr : npfloat) (n0 n1 : nat) (W : matrix) (cm : list npfloat) :
  shaped n0 n1 W -> amax0 W = Ok cm ->
  List.filter (fun x => negb (mem x (where_lt cm thr))) (seq 0 n1)
  = remaining_columns thr n1 W.
Proof.
  intros HW Hcm. destruct (amax0_columns _ _ _ _ HW Hcm) as [_ Hj].
  unfold remaining_columns. apply filter_ext_in. intros j Hin.
  apply in_seq in Hin. f_equal.
  apply eq_true_iff_eq. rewrite mem_true, where_lt_spec, (Hj j) by lia.
  split; [intros (x & [= <-] & H); exact H | eauto].
Qed.

Lemma remaining_columns_spec (thr : npfloat) (n1 : nat) (W : matrix) (j : nat) :
  j ∈ remaining_columns thr n1 W <-> j < n1 /\ flt (max_list (column W j)) thr = false.
Proof.
  unfold remaining_columns. rewrite elem_of_filter_bool, elem_of_seq, negb_true_iff.
  intuition lia.
Qed.

Lemma remaining_columns_NoDup (thr : npfloat) (n1 : nat) (W : matrix) :
  NoDup (remaining_columns thr n1 W).
Proof. apply NoDup_filter_bool, NoDup_seq. Qed.

(** ** The acceptance loop *)

Lemma entry_getitem2 (W : matrix) (r c : nat) (w : npfloat) :
  getitem2 W r c = Ok w -> entry W r c = w.
Proof.
  unfold getitem2, entry. intros H. bind_inv H.
  apply getitem_Ok in Ha, H. now rewrite Ha, H.
Qed.

Lemma chosen_None (pairs : list (nat * nat)) (i : nat) :
  i ∉ pairs.*1 -> chosen pairs i = None.
Proof.
  unfold chosen. induction pairs as [|[r c] pairs IH]; intros Hi; [reflexivity|].
  simpl in *. rewrite not_elem_of_cons in Hi. destruct Hi as [Hne Hi].
  destruct (Nat.eqb_spec r i); [congruence|]. auto.
Qed.

Lemma chosen_Some (pairs : list (nat * nat)) (i c : nat) :
  chosen pairs i = Some c -> (i, c) ∈ pairs.
Proof.
  unfold chosen. induction pairs as [|[r c'] pairs IH]; [discriminate|].
  simpl. destruct (Nat.eqb_spec r i) as [->|Hne].
  - intros [= ->]. constructor.
  - intros H. constructor. auto.
Qed.

Lemma chosen_elem (pairs : list (nat * nat)) (i c : nat) :
  NoDup pairs.*1 -> (i, c) ∈ pairs -> chosen pairs i = Some c.
Proof.
  unfold chosen. induction pairs as [|[r c'] pairs IH]; intros Hnd Hin.
  - inversion Hin.
  - simpl in *. apply NoDup_cons in Hnd as [Hr Hnd].
    apply elem_of_cons in Hin as [[= <- <-]|Hin].
    + now rewrite Nat.eqb_refl.
    + destruct (Nat.eqb_spec r i) as [->|Hne]; [|auto].
      exfalso. apply Hr. apply list_elem_of_fmap. now exists (i, c).
Qed.

Lemma foldM_accept (thr : npfloat) (weight_ : matrix) (avail_col : list nat)
    (pairs : list (nat * nat)) (link0 link : list Z) :
  NoDup pairs.*1 ->
  foldM (accept thr weight_ avail_col) link0 pairs = Ok link ->
  length link = length link0 /\
  forall i, link !! i = accepted thr weight_ avail_col pairs link0 i.
Proof.
  revert link0; induction pairs as [|[r c] pairs IH]; intros link0 Hnd H.
  - injection H as <-. split; reflexivity.
  - simpl in H, Hnd. apply NoDup_cons in Hnd as [Hr Hnd].
    apply bind_Ok in H as (link1 & H1 & H).
    destruct (IH _ Hnd H) as [Hlen Hlk].
    unfold accept in H1. simpl in H1.
    apply bind_Ok in H1 as (w & Hw & H1). apply entry_getitem2 in Hw.
    assert (Hstep : length link1 = length link0 /\
              link1 !! r = (if fge w thr then Z.of_nat <$> avail_col !! c else link0 !! r) /\
              forall i, i <> r -> link1 !! i = link0 !! i).
    { destruct (fge w thr).
      - apply bind_Ok in H1 as (a & Ha & H1). apply getitem_Ok in Ha.
        apply setitem_Ok in H1 as [Hlt ->]. rewrite length_insert, Ha. simpl.
        split; [reflexivity|]. split; [now apply list_lookup_insert_eq|].
        intros i Hi. now apply list_lookup_insert_ne.
      - injection H1 as <-. auto. }
    destruct Hstep as (Hlen1 & Hr1 & Hother).
    split; [congruence|]. intros i. rewrite Hlk. unfold accepted, chosen. simpl.
    destruct (Nat.eqb_spec r i) as [<-|Hne].
    + fold (chosen pairs r). rewrite (chosen_None pairs r Hr). simpl.
      rewrite Hw. exact Hr1.
    + fold (chosen pairs i). rewrite (Hother i) by congruence. reflexivity.
Qed.

(** ** From the similarity matrix to the link vector *)

Lemma entry_restrict (W : matrix) (kept : list nat) (i c j : nat) :
  i < length W -> kept !! c = Some j ->
  entry (restrict W kept) i c = entry W i j.
Proof.
  intros Hi Hc. unfold entry, restrict.
  destruct (lookup_lt_is_Some_2 W i Hi) as [row Hrow].
  rewrite list_lookup_fmap, Hrow. simpl.
  rewrite list_lookup_fmap, Hc. reflexivity.
Qed.

Lemma ncols_restrict (W : matrix) (kept : list nat) :
  W <> [] -> ncols (restrict W kept) = length kept.
Proof. destruct W; [congruence|]. intros _. simpl. apply length_map. Qed.

Lemma StronglySorted_lt_NoDup (l : list nat) : StronglySorted lt l -> NoDup l.
Proof.
  induction 1 as [|x l Hs IH Hx]; constructor; [|exact IH].
  intros Hin. rewrite Forall_forall in Hx. specialize (Hx x Hin). lia.
Qed.

Lemma assignment_pairs (W : matrix) (ind : list nat * list nat) :
  assignment W ind ->
  NoDup (zip ind.1 ind.2).*1 /\
  (forall i i' c, (i, c) ∈ zip ind.1 ind.2 -> (i', c) ∈ zip ind.1 ind.2 -> i = i') /\
  (forall i c, (i, c) ∈ zip ind.1 ind.2 -> i < length W /\ c < ncols W).
Proof.
  intros [Hlen _ Hrows Hcols Hrr Hcr]. split; [|split].
  - rewrite fst_zip by lia. apply StronglySorted_lt_NoDup, Hrows.
  - intros i i' c Hi Hi'.
    apply list_elem_of_lookup in Hi as (k & Hk), Hi' as (k' & Hk').
    apply lookup_zip_with_Some in Hk as (x & y & [= <- <-] & Hx & Hy).
    apply lookup_zip_with_Some in Hk' as (x' & y' & [= <- <-] & Hx' & Hy').
    assert (k = k') by (eapply NoDup_lookup; eauto). subst k'. congruence.
  - intros i c Hi. apply list_elem_of_lookup in Hi as (k & Hk).
    apply lookup_zip_with_Some in Hk as (x & y & [= <- <-] & Hx & Hy).
    rewrite Forall_forall in Hrr, Hcr. split.
    + apply Hrr. eapply list_elem_of_lookup_2; eauto.
    + apply Hcr. eapply list_elem_of_lookup_2; eauto.
Qed.

Lemma restrict_finite (thr : npfloat) (n0 n1 : nat) (W : matrix) :
  shaped n0 n1 W -> Forall (Forall (fun x => is_finite x = true)) W ->
  Forall (Forall (fun x => is_finite x = true)) (restrict W (remaining_columns thr n1 W)).
Proof.
  intros [_ HW] Hfin. unfold restrict. apply Forall_fmap.
  rewrite Forall_forall in HW, Hfin |- *. intros row Hrow. simpl.
  apply Forall_fmap, Forall_forall. intros j Hj. simpl.
  apply remaining_columns_spec in Hj as [Hj _].
  destruct (lookup_lt_is_Some_2 row j) as [x Hx]; [rewrite (HW row Hrow); exact Hj|].
  rewrite Hx. simpl. specialize (Hfin row Hrow). rewrite Forall_forall in Hfin.
  apply Hfin. eapply list_elem_of_lookup_2; eauto.
Qed.

Section LinkWeight.

Variable lsa : matrix -> result (list nat * list nat).
Hypothesis lsa_ok : lsa_valid lsa.

(** [link_weight] filters the columns, solves on the remaining ones and
    re-thresholds every pair the solver returns. *)
Lemma link_weight_inv (thr : npfloat) (n0 n1 : nat) (W : matrix) (link : list Z) :
  shaped n0 n1 W ->
  link_weight lsa thr n0 n1 W = Ok link ->
  exists ind,
    lsa (restrict W (remaining_columns thr n1 W)) = Ok ind /\
    assignment (restrict W (remaining_columns thr n1 W)) ind /\
    link = map (rethreshold thr W (remaining_columns thr n1 W) (zip ind.1 ind.2))
               (seq 0 n0).
Proof.
  intros HW H. unfold link_weight in H.
  apply bind_Ok in H as (cm & Hcm & H).
  rewrite (delete_cols_restrict W _ n1) in H by apply HW.
  rewrite (avail_col_remaining thr n0 n1 W cm HW Hcm) in H.
  set (kept := remaining_columns thr n1 W) in *.
  apply bind_Ok in H as (ind & Hind & H).
  exists ind. split; [exact Hind|]. pose proof (lsa_ok _ _ Hind) as Hasg.
  split; [exact Hasg|].
  destruct (assignment_pairs _ _ Hasg) as (Hnd & _ & Hrange).
  destruct (foldM_accept _ _ _ _ _ _ Hnd H) as [Hlen Hlk].
  rewrite length_replicate in Hlen.
  assert (HWne : W <> []) by (destruct W; [discriminate | congruence]).
  apply (list_eq_same_length _ _ n0); [now rewrite length_map, length_seq | exact Hlen |].
  intros i x y Hi Hx Hy. rewrite Hlk in Hx.
  rewrite list_lookup_fmap, lookup_seq_lt in Hy by exact Hi.
  injection Hy as <-. unfold accepted in Hx. unfold rethreshold.
  rewrite lookup_replicate_2 in Hx by exact Hi.
  destruct (chosen (zip ind.1 ind.2) i) as [c|] eqn:Hc; [|congruence].
  apply chosen_Some, Hrange in Hc as [Hir Hcr].
  rewrite ncols_restrict in Hcr by exact HWne.
  destruct (lookup_lt_is_Some_2 kept c Hcr) as [j Hj].
  rewrite Hj in Hx |- *. rewrite (entry_restrict W kept i c j) in Hx.
  - destruct (fge (entry W i j) thr); simpl in Hx; congruence.
  - destruct HW as [-> _]. exact Hi.
  - exact Hj.
Qed.

Lemma rethreshold_matched (thr : npfloat) (W : matrix) (kept : list nat)
    (pairs : list (nat * nat)) (i : nat) (v : Z) :
  rethreshold thr W kept pairs i = v -> v <> (-1)%Z ->
  exists c j, chosen pairs i = Some c /\ kept !! c = Some j /\
              fge (entry W i j) thr = true /\ v = Z.of_nat j.
Proof.
  unfold rethreshold. intros H Hv.
  destruct (chosen pairs i) as [c|]; [|congruence].
  destruct (kept !! c) as [j|] eqn:Hj; [|congruence].
  destruct (fge (entry W i j) thr) eqn:Hge; [|congruence].
  exists c, j. repeat split; congruence.
Qed.

End LinkWeight.

(** ** The exhaustive solver meets the contract *)

Lemma sublists_len_spec {A} (k : nat) (l rs : list A) :
  rs ∈ sublists_len k l -> rs `sublist_of` l /\ length rs = k.
Proof.
  revert k rs; induction l as [|x l IH]; intros [|k] rs H; simpl in H.
  - apply list_elem_of_singleton in H as ->. split; [constructor | reflexivity].
  - inversion H.
  - apply list_elem_of_singleton in H as ->. split; [apply sublist_nil_l | reflexivity].
  - apply elem_of_app in H as [H|H].
    + apply list_elem_of_fmap in H as (rs' & -> & H). apply IH in H as [Hs Hl].
      split; [now constructor | simpl; congruence].
    + apply IH in H as [Hs Hl]. split; [now constructor | exact Hl].
Qed.

Lemma injections_spec (k : nat) (cols cs : list nat) :
  cs ∈ injections k cols -> NoDup cs /\ cs ⊆ cols /\ length cs = k.
Proof.
  revert cols cs; induction k as [|k IH]; intros cols cs H; simpl in H.
  - apply list_elem_of_singleton in H as ->.
    split; [constructor|]. split; [apply list_subseteq_nil | reflexivity].
  - apply list_elem_of_In, in_flat_map in H as (c & Hc & H).
    apply list_elem_of_In, list_elem_of_fmap in H as (cs' & -> & H).
    apply IH in H as (Hnd & Hsub & Hlen). split; [|split].
    + constructor; [|exact Hnd]. intros Hin. apply Hsub in Hin.
      apply elem_of_filter_bool in Hin as [_ Hin].
      now rewrite Nat.eqb_refl in Hin.
    + intros x Hx. apply elem_of_cons in Hx as [->|Hx].
      * now apply list_elem_of_In.
      * apply Hsub, elem_of_filter_bool in Hx. tauto.
    + simpl. congruence.
Qed.

Lemma argmax_elem {A} (f : A -> Q) (best : A) (l : list A) :
  argmax f best l ∈ best :: l.
Proof.
  revert best; induction l as [|x l IH]; intros best; simpl; [constructor|].
  specialize (IH (if Qle_bool (f x) (f best) then best else x)).
  apply elem_of_cons in IH as [->|IH].
  - destruct (Qle_bool (f x) (f best)); [constructor | do 2 constructor].
  - do 2 constructor. exact IH.
Qed.

Lemma sublist_StronglySorted {A} (R : A -> A -> Prop) (l1 l2 : list A) :
  l1 `sublist_of` l2 -> StronglySorted R l2 -> StronglySorted R l1.
Proof.
  induction 1 as [|x l1 l2 Hsub IH|x l1 l2 Hsub IH]; intros Hs.
  - constructor.
  - inversion Hs as [|? ? Hs' Hx]; subst. constructor; [auto|].
    rewrite Forall_forall in Hx |- *. intros y Hy. apply Hx.
    now apply (sublist_subseteq _ _ Hsub).
  - inversion Hs; subst. auto.
Qed.

Lemma seq_StronglySorted (a n : nat) : StronglySorted lt (seq a n).
Proof.
  revert a; induction n as [|n IH]; intros a; simpl; constructor; [apply IH|].
  apply Forall_forall. intros x Hx. apply elem_of_seq in Hx. lia.
Qed.

Lemma sorted_sublist_seq (n a : nat) (rs : list nat) :
  StronglySorted lt rs -> Forall (fun r => a <= r < a + n) rs ->
  rs `sublist_of` seq a n.
Proof.
  revert a rs; induction n as [|n IH]; intros a rs Hs Hr.
  - destruct rs as [|r rs]; [constructor|]. apply Forall_cons in Hr as [Hr _]. lia.
  - simpl. destruct rs as [|r rs]; [apply sublist_nil_l|].
    inversion Hs as [|? ? Hs' Hlt]; subst.
    apply Forall_cons in Hr as [Hr Hrs]. rewrite Forall_forall in Hlt, Hrs.
    destruct (decide (r = a)) as [->|Hne].
    + constructor. apply IH; [exact Hs'|]. apply Forall_forall. intros x Hx.
      specialize (Hlt x Hx). specialize (Hrs x Hx). lia.
    + apply sublist_cons. apply IH; [exact Hs|]. apply Forall_forall. intros x Hx.
      apply elem_of_cons in Hx as [->|Hx]; [lia|].
      specialize (Hlt x Hx). specialize (Hrs x Hx). lia.
Qed.

Lemma sublists_len_complete {A} (l rs : list A) :
  rs `sublist_of` l -> rs ∈ sublists_len (length rs) l.
Proof.
  induction 1 as [|x rs l Hsub IH|x rs l Hsub IH]; simpl.
  - constructor.
  - apply elem_of_app. left. apply list_elem_of_fmap. eauto.
  - destruct rs as [|r rs]; simpl in *; [constructor|].
    apply elem_of_app. now right.
Qed.

Lemma injections_complete (cs cols : list nat) :
  NoDup cs -> cs ⊆ cols -> cs ∈ injections (length cs) cols.
Proof.
  revert cols; induction cs as [|c cs IH]; intros cols Hnd Hsub; simpl; [constructor|].
  apply NoDup_cons in Hnd as [Hc Hnd].
  apply list_elem_of_In, in_flat_map. exists c. split.
  - apply list_elem_of_In, Hsub. constructor.
  - apply list_elem_of_In, list_elem_of_fmap. exists cs. split; [reflexivity|].
    apply IH; [exact Hnd|]. intros x Hx. apply elem_of_filter_bool. split.
    + apply Hsub. now constructor.
    + apply negb_true_iff, Nat.eqb_neq. intros ->. contradiction.
Qed.

Lemma argmax_max {A} (f : A -> Q) (best : A) (l : list A) (x : A) :
  x ∈ best :: l -> (f x <= f (argmax f best l))%Q.
Proof.
  revert best x; induction l as [|y l IH]; intros best x Hx; simpl.
  - apply list_elem_of_singleton in Hx as ->. apply Qle_refl.
  - set (b := if Qle_bool (f y) (f best) then best else y).
    assert (Hb : (f best <= f b)%Q /\ (f y <= f b)%Q).
    { unfold b. destruct (Qle_bool (f y) (f best)) eqn:Hle.
      - apply Qle_bool_iff in Hle. split; [apply Qle_refl | exact Hle].
      - split; [|apply Qle_refl]. apply Qlt_le_weak, Qnot_le_lt.
        intros Hc. apply Qle_bool_iff in Hc. congruence. }
    destruct Hb as [Hbest Hy].
    apply elem_of_cons in Hx as [->|Hx].
    + eapply Qle_trans; [exact Hbest | apply IH; constructor].
    + apply elem_of_cons in Hx as [->|Hx].
      * eapply Qle_trans; [exact Hy | apply IH; constructor].
      * apply IH. now constructor.
Qed.

Lemma candidates_assignment (W : matrix) (ind : list nat * list nat) :
  ind ∈ candidates W <-> assignment W ind.
Proof.
  unfold candidates. split.
  - intros H. apply list_elem_of_In, in_flat_map in H as (rs & Hrs & H).
    apply list_elem_of_In, list_elem_of_fmap in H as (cs & -> & Hcs).
    apply list_elem_of_In, sublists_len_spec in Hrs as [Hsub Hrl].
    apply injections_spec in Hcs as (Hnd & Hin & Hcl).
    constructor; simpl.
    + congruence.
    + exact Hrl.
    + eapply sublist_StronglySorted; [exact Hsub | apply seq_StronglySorted].
    + exact Hnd.
    + apply Forall_forall. intros r Hr.
      apply (sublist_subseteq _ _ Hsub), elem_of_seq in Hr. lia.
    + apply Forall_forall. intros c Hc. apply Hin, elem_of_seq in Hc. lia.
  - destruct ind as [rs cs]. intros [Hlen Hsize Hrows Hcols Hrr Hcr]. simpl in *.
    apply list_elem_of_In, in_flat_map. exists rs. split.
    + apply list_elem_of_In. rewrite <- Hsize. apply sublists_len_complete.
      apply sorted_sublist_seq; [exact Hrows|].
      eapply Forall_impl; [exact Hrr|]. simpl. intros; lia.
    + apply list_elem_of_In, list_elem_of_fmap. exists cs. split; [reflexivity|].
      rewrite <- Hsize, Hlen. apply injections_complete; [exact Hcols|].
      intros c Hc. rewrite Forall_forall in Hcr. apply elem_of_seq.
      specialize (Hcr c Hc). lia.
Qed.

Lemma brute_force_valid : lsa_valid brute_force.
Proof.
  intros W ind H. unfold brute_force in H.
  destruct (forallb (forallb is_finite) W); [|discriminate].
  destruct (candidates W) as [|c cs] eqn:Hc; [discriminate|].
  injection H as <-. apply candidates_assignment. rewrite Hc. apply argmax_elem.
Qed.

Lemma brute_force_optimal : lsa_optimal brute_force.
Proof.
  intros W ind ind' _ H Hasg. unfold brute_force in H.
  destruct (forallb (forallb is_finite) W); [|discriminate].
  destruct (candidates W) as [|c cs] eqn:Hc; [discriminate|].
  injection H as <-. apply argmax_max. rewrite <- Hc. now apply candidates_assignment.
Qed.

Lemma fge_Fin (q tau : Q) : fge (Fin q) (Fin tau) = true <-> (tau <= q)%Q.
Proof. simpl. apply Qle_bool_iff. Qed.

Section Assignment.

Variable lsa : matrix -> result (list nat * list nat).
Hypothesis lsa_ok : lsa_valid lsa.

(** The link vector of the assignment step is well formed. *)
Lemma link_weight_wf (thr : npfloat) (n0 n1 : nat) (W : matrix) (link : list Z) :
  shaped n0 n1 W ->
  link_weight lsa thr n0 n1 W = Ok link ->
  length link = n0 /\
  (forall i v, link !! i = Some v -> v = (-1)%Z \/ (0 <= v < Z.of_nat n1)%Z) /\
  (forall i i' v, link !! i = Some v -> link !! i' = Some v -> v <> (-1)%Z -> i = i').
Proof.
  intros HW H.
  destruct (link_weight_inv lsa lsa_ok thr n0 n1 W link HW H) as (ind & _ & Hasg & ->).
  destruct (assignment_pairs _ _ Hasg) as (Hnd & Hinj & _).
  set (kept := remaining_columns thr n1 W) in *.
  assert (Hlk : forall i v,
    map (rethreshold thr W kept (zip ind.1 ind.2)) (seq 0 n0) !! i = Some v ->
    rethreshold thr W kept (zip ind.1 ind.2) i = v).
  { intros i v Hi. apply list_lookup_fmap_Some in Hi as (i' & -> & Hi').
    apply lookup_seq in Hi' as [-> _]. reflexivity. }
  split; [now rewrite length_map, length_seq|]. split.
  - intros i v Hi. apply Hlk in Hi.
    destruct (decide (v = (-1)%Z)) as [|Hv]; [now left | right].
    destruct (rethreshold_matched _ _ _ _ _ _ Hi Hv) as (c & j & _ & Hj & _ & ->).
    apply list_elem_of_lookup_2, remaining_columns_spec in Hj. lia.
  - intros i i' v Hi Hi' Hv. apply Hlk in Hi, Hi'.
    destruct (rethreshold_matched _ _ _ _ _ _ Hi Hv) as (c & j & Hc & Hj & _ & ->).
    destruct (rethreshold_matched _ _ _ _ _ _ Hi' Hv) as (c' & j' & Hc' & Hj' & _ & Heq).
    apply Nat2Z.inj in Heq as <-.
    assert (c = c').
    { eapply NoDup_lookup; [apply (remaining_columns_NoDup thr n1 W) | exact Hj | exact Hj']. }
    subst c'. apply chosen_Some in Hc, Hc'. eapply Hinj; eauto.
Qed.

(** C2: for a similarity matrix of shape [n0 × n1] and any threshold, the
    link vector returned by the assignment step has one entry per row, each
    entry is the sentinel [-1] or a column index in [[0, n1)], and no two
    rows hold the same non-sentinel column. *)
Theorem link_vector_injective (thr : npfloat) (n0 n1 : nat) (W : matrix) (link : list Z) :
  shaped n0 n1 W ->
  link_weight lsa thr n0 n1 W = Ok link ->
  length link = n0 /\
  (forall i v, link !! i = Some v -> v = (-1)%Z \/ (0 <= v < Z.of_nat n1)%Z) /\
  (forall i i' v, link !! i = Some v -> link !! i' = Some v -> v <> (-1)%Z -> i = i').
Proof. exact (link_weight_wf thr n0 n1 W link). Qed.

(** C3: a row is linked to a column only if their similarity is at least
    the threshold; a pair proposed by the solver is accepted when its
    similarity equals the threshold and rejected, the row staying at the
    sentinel, when it is strictly below. *)
Theorem match_threshold (tau : Q) (n0 n1 : nat) (W : matrix) (link : list Z) :
  shaped n0 n1 W ->
  link_weight lsa (Fin tau) n0 n1 W = Ok link ->
  (forall i j, link !! i = Some (Z.of_nat j) ->
     fge (entry W i j) (Fin tau) = true /\
     forall q, entry W i j = Fin q -> (tau <= q)%Q) /\
  exists ind,
    lsa (restrict W (remaining_columns (Fin tau) n1 W)) = Ok ind /\
    forall r c j q,
      (r, c) ∈ zip ind.1 ind.2 ->
      remaining_columns (Fin tau) n1 W !! c = Some j ->
      entry W r j = Fin q ->
      ((q == tau)%Q -> link !! r = Some (Z.of_nat j)) /\
      ((q < tau)%Q -> link !! r = Some (-1)%Z).
Proof.
  intros HW H.
  destruct (link_weight_inv lsa lsa_ok _ n0 n1 W link HW H) as (ind & Hind & Hasg & ->).
  destruct (assignment_pairs _ _ Hasg) as (Hnd & _ & Hrange).
  set (kept := remaining_columns (Fin tau) n1 W) in *.
  split.
  - intros i j Hi. apply list_lookup_fmap_Some in Hi as (i' & Hi & Hi').
    apply lookup_seq in Hi' as [-> _]. simpl in Hi. symmetry in Hi.
    apply rethreshold_matched in Hi as (c & j' & _ & _ & Hge & Heq); [|lia].
    apply Nat2Z.inj in Heq as <-. split; [exact Hge|].
    intros q Hq. rewrite Hq in Hge. now apply fge_Fin.
  - exists ind. split; [exact Hind|]. intros r c j q Hrc Hj Hq.
    pose proof (chosen_elem _ _ _ Hnd Hrc) as Hc.
    apply Hrange in Hrc as [Hr _]. unfold restrict in Hr. rewrite length_map in Hr.
    destruct HW as [HW _]. rewrite HW in Hr.
    rewrite list_lookup_fmap, lookup_seq_lt by exact Hr. simpl.
    unfold rethreshold. rewrite Hc, Hj, Hq. simpl. split.
    + intros Heq. replace (Qle_bool tau q) with true; [reflexivity|].
      symmetry. apply Qle_bool_iff. rewrite Heq. apply Qle_refl.
    + intros Hlt. replace (Qle_bool tau q) with false; [reflexivity|].
      symmetry. apply not_true_is_false. rewrite Qle_bool_iff.
      now apply Qlt_not_le.
Qed.

Hypothesis lsa_opt : lsa_optimal lsa.

(** C4: the assignment step filters, then solves, then re-thresholds.  The
    solver is run on the similarity matrix restricted to the columns whose
    maximum over all rows is not below the threshold, and what it returns is
    a one-to-one assignment of rows to those columns, of maximum total
    similarity when the matrix is finite; the link vector is that
    assignment, each pair kept only when its similarity reaches the
    threshold; and no row is linked to a column whose maximum is below the
    threshold. *)
Theorem filter_solve_rethreshold (thr : npfloat) (n0 n1 : nat) (W : matrix)
    (link : list Z) :
  shaped n0 n1 W ->
  link_weight lsa thr n0 n1 W = Ok link ->
  (exists ind,
     lsa (restrict W (remaining_columns thr n1 W)) = Ok ind /\
     assignment (restrict W (remaining_columns thr n1 W)) ind /\
     (Forall (Forall (fun x => is_finite x = true)) W ->
      forall ind', assignment (restrict W (remaining_columns thr n1 W)) ind' ->
        (total (restrict W (remaining_columns thr n1 W)) ind'
         <= total (restrict W (remaining_columns thr n1 W)) ind)%Q) /\
     link = map (rethreshold thr W (remaining_columns thr n1 W) (zip ind.1 ind.2))
                (seq 0 n0)) /\
  (forall j, j < n1 -> flt (max_list (column W j)) thr = true ->
     forall i, link !! i <> Some (Z.of_nat j)).
Proof.
  intros HW H.
  destruct (link_weight_inv lsa lsa_ok thr n0 n1 W link HW H) as (ind & Hind & Hasg & ->).
  split.
  - exists ind. split; [exact Hind|]. split; [exact Hasg|]. split; [|reflexivity].
    intros Hfin ind' Hasg'.
    exact (lsa_opt _ _ _ (restrict_finite thr n0 n1 W HW Hfin) Hind Hasg').
  - intros j Hj Hlow i Hi.
    apply list_lookup_fmap_Some in Hi as (i' & Hi & Hi').
    apply lookup_seq in Hi' as [-> _]. simpl in Hi. symmetry in Hi.
    apply rethreshold_matched in Hi as (c & j' & _ & Hkept & _ & Heq); [|lia].
    apply Nat2Z.inj in Heq as <-.
    apply list_elem_of_lookup_2, remaining_columns_spec in Hkept as [_ Hkept].
    congruence.
Qed.

End Assignment.

Lemma shaped_W_rect : shaped 3 2 W_rect.
Proof. split; [reflexivity | repeat constructor]. Qed.

Lemma shaped_W_sparse : shaped 2 2 W_sparse.
Proof. split; [reflexivity | repeat constructor]. Qed.

Lemma shaped_W_forced : shaped 2 2 W_forced.
Proof. split; [reflexivity | repeat constructor]. Qed.

Lemma link_vector_injective_witness :
  link_weight brute_force threshold 3 2 W_rect = Ok [0; -1; 1]%Z /\
  forall i i' v, [0; -1; 1]%Z !! i = Some v -> [0; -1; 1]%Z !! i' = Some v ->
                 v <> (-1)%Z -> i = i'.
Proof.
  split; [reflexivity|].
  apply (link_vector_injective brute_force brute_force_valid threshold 3 2 W_rect).
  - exact shaped_W_rect.
  - reflexivity.
Defined.

Lemma match_threshold_witness :
  link_weight brute_force threshold 2 2 W_forced = Ok [0; -1]%Z /\
  forall i j, [0; -1]%Z !! i = Some (Z.of_nat j) ->
    fge (entry W_forced i j) threshold = true /\
    forall q, entry W_forced i j = Fin q -> (1 # 5 <= q)%Q.
Proof.
  split; [reflexivity|].
  apply (match_threshold brute_force brute_force_valid (1 # 5) 2 2 W_forced).
  - exact shaped_W_forced.
  - reflexivity.
Defined.

Lemma filter_solve_rethreshold_witness :
  link_weight brute_force threshold 2 2 W_sparse = Ok [0; -1]%Z /\
  forall j, j < 2 -> flt (max_list (column W_sparse j)) threshold = true ->
    forall i, [0; -1]%Z !! i <> Some (Z.of_nat j).
Proof.
  split; [reflexivity|].
  apply (filter_solve_rethreshold brute_force brute_force_valid brute_force_optimal
           threshold 2 2 W_sparse).
  - exact shaped_W_sparse.
  - reflexivity.
Defined.

(** ** Forward chaining *)

Lemma follow_sentinel_stays (L : list (list Z)) (t0 : nat) (j0 : Z) (d d' : nat) :
  follow L t0 j0 d = (-1)%Z -> d <= d' -> follow L t0 j0 d' = (-1)%Z.
Proof.
  intros Hd. induction 1 as [|d' _ IH]; [exact Hd|].
  simpl. now rewrite IH.
Qed.

Lemma follow_range (nl : list nat) (L : list (list Z)) (t0 : nat) (j0 : Z) (d : nat) :
  links_in_range nl L -> (0 <= j0)%Z ->
  follow L t0 j0 d = (-1)%Z \/ (0 <= follow L t0 j0 d)%Z.
Proof.
  intros HL Hj. induction d as [|d IH]; [now right|].
  simpl. destruct (Z.eqb_spec (follow L t0 j0 d) (-1)); [now left|].
  unfold link_at. destruct (L !! (t0 + d)) as [link|] eqn:Hlink; simpl.
  - destruct (link !! Z.to_nat (follow L t0 j0 d)) as [v|] eqn:Hv; simpl; [|now left].
    destruct (HL _ _ _ _ Hlink Hv) as [->|?]; [now left | right; lia].
  - now left.
Qed.

Section Chain.

Variables (nl : list nat) (L : list (list Z)) (T t0 lf : nat).
Hypothesis HL : links_in_range nl L.

Lemma chain_spec (n m : nat) (tr tr' : list Z) :
  m + n = T -> t0 < m -> length tr = T ->
  (forall t, t < m -> tr !! t = Some (position L t0 lf t)) ->
  (forall t, m <= t < T -> tr !! t = Some (-1)%Z) ->
  chain L tr (seq m n) = Ok tr' ->
  tr' = spec_trajectory L T t0 lf.
Proof.
  unfold spec_trajectory.
  revert m tr; induction n as [|n IH]; intros m tr Hmn Hm Hlen Hlow Hhigh H.
  - injection H as <-.
    apply (list_eq_same_length _ _ T); [now rewrite length_map, length_seq | exact Hlen |].
    intros i x y Hi Hx Hy. rewrite list_lookup_fmap, lookup_seq_lt in Hy by exact Hi.
    rewrite Hlow in Hx by lia. simpl in Hy. congruence.
  - simpl in H. apply bind_Ok in H as (idx & Hidx & H).
    apply getitem_Ok in Hidx. rewrite Hlow in Hidx by lia. injection Hidx as Hidx.
    assert (Hprev : follow L t0 (Z.of_nat lf) (m - 1 - t0) = idx).
    { subst idx. unfold position. destruct (Nat.ltb_spec (m - 1) t0); [lia | reflexivity]. }
    destruct (Z.ltb_spec idx 0) as [Hneg|Hpos].
    + injection H as <-.
      assert (Hm1 : follow L t0 (Z.of_nat lf) (m - 1 - t0) = (-1)%Z).
      { destruct (follow_range nl L t0 (Z.of_nat lf) (m - 1 - t0) HL); lia. }
      apply (list_eq_same_length _ _ T); [now rewrite length_map, length_seq | exact Hlen |].
      intros i x y Hi Hx Hy. rewrite list_lookup_fmap, lookup_seq_lt in Hy by exact Hi.
      simpl in Hy. injection Hy as <-.
      destruct (Nat.lt_ge_cases i m) as [Hlt|Hge].
      * rewrite Hlow in Hx by exact Hlt. congruence.
      * rewrite Hhigh in Hx by lia. injection Hx as <-. unfold position.
        destruct (Nat.ltb_spec i t0); [reflexivity|].
        symmetry. apply (follow_sentinel_stays L t0 _ (m - 1 - t0)); [exact Hm1 | lia].
    + apply bind_Ok in H as (link & Hlink & H). apply getitem_Ok in Hlink.
      apply bind_Ok in H as (v & Hv & H). apply getitem_Ok in Hv.
      apply bind_Ok in H as (tr1 & Htr1 & H). apply setitem_Ok in Htr1 as [Hlt ->].
      apply (IH (S m) (<[m:=v]> tr)); try (rewrite ?length_insert; lia); [| |exact H].
      * intros t Ht. destruct (decide (t = m)) as [->|Hne].
        -- rewrite list_lookup_insert_eq by exact Hlt. f_equal. unfold position.
           destruct (Nat.ltb_spec m t0); [lia|].
           replace (m - t0) with (S (m - 1 - t0)) by lia. simpl. rewrite Hprev.
           destruct (Z.eqb_spec idx (-1)); [lia|].
           replace (t0 + (m - 1 - t0)) with (m - 1) by lia.
           unfold link_at. rewrite Hlink. simpl. now rewrite Hv.
        -- rewrite list_lookup_insert_ne by congruence. apply Hlow. lia.
      * intros t Ht. rewrite list_lookup_insert_ne by lia. apply Hhigh. lia.
Qed.

End Chain.

Lemma trajectory_spec (nl : list nat) (s : PlantData) (t0 lf : nat) (tr : list Z) :
  links_in_range nl (link_info s) ->
  trajectory s t0 lf = Ok tr ->
  t0 < total_time s /\ tr = spec_trajectory (link_info s) (total_time s) t0 lf.
Proof.
  intros HL H. unfold trajectory in H.
  set (T := total_time s) in *. set (L := link_info s) in *.
  apply bind_Ok in H as (tr0 & Htr0 & H).
  apply setitem_Ok in Htr0 as [Ht0 ->]. rewrite length_replicate in Ht0.
  split; [exact Ht0|].
  assert (Hlen0 : length (<[t0:=Z.of_nat lf]> (replicate T (-1)%Z)) = T).
  { now rewrite length_insert, length_replicate. }
  assert (Hlow0 : forall t, t < S t0 ->
    <[t0:=Z.of_nat lf]> (replicate T (-1)%Z) !! t
    = Some (position L t0 lf t)).
  { intros t Ht. unfold position. destruct (Nat.ltb_spec t t0).
    - rewrite list_lookup_insert_ne by lia. apply lookup_replicate_2. lia.
    - assert (t = t0) as -> by lia. rewrite Nat.sub_diag. simpl.
      apply list_lookup_insert_eq. now rewrite length_replicate. }
  assert (Hhigh0 : forall t, S t0 <= t < T ->
    <[t0:=Z.of_nat lf]> (replicate T (-1)%Z) !! t = Some (-1)%Z).
  { intros t Ht. rewrite list_lookup_insert_ne by lia. apply lookup_replicate_2. lia. }
  destruct (Nat.ltb_spec t0 (T - 1)) as [Hlt|Hge].
  - apply bind_Ok in H as (link & Hlink & H). apply getitem_Ok in Hlink.
    apply bind_Ok in H as (v & Hv & H). apply getitem_Ok in Hv.
    apply bind_Ok in H as (tr1 & Htr1 & H). apply setitem_Ok in Htr1 as [Hlt1 ->].
    eapply (chain_spec nl L T t0 lf HL (T - (t0 + 2)) (t0 + 2)); [| | | | |exact H];
      try (rewrite ?length_insert, ?length_replicate; lia).
    + intros t Ht. destruct (decide (t = t0 + 1)) as [->|Hne].
      * rewrite list_lookup_insert_eq by (rewrite Hlen0; lia). f_equal.
        unfold position. destruct (Nat.ltb_spec (t0 + 1) t0); [lia|].
        replace (t0 + 1 - t0) with 1 by lia. simpl.
        destruct (Z.eqb_spec (Z.of_nat lf) (-1)); [lia|].
        rewrite Nat.add_0_r, Nat2Z.id. unfold link_at. fold L. rewrite Hlink.
        simpl. now rewrite Hv.
      * rewrite list_lookup_insert_ne by congruence. apply Hlow0. lia.
    + intros t Ht. rewrite list_lookup_insert_ne by lia. apply Hhigh0. lia.
  - injection H as <-. unfold spec_trajectory.
    apply (list_eq_same_length _ _ T); [now rewrite length_map, length_seq | exact Hlen0 |].
    intros i x y Hi Hx Hy. rewrite list_lookup_fmap, lookup_seq_lt in Hy by exact Hi.
    rewrite Hlow0 in Hx by lia. simpl in Hy. congruence.
Qed.

(** ** Emergence detection *)

Lemma fresh_ids_spec (u : nat) (l : list nat) :
  fresh_ids u l = (seq u (length l), u + length l).
Proof.
  unfold fresh_ids.
  assert (H : forall acc v,
    foldl (fun (a : list nat * nat) (_ : nat) => (a.1 ++ [a.2], a.2 + 1)) (acc, v) l
    = (acc ++ seq v (length l), v + length l)).
  { induction l as [|x l IH]; intros acc v; simpl.
    - now rewrite app_nil_r, Nat.add_0_r.
    - rewrite IH. simpl. rewrite <- app_assoc. simpl.
      f_equal; [f_equal; f_equal; f_equal; lia | lia]. }
  apply H.
Qed.

Lemma new_leaves_of_Ok (L : list (list Z)) (t : nat) (leaves news : list nat) :
  new_leaves_of L t leaves = Ok news ->
  news = List.filter (fun i => not_in i (link_at L (t - 1))) leaves.
Proof.
  revert news; induction leaves as [|i leaves IH]; intros news H; simpl in H.
  - now injection H as <-.
  - apply bind_Ok in H as (link & Hlink & H). apply getitem_Ok in Hlink.
    apply bind_Ok in H as (news' & Hnews & H). injection H as <-.
    simpl. unfold link_at at 1. rewrite Hlink. simpl.
    rewrite (IH _ Hnews). reflexivity.
Qed.

Lemma dict_set_fresh {V} (k : nat) (v : V) (d : list (nat * V)) :
  k ∉ d.*1 -> dict_set k v d = d ++ [(k, v)].
Proof.
  induction d as [|[k' v'] d IH]; intros Hk; [reflexivity|].
  simpl in *. apply not_elem_of_cons in Hk as [Hne Hk].
  destruct (Nat.eqb_spec k k'); [congruence|]. now rewrite IH.
Qed.

Lemma entries_keys (nl : list nat) (L : list (list Z)) (ts : list nat) (u k : nat) :
  k ∈ (entries nl L ts u).*1 -> k ∈ ts.
Proof.
  revert u; induction ts as [|t ts IH]; intros u H; simpl in H; [inversion H|].
  rewrite fmap_app in H. apply elem_of_app in H as [H|H].
  - destruct (emerged nl L t); [inversion H|]. simpl in H.
    apply list_elem_of_singleton in H as ->. constructor.
  - constructor. eauto.
Qed.

Lemma emerge_loop (nl : list nat) (s : PlantData) (n a : nat)
    (d : list (nat * series_entry)) (u : nat) (acc : list (nat * series_entry) * nat) :
  initialized nl s -> 1 <= a -> a + n <= length nl ->
  (forall k, k ∈ d.*1 -> k < a) ->
  foldM (emerge s) (d, u) (seq a n) = Ok acc ->
  acc.1 = d ++ entries nl (link_info s) (seq a n) u.
Proof.
  intros Hs. revert a d u; induction n as [|n IH]; intros a d u Ha Han Hd H.
  - injection H as <-. simpl. now rewrite app_nil_r.
  - simpl in H. apply bind_Ok in H as (acc1 & H1 & H).
    unfold emerge in H1. apply bind_Ok in H1 as (leaves & Hleaves & H1).
    apply getitem_Ok in Hleaves.
    rewrite (init_available _ _ Hs), list_lookup_fmap in Hleaves.
    destruct (nl !! a) as [na|] eqn:Hna; [|discriminate]. injection Hleaves as <-.
    apply bind_Ok in H1 as (news & Hnews & H1). apply new_leaves_of_Ok in Hnews.
    assert (Hem : news = emerged nl (link_info s) a).
    { destruct a as [|a']; [lia|]. simpl. unfold leaves_at. rewrite Hna. simpl.
      rewrite Hnews. now replace (S a' - 1) with a' by lia. }
    clear Hnews. cbn [entries seq]. fold (seq (S a) n). rewrite <- Hem.
    destruct news as [|x news].
    + injection H1 as <-. simpl. rewrite Nat.add_0_r.
      apply (IH (S a)); [lia | lia | | exact H].
      intros k Hk. apply Hd in Hk. lia.
    + rewrite fresh_ids_spec in H1. injection H1 as <-. simpl in H.
      rewrite dict_set_fresh in H by (intros Hin; apply Hd in Hin; lia).
      rewrite app_assoc. apply (IH (S a)); [lia | lia | | exact H].
      intros k Hk. rewrite fmap_app in Hk. apply elem_of_app in Hk as [Hk|Hk].
      * apply Hd in Hk. lia.
      * apply list_elem_of_singleton in Hk. simpl in Hk. lia.
Qed.

Lemma emerged_NoDup (nl : list nat) (L : list (list Z)) (t : nat) :
  NoDup (emerged nl L t).
Proof.
  destruct t; simpl; [apply NoDup_seq | apply NoDup_filter_bool, NoDup_seq].
Qed.

Lemma entries_fresh (nl : list nat) (L : list (list Z)) (ts : list nat) (u : nat) :
  Forall (fun te : nat * series_entry => leaf te.2 = [] /\ NoDup (new_leaf te.2))
         (entries nl L ts u).
Proof.
  revert u; induction ts as [|t ts IH]; intros u; simpl; [constructor|].
  apply Forall_app. split; [|apply IH].
  pose proof (emerged_NoDup nl L t) as Hnd.
  destruct (emerged nl L t); [constructor|].
  constructor; [|constructor]. simpl. auto.
Qed.

(** ** Filling in the trajectories *)

Lemma mapM_Ok_map {A B} (P : A -> Prop) (f : A -> result B) (g : A -> B)
    (l : list A) (bs : list B) :
  Forall P l -> (forall a b, P a -> f a = Ok b -> b = g a) ->
  mapM f l = Ok bs -> bs = map g l.
Proof.
  intros HP Hfg. revert bs; induction HP as [|a l Ha Hl IH]; intros bs H; simpl in H.
  - now injection H as <-.
  - apply bind_Ok in H as (b & Hb & H). apply bind_Ok in H as (bs' & Hbs & H).
    injection H as <-. simpl. f_equal; eauto.
Qed.

Lemma fill_loop (nl : list nat) (s : PlantData) (t : nat) (ls : list nat)
    (d lf : list (nat * list Z)) :
  links_in_range nl (link_info s) ->
  NoDup ls -> (forall l, l ∈ ls -> l ∉ d.*1) ->
  foldM (fun d l => tr ← trajectory s t l; Ok (dict_set l tr d)) d ls = Ok lf ->
  lf = d ++ map (fun j => (j, spec_trajectory (link_info s) (total_time s) t j)) ls.
Proof.
  intros HL. revert d; induction ls as [|l ls IH]; intros d Hnd Hd H; simpl in H.
  - injection H as <-. simpl. now rewrite app_nil_r.
  - apply NoDup_cons in Hnd as [Hl Hnd].
    apply bind_Ok in H as (d1 & H1 & H). apply bind_Ok in H1 as (tr & Htr & H1).
    injection H1 as <-. apply (trajectory_spec nl) in Htr as [_ ->]; [|exact HL].
    rewrite dict_set_fresh in H by (apply Hd; constructor).
    apply IH in H; [|exact Hnd|].
    + rewrite H, <- app_assoc. reflexivity.
    + intros l' Hl' Hin. rewrite fmap_app in Hin. apply elem_of_app in Hin as [Hin|Hin].
      * eapply Hd; [|exact Hin]. now constructor.
      * apply list_elem_of_singleton in Hin. simpl in Hin. congruence.
Qed.

Lemma fill_entry_spec (nl : list nat) (s : PlantData) (te te' : nat * series_entry) :
  links_in_range nl (link_info s) ->
  leaf te.2 = [] /\ NoDup (new_leaf te.2) ->
  fill_entry s te = Ok te' ->
  te' = filled (link_info s) (total_time s) te.
Proof.
  intros HL [Hleaf Hnd] H. unfold fill_entry in H.
  apply bind_Ok in H as (lf & Hlf & H). injection H as <-.
  apply (fill_loop nl) in Hlf; [|exact HL|exact Hnd|].
  - rewrite Hleaf in Hlf. simpl in Hlf. unfold filled. now rewrite Hlf.
  - intros l _. rewrite Hleaf. simpl. apply not_elem_of_nil.
Qed.

(** [get_series] computes the dictionary [spec_series] and changes nothing else. *)
Lemma get_series_series (nl : list nat) (s s' : PlantData) :
  initialized nl s -> links_in_range nl (link_info s) ->
  get_series s = Ok s' ->
  nl <> [] /\
  link_series s' = spec_series nl (link_info s) /\
  link_info s' = link_info s /\ total_time s' = total_time s /\
  num_leaves s' = num_leaves s /\ weights s' = weights s /\
  num_emergence s' = num_emergence s /\ masks s' = masks s.
Proof.
  intros Hs HL H. unfold get_series in H.
  apply bind_Ok in H as (leaves0 & Hleaves0 & H). apply getitem_Ok in Hleaves0.
  rewrite (init_available _ _ Hs), list_lookup_fmap in Hleaves0.
  destruct (nl !! 0) as [n0|] eqn:Hn0; [|discriminate]. injection Hleaves0 as <-.
  assert (Hne : nl <> []) by (intros ->; discriminate).
  apply bind_Ok in H as (acc & Hacc & H).
  apply bind_Ok in H as (series & Hseries & H). injection H as <-. simpl.
  split; [exact Hne|]. split; [|repeat split; reflexivity].
  rewrite (init_series _ _ Hs), (init_total_time _ _ Hs) in Hacc. simpl in Hacc.
  rewrite length_seq in Hacc.
  apply (emerge_loop nl) in Hacc; [|exact Hs|lia| |]; cycle 1.
  { destruct nl; [congruence|]. simpl. lia. }
  { intros k Hk. simpl in Hk. apply list_elem_of_singleton in Hk. lia. }
  rewrite Hacc in Hseries. unfold spec_series, first_entry, leaves_at. rewrite Hn0.
  change (default 0 (Some n0)) with n0.
  rewrite <- (init_total_time _ _ Hs) at 1.
  eapply mapM_Ok_map; [| |exact Hseries].
  - constructor; [|apply entries_fresh]. simpl. split; [reflexivity | apply NoDup_seq].
  - intros te te' Hte Hfill. simpl in Hte. exact (fill_entry_spec nl s te te' HL Hte Hfill).
Qed.

(** ** The dictionary read as identities and trajectories *)

Lemma dict_get_map {V} (f : nat -> V) (e : list nat) (j : nat) :
  j ∈ e -> dict_get j (map (fun j => (j, f j)) e) = Some (f j).
Proof.
  induction e as [|x e IH]; intros Hj; [inversion Hj|].
  simpl. destruct (Nat.eqb_spec j x) as [->|Hne]; [reflexivity|].
  apply IH. apply elem_of_cons in Hj as [?|?]; [congruence | assumption].
Qed.

Lemma dict_get_map_inv {V} (f : nat -> V) (e : list nat) (j : nat) (v : V) :
  dict_get j (map (fun j => (j, f j)) e) = Some v -> j ∈ e /\ v = f j.
Proof.
  induction e as [|x e IH]; [discriminate|].
  simpl. destruct (Nat.eqb_spec j x) as [->|Hne].
  - intros [= <-]. split; [constructor | reflexivity].
  - intros H. apply IH in H as [Hj ->]. split; [now constructor | reflexivity].
Qed.

Lemma zip_with_ext_elem {A B C} (f g : A -> B -> C) (l1 : list A) (l2 : list B) :
  (forall x y, y ∈ l2 -> f x y = g x y) -> zip_with f l1 l2 = zip_with g l1 l2.
Proof.
  revert l1; induction l2 as [|y l2 IH]; intros l1 H; destruct l1 as [|x l1];
    try reflexivity.
  simpl. f_equal; [apply H; constructor | apply IH].
  intros; apply H; now constructor.
Qed.

Lemma trajectories_of_filled (L : list (list Z)) (T : nat) (te : nat * series_entry) :
  trajectories_of (filled L T te).2
  = zip_with (fun id j => (id, spec_trajectory L T te.1 j)) (unique_id te.2) (new_leaf te.2).
Proof.
  unfold trajectories_of, filled. simpl. apply zip_with_ext_elem.
  intros id j Hj. now rewrite dict_get_map.
Qed.

Lemma trajectories_entries (nl : list nat) (L : list (list Z)) (T : nat)
    (ts : list nat) (u : nat) :
  trajectories (map (filled L T) (entries nl L ts u)) = build nl L T ts u.
Proof.
  unfold trajectories. revert u; induction ts as [|t ts IH]; intros u; [reflexivity|].
  simpl. rewrite map_app, flat_map_app, IH. f_equal.
  destruct (emerged nl L t) as [|x e] eqn:He; [reflexivity|].
  cbn [map flat_map]. rewrite app_nil_r. apply trajectories_of_filled.
Qed.

Lemma trajectories_spec_series (nl : list nat) (L : list (list Z)) :
  nl <> [] -> trajectories (spec_series nl L) = spec_trajectories nl L.
Proof.
  intros Hne. unfold spec_series, spec_trajectories.
  destruct nl as [|n0 nl']; [congruence|].
  cbn [length seq build map].
  replace (S (length nl') - 1) with (length nl') by lia.
  change (trajectories (?x :: ?l)) with (trajectories_of x.2 ++ trajectories l).
  rewrite trajectories_entries, trajectories_of_filled. simpl.
  now rewrite length_seq.
Qed.

(** Keys of [spec_series] and their entries. *)
Lemma spec_series_entry (nl : list nat) (L : list (list Z)) (t0 : nat) (e : series_entry) :
  (t0, e) ∈ spec_series nl L ->
  new_leaf e = emerged nl L t0 /\
  leaf e = map (fun j => (j, spec_trajectory L (length nl) t0 j)) (emerged nl L t0).
Proof.
  unfold spec_series. intros H.
  apply list_elem_of_fmap in H as ([t se] & Heq & H). unfold filled in Heq. simpl in Heq.
  injection Heq as -> ->. simpl.
  assert (Hnew : new_leaf se = emerged nl L t).
  { apply elem_of_cons in H as [H|H].
    - unfold first_entry in H. now injection H as -> ->.
    - clear -H. revert H. generalize (leaves_at nl 0). generalize (seq 1 (length nl - 1)).
      intros ts. induction ts as [|t' ts IH]; intros u H; simpl in H; [inversion H|].
      apply elem_of_app in H as [H|H]; [|eauto].
      destruct (emerged nl L t') eqn:He; [inversion H|].
      apply list_elem_of_singleton in H. injection H as -> ->. simpl. now rewrite He. }
  rewrite Hnew. auto.
Qed.

(** ** Every leaf has exactly one owner *)

Lemma not_in_false (j : nat) (link : list Z) :
  not_in j link = false <-> exists i, link !! i = Some (Z.of_nat j).
Proof.
  unfold not_in. rewrite negb_false_iff, existsb_exists. split.
  - intros (v & Hv & Heq). apply Z.eqb_eq in Heq as <-.
    apply list_elem_of_In, list_elem_of_lookup in Hv. exact Hv.
  - intros (i & Hi). exists (Z.of_nat j). split; [|apply Z.eqb_refl].
    apply list_elem_of_In. eapply list_elem_of_lookup_2; eauto.
Qed.

Lemma link_at_lookup (L : list (list Z)) (t i : nat) (v : Z) :
  link_at L t !! i = Some v -> exists link, L !! t = Some link /\ link !! i = Some v.
Proof.
  unfold link_at. destruct (L !! t) as [link|]; simpl; [eauto | discriminate].
Qed.

Lemma follow_step_inv (nl : list nat) (L : list (list Z)) (t0 j0 d j : nat) :
  links_in_range nl L ->
  follow L t0 (Z.of_nat j0) (S d) = Z.of_nat j ->
  exists p, follow L t0 (Z.of_nat j0) d = Z.of_nat p /\
            link_at L (t0 + d) !! p = Some (Z.of_nat j).
Proof.
  intros HL H. simpl in H.
  destruct (Z.eqb_spec (follow L t0 (Z.of_nat j0) d) (-1)) as [|Hne]; [lia|].
  destruct (follow_range nl L t0 (Z.of_nat j0) d HL) as [|Hpos]; [lia|congruence|].
  exists (Z.to_nat (follow L t0 (Z.of_nat j0) d)). split; [lia|].
  destruct (link_at L (t0 + d) !! Z.to_nat (follow L t0 (Z.of_nat j0) d)) as [v|];
    simpl in H; [congruence | lia].
Qed.

Lemma emerged_range (nl : list nat) (L : list (list Z)) (t j : nat) :
  j ∈ emerged nl L t -> j < leaves_at nl t.
Proof.
  destruct t; simpl.
  - rewrite elem_of_seq. lia.
  - rewrite elem_of_filter_bool, elem_of_seq. lia.
Qed.

Lemma owner_exists (nl : list nat) (L : list (list Z)) (t j : nat) :
  links_shaped nl L -> j < leaves_at nl t ->
  exists t0 j0, t0 <= t /\ j0 ∈ emerged nl L t0 /\
                follow L t0 (Z.of_nat j0) (t - t0) = Z.of_nat j.
Proof.
  intros [_ Hlen]. revert j; induction t as [|t IH]; intros j Hj.
  - exists 0, j. split; [lia|]. split; [|reflexivity].
    simpl. apply elem_of_seq. lia.
  - destruct (not_in j (link_at L t)) eqn:Hni.
    + exists (S t), j. split; [lia|]. split; [|now rewrite Nat.sub_diag].
      simpl. apply elem_of_filter_bool. split; [apply elem_of_seq; lia | exact Hni].
    + apply not_in_false in Hni as (i & Hi).
      destruct (link_at_lookup _ _ _ _ Hi) as (link & Hlink & Hi').
      assert (Hirange : i < leaves_at nl t).
      { rewrite <- (Hlen _ _ Hlink). eapply lookup_lt_Some; eauto. }
      destruct (IH i Hirange) as (t0 & j0 & Ht0 & Hj0 & Hfollow).
      exists t0, j0. split; [lia|]. split; [exact Hj0|].
      replace (S t - t0) with (S (t - t0)) by lia. simpl. rewrite Hfollow.
      destruct (Z.eqb_spec (Z.of_nat i) (-1)); [lia|].
      replace (t0 + (t - t0)) with t by lia. rewrite Nat2Z.id, Hi. reflexivity.
Qed.

Lemma emerged_no_incoming (nl : list nat) (L : list (list Z)) (t j p : nat) :
  j ∈ emerged nl L (S t) -> link_at L t !! p = Some (Z.of_nat j) -> False.
Proof.
  simpl. rewrite elem_of_filter_bool. intros [_ Hni] Hp.
  assert (Hfalse : not_in j (link_at L t) = false) by (apply not_in_false; eauto).
  congruence.
Qed.

Lemma owner_unique (nl : list nat) (L : list (list Z)) (t t0 j0 t1 j1 j : nat) :
  links_in_range nl L -> links_injective L ->
  t0 <= t -> t1 <= t ->
  j0 ∈ emerged nl L t0 -> j1 ∈ emerged nl L t1 ->
  follow L t0 (Z.of_nat j0) (t - t0) = Z.of_nat j ->
  follow L t1 (Z.of_nat j1) (t - t1) = Z.of_nat j ->
  t0 = t1 /\ j0 = j1.
Proof.
  intros HL Hinj. revert j; induction t as [|t IH]; intros j Ht0 Ht1 Hj0 Hj1 H0 H1.
  - assert (t0 = 0) as -> by lia. assert (t1 = 0) as -> by lia.
    simpl in H0, H1. split; [reflexivity | lia].
  - destruct (decide (t0 = S t)) as [->|Hn0], (decide (t1 = S t)) as [->|Hn1].
    + rewrite Nat.sub_diag in H0, H1. simpl in H0, H1. split; [reflexivity | lia].
    + exfalso. rewrite Nat.sub_diag in H0. simpl in H0. apply Nat2Z.inj in H0 as ->.
      replace (S t - t1) with (S (t - t1)) in H1 by lia.
      apply (follow_step_inv nl) in H1 as (p & _ & Hp); [|exact HL].
      replace (t1 + (t - t1)) with t in Hp by lia.
      exact (emerged_no_incoming _ _ _ _ _ Hj0 Hp).
    + exfalso. rewrite Nat.sub_diag in H1. simpl in H1. apply Nat2Z.inj in H1 as ->.
      replace (S t - t0) with (S (t - t0)) in H0 by lia.
      apply (follow_step_inv nl) in H0 as (p & _ & Hp); [|exact HL].
      replace (t0 + (t - t0)) with t in Hp by lia.
      exact (emerged_no_incoming _ _ _ _ _ Hj1 Hp).
    + replace (S t - t0) with (S (t - t0)) in H0 by lia.
      replace (S t - t1) with (S (t - t1)) in H1 by lia.
      apply (follow_step_inv nl) in H0 as (p0 & Hf0 & Hp0); [|exact HL].
      apply (follow_step_inv nl) in H1 as (p1 & Hf1 & Hp1); [|exact HL].
      replace (t0 + (t - t0)) with t in Hp0 by lia.
      replace (t1 + (t - t1)) with t in Hp1 by lia.
      destruct (link_at_lookup _ _ _ _ Hp0) as (link & Hlink & Hp0').
      destruct (link_at_lookup _ _ _ _ Hp1) as (link' & Hlink' & Hp1').
      assert (link' = link) as -> by congruence.
      assert (p0 = p1) as -> by (apply (Hinj _ _ _ _ _ Hlink Hp0' Hp1'); lia).
      apply (IH p1); auto; lia.
Qed.

Lemma filter_map_length {A B} (f : B -> bool) (g : A -> B) (l : list A) :
  length (List.filter (fun a => f (g a)) l) = length (List.filter f (map g l)).
Proof.
  induction l as [|a l IH]; [reflexivity|].
  simpl. destruct (f (g a)); simpl; congruence.
Qed.

Lemma count_unique {A} (P : A -> bool) (l : list A) (x : A) :
  NoDup l -> x ∈ l -> P x = true -> (forall y, y ∈ l -> P y = true -> y = x) ->
  length (List.filter P l) = 1.
Proof.
  induction 1 as [|a l Ha Hnd IH]; intros Hx HP Huniq; [inversion Hx|].
  assert (Hnone : forall l', (forall y, y ∈ l' -> P y = false) -> List.filter P l' = []).
  { induction l' as [|b l' IH']; intros Hl'; [reflexivity|].
    simpl. rewrite Hl' by constructor. apply IH'. intros; apply Hl'; now constructor. }
  simpl. apply elem_of_cons in Hx as [<-|Hx].
  - rewrite HP. simpl. rewrite Hnone; [reflexivity|].
    intros y Hy. destruct (P y) eqn:HPy; [|reflexivity].
    exfalso. apply Ha. rewrite <- (Huniq y); [exact Hy | now constructor | exact HPy].
  - destruct (P a) eqn:HPa.
    + exfalso. apply Ha. rewrite (Huniq a); [exact Hx | constructor | exact HPa].
    + apply IH; [exact Hx | exact HP |]. intros; apply Huniq; [now constructor | assumption].
Qed.

Lemma elem_of_identities (nl : list nat) (L : list (list Z)) (ts : list nat) (t0 j0 : nat) :
  (t0, j0) ∈ identities nl L ts <-> t0 ∈ ts /\ j0 ∈ emerged nl L t0.
Proof.
  unfold identities. rewrite list_elem_of_In, in_flat_map. split.
  - intros (t & Ht & H). apply list_elem_of_In in H.
    apply list_elem_of_fmap in H as (j & Heq & Hj).
    injection Heq as -> ->. split; [now apply list_elem_of_In | exact Hj].
  - intros [Ht Hj]. exists t0. split; [now apply list_elem_of_In|].
    apply list_elem_of_In, list_elem_of_fmap. eauto.
Qed.

Lemma identities_NoDup (nl : list nat) (L : list (list Z)) (ts : list nat) :
  NoDup ts -> NoDup (identities nl L ts).
Proof.
  induction 1 as [|t ts Ht Hnd IH]; [constructor|].
  unfold identities. simpl. apply NoDup_app. split; [|split].
  - apply NoDup_fmap_2; [intros ? ? [=]; assumption | apply emerged_NoDup].
  - intros [t0 j0] H1 H2. apply list_elem_of_fmap in H1 as (j & Heq & _).
    injection Heq as -> ->. apply elem_of_identities in H2 as [H2 _]. contradiction.
  - exact IH.
Qed.

Lemma build_fst (nl : list nat) (L : list (list Z)) (T : nat) (ts : list nat) (u : nat) :
  (build nl L T ts u).*1 = seq u (length (identities nl L ts)).
Proof.
  revert u; induction ts as [|t ts IH]; intros u; [reflexivity|].
  unfold identities. simpl. rewrite fmap_app, IH, length_app, length_map, seq_app.
  f_equal. clear IH. generalize (emerged nl L t) as e. intros e. revert u.
  induction e as [|j e IHe]; intros u; [reflexivity|]. simpl. f_equal. apply IHe.
Qed.

Lemma build_snd (nl : list nat) (L : list (list Z)) (T : nat) (ts : list nat) (u : nat) :
  (build nl L T ts u).*2
  = map (fun tj => spec_trajectory L T tj.1 tj.2) (identities nl L ts).
Proof.
  revert u; induction ts as [|t ts IH]; intros u; [reflexivity|].
  unfold identities. simpl. rewrite fmap_app, IH, map_app. f_equal.
  clear IH. generalize (emerged nl L t) as e. intros e. revert u.
  induction e as [|j e IHe]; intros u; [reflexivity|]. simpl. f_equal. apply IHe.
Qed.

Lemma occupies_spec (L : list (list Z)) (T t j t0 j0 : nat) :
  occupies t j (spec_trajectory L T t0 j0) = true <->
  t < T /\ t0 <= t /\ follow L t0 (Z.of_nat j0) (t - t0) = Z.of_nat j.
Proof.
  unfold occupies, spec_trajectory. rewrite list_lookup_fmap.
  destruct (Nat.lt_ge_cases t T) as [Hlt|Hge].
  - rewrite lookup_seq_lt by exact Hlt. simpl. unfold position.
    destruct (Nat.ltb_spec t t0) as [Hlow|Hhigh].
    + split; [intros H; apply Z.eqb_eq in H; lia | lia].
    + rewrite Z.eqb_eq. intuition lia.
  - rewrite lookup_seq_ge by exact Hge. simpl. split; [discriminate | lia].
Qed.

(** On a link table that is shaped, in range and injective, the builder of
    the design gives every leaf of every frame exactly one owner. *)
Lemma one_owner (nl : list nat) (L : list (list Z)) (t j : nat) :
  links_shaped nl L -> links_in_range nl L -> links_injective L ->
  t < length nl -> j < leaves_at nl t ->
  length (List.filter (fun p : nat * list Z => occupies t j p.2) (spec_trajectories nl L)) = 1.
Proof.
  intros Hshape Hrange Hinj Ht Hj. unfold spec_trajectories.
  rewrite (filter_map_length (occupies t j) snd).
  change (map snd ?l) with (l.*2). rewrite build_snd.
  rewrite <- (filter_map_length (occupies t j)).
  destruct (owner_exists nl L t j Hshape Hj) as (t0 & j0 & Ht0 & Hj0 & Hf).
  apply (count_unique _ _ (t0, j0)).
  - apply identities_NoDup, NoDup_seq.
  - apply elem_of_identities. split; [apply elem_of_seq; lia | exact Hj0].
  - apply occupies_spec. simpl. auto.
  - intros [t1 j1] Hin Hocc. apply elem_of_identities in Hin as [_ Hj1].
    apply occupies_spec in Hocc as (_ & Ht1 & Hf1). simpl in *.
    destruct (owner_unique nl L t t1 j1 t0 j0 j Hrange Hinj Ht1 Ht0 Hj1 Hj0 Hf1 Hf).
    congruence.
Qed.

Lemma spec_trajectories_ids_NoDup (nl : list nat) (L : list (list Z)) :
  NoDup (spec_trajectories nl L).*1.
Proof. unfold spec_trajectories. rewrite build_fst. apply NoDup_seq. Qed.

(** ** The bookkeeping methods and the linking loop *)

Lemma overlaps_shaped (m0 m1 : ndarray3) (W : matrix) :
  _compute_overlaps_masks m0 m1 = Ok W -> shaped (instances m0) (instances m1) W.
Proof.
  unfold _compute_overlaps_masks, shaped, full. intros H.
  destruct (decide (instances m0 = 0 \/ instances m1 = 0)).
  - injection H as <-. rewrite length_replicate. split; [reflexivity|].
    apply Forall_replicate. apply length_replicate.
  - destruct (decide (npixels m1 = npixels m0)); [|discriminate].
    injection H as <-. rewrite length_map, length_seq. split; [reflexivity|].
    apply Forall_forall. intros row Hrow.
    apply list_elem_of_fmap in Hrow as (i & -> & _). now rewrite length_map, length_seq.
Qed.

Lemma foldM_seq_inv {A} (f : A -> nat -> result A) (Inv : nat -> A -> Prop)
    (n a : nat) (s s' : A) :
  (forall k x x', a <= k < a + n -> Inv k x -> f x k = Ok x' -> Inv (S k) x') ->
  Inv a s -> foldM f s (seq a n) = Ok s' -> Inv (a + n) s'.
Proof.
  revert a s; induction n as [|n IH]; intros a s Hstep Ha H.
  - injection H as <-. now rewrite Nat.add_0_r.
  - simpl in H. apply bind_Ok in H as (s1 & H1 & H).
    replace (a + S n) with (S a + n) by lia. apply (IH (S a) s1); [| |exact H].
    + intros k x x' Hk. apply Hstep. lia.
    + apply (Hstep a s s1); [lia | exact Ha | exact H1].
Qed.

Lemma mapM_seq_lookup {B} (f : nat -> result B) (a n : nat) (bs : list B) (i : nat) (b : B) :
  mapM f (seq a n) = Ok bs -> bs !! i = Some b -> f (a + i) = Ok b.
Proof.
  intros H Hb. pose proof (mapM_Ok_length _ _ _ H) as Hlen. rewrite length_seq in Hlen.
  assert (Hi : i < n) by (rewrite <- Hlen; eapply lookup_lt_Some; eauto).
  destruct (mapM_Ok_lookup f _ _ i (a + i) H) as (b' & Hb' & Hf).
  - now apply lookup_seq_lt.
  - congruence.
Qed.

Lemma diff_length (l : list nat) : length (diff l) = length l - 1.
Proof.
  induction l as [|a [|b l] IH]; [reflexivity | reflexivity |].
  change (diff (a :: b :: l)) with ((Z.of_nat b - Z.of_nat a)%Z :: diff (b :: l)).
  cbn [length] in *. lia.
Qed.

Lemma prepare_spec (files : list (String.string * ndarray3)) (s : PlantData) :
  prepare files = Ok s ->
  initialized (map instances files.*2) s /\
  masks s = files.*2 /\
  length (link_info s) = length files - 1 /\
  (forall t w, weights s !! t = Some w ->
     w = full (leaves_at (map instances files.*2) t)
              (leaves_at (map instances files.*2) (t + 1)) NInf) /\
  length (weights s) = length files - 1 /\
  num_emergence s
  = take 1 (replicate (length files) (Z.of_nat (leaves_at (map instances files.*2) 0)))
    ++ diff (map instances files.*2).
Proof.
  intros H. unfold prepare in H.
  apply bind_Ok in H as (s1 & H1 & H). unfold getinitleaf in H1.
  apply bind_Ok in H1 as (m & Hm & H1). injection H1 as <-.
  apply bind_Ok in H as (s2 & H2 & H). unfold getmaxleaf in H2. simpl in H2.
  destruct (decide (map instances files.*2 = [])) as [|Hne]; [discriminate|].
  injection H2 as <-.
  apply bind_Ok in H as (s3 & H3 & H). injection H3 as <-. simpl in H.
  apply bind_Ok in H as (s4 & H4 & H). unfold getnumemergence in H4. simpl in H4.
  apply bind_Ok in H4 as (e & He & H4). injection H4 as <-.
  unfold initialize_linking in H. simpl in H.
  apply bind_Ok in H as (li & Hli & H).
  apply bind_Ok in H as (ws & Hws & H).
  apply bind_Ok in H as (al & Hal & H). injection H as <-. simpl.
  assert (Hlen1 : length files.*1 = length files) by apply length_fmap.
  assert (Hlennl : length (map instances files.*2) = length files).
  { now rewrite length_map, length_fmap. }
  rewrite Hlen1 in *. set (nl := map instances files.*2) in *.
  apply getitem_Ok in Hm. simpl in Hm.
  assert (Hn0 : leaves_at nl 0 = instances m).
  { unfold leaves_at, nl. now rewrite list_lookup_fmap, Hm. }
  split; [|split; [reflexivity|]]; [|split; [|split; [|split]]].
  - constructor; simpl; [congruence | reflexivity | | reflexivity].
    apply (list_eq_same_length _ _ (length files)).
    + now rewrite length_map.
    + rewrite (mapM_Ok_length _ _ _ Hal). apply length_seq.
    + intros i x y Hi Hx Hy. apply (mapM_seq_lookup _ _ _ _ _ _ Hal) in Hx.
      apply bind_Ok in Hx as (n & Hn & Hx). apply getitem_Ok in Hn. injection Hx as <-.
      simpl in Hn. rewrite list_lookup_fmap, Hn in Hy. simpl in Hy. congruence.
  - rewrite (mapM_Ok_length _ _ _ Hli). apply length_seq.
  - intros t w Hw. apply (mapM_seq_lookup _ _ _ _ _ _ Hws) in Hw.
    apply bind_Ok in Hw as (n & Hn & Hw). apply getitem_Ok in Hn.
    apply bind_Ok in Hw as (n' & Hn' & Hw). apply getitem_Ok in Hn'.
    injection Hw as <-. unfold leaves_at. simpl in Hn, Hn'. now rewrite Hn, Hn'.
  - rewrite (mapM_Ok_length _ _ _ Hws). apply length_seq.
  - unfold set_tail in He. rewrite Hn0.
    destruct (decide (length (diff nl)
                      = length (drop 1 (replicate (length files) (Z.of_nat (instances m))))))
      as [|Hbad]; [now injection He as <-|].
    exfalso. apply Hbad. rewrite length_drop, length_replicate, diff_length. lia.
Qed.


Section LinkingLoop.

Variable lsa : matrix -> result (list nat * list nat).
Hypothesis lsa_ok : lsa_valid lsa.

Lemma linking_at_spec (thr : npfloat) (nl : list nat) (t0 : nat) (s s' : PlantData) :
  initialized nl s -> nl = map instances (masks s) ->
  linking_at lsa thr t0 s = Ok s' ->
  initialized nl s' /\ masks s' = masks s /\ weights s' = weights s /\
  num_emergence s' = num_emergence s /\
  exists link, wf_link nl t0 link /\ t0 < length (link_info s) /\
               link_info s' = <[t0:=link]> (link_info s).
Proof.
  intros Hs Hnl H. unfold linking_at in H.
  apply bind_Ok in H as (m0 & Hm0 & H). apply getitem_Ok in Hm0.
  apply bind_Ok in H as (m1 & Hm1 & H). apply getitem_Ok in Hm1.
  apply bind_Ok in H as (leaves0 & Hl0 & H). apply getitem_Ok in Hl0.
  apply bind_Ok in H as (leaves1 & Hl1 & H). apply getitem_Ok in Hl1.
  apply bind_Ok in H as (W & HW & H). apply overlaps_shaped in HW.
  apply bind_Ok in H as (link & Hlink & H).
  apply bind_Ok in H as (li & Hli & H). apply setitem_Ok in Hli as [Hlt ->].
  injection H as <-. simpl.
  split; [destruct Hs; constructor; assumption|]. do 3 (split; [reflexivity|]).
  exists link. split; [|split; [exact Hlt | reflexivity]].
  rewrite (init_available _ _ Hs), list_lookup_fmap in Hl0, Hl1.
  assert (Hn0 : nl !! t0 = Some (instances m0)) by (rewrite Hnl, list_lookup_fmap, Hm0; reflexivity).
  assert (Hn1 : nl !! (t0 + 1) = Some (instances m1)) by (rewrite Hnl, list_lookup_fmap, Hm1; reflexivity).
  rewrite Hn0 in Hl0. rewrite Hn1 in Hl1. simpl in Hl0, Hl1.
  injection Hl0 as <-. injection Hl1 as <-. rewrite !length_seq in Hlink.
  unfold wf_link, leaves_at. rewrite Hn0, Hn1. simpl.
  exact (link_weight_wf lsa lsa_ok thr _ _ W link HW Hlink).
Qed.

Lemma link_frames_spec (thr : npfloat) (nl : list nat) (s s' : PlantData) :
  initialized nl s -> nl = map instances (masks s) ->
  length (link_info s) = length nl - 1 ->
  link_frames_at lsa thr s = Ok s' ->
  initialized nl s' /\ masks s' = masks s /\ weights s' = weights s /\
  num_emergence s' = num_emergence s /\
  links_shaped nl (link_info s') /\ links_in_range nl (link_info s') /\
  links_injective (link_info s').
Proof.
  intros Hs Hnl Hlen H. unfold link_frames_at in H.
  rewrite (init_total_time _ _ Hs) in H.
  pose (Inv := fun (k : nat) (x : PlantData) =>
    initialized nl x /\ masks x = masks s /\ weights x = weights s /\
    num_emergence x = num_emergence s /\ length (link_info x) = length nl - 1 /\
    forall t link, t < k -> link_info x !! t = Some link -> wf_link nl t link).
  assert (Hfinal : Inv (0 + (length nl - 1)) s').
  { apply (foldM_seq_inv (fun x t0 => linking_at lsa thr t0 x) Inv _ _ s s'); [| |exact H].
    - intros k x x' Hk (Hx & Hmx & Hwx & Hex & Hlx & Hwf) Hstep.
      apply (linking_at_spec thr nl) in Hstep; [|exact Hx|congruence].
      destruct Hstep as (Hx' & Hm' & Hw' & He' & link & Hlink & Hlt & Hli).
      split; [exact Hx'|]. do 3 (split; [congruence|]). split.
      + rewrite Hli, length_insert. exact Hlx.
      + intros t link0 Ht Hlk. rewrite Hli in Hlk. destruct (decide (t = k)) as [->|Hne].
        * rewrite list_lookup_insert_eq in Hlk by exact Hlt. now injection Hlk as <-.
        * rewrite list_lookup_insert_ne in Hlk by congruence.
          apply (Hwf t link0); [lia | exact Hlk].
    - split; [exact Hs|]. do 3 (split; [reflexivity|]). split; [exact Hlen|].
      intros; lia. }
  destruct Hfinal as (Hs' & Hm' & Hw' & He' & Hl' & Hwf). simpl in Hwf.
  do 4 (split; [assumption|]).
  assert (Hall : forall t link, link_info s' !! t = Some link -> wf_link nl t link).
  { intros t link Ht. apply Hwf; [|exact Ht]. rewrite <- Hl'. eapply lookup_lt_Some; eauto. }
  split; [|split].
  - split; [exact Hl'|]. intros t link Ht. apply (Hall t link Ht).
  - intros t link i v Ht Hi. destruct (Hall t link Ht) as (_ & Hr & _). eauto.
  - intros t link i i' v Ht Hi Hi' Hv. destruct (Hall t link Ht) as (_ & _ & Hinj). eauto.
Qed.

End LinkingLoop.

(** ** [get_series] returns on a well-formed link table *)

Lemma getitem_Some {A} (l : list A) (i : nat) (a : A) :
  l !! i = Some a -> getitem l i = Ok a.
Proof. apply getitem_Ok. Qed.

Lemma setitem_lt {A} (l : list A) (i : nat) (x : A) :
  i < length l -> setitem l i x = Ok (<[i:=x]> l).
Proof. intros H. now apply setitem_Ok. Qed.

Lemma foldM_total {A B} (P : A -> Prop) (f : A -> B -> result A) (l : list B) (a : A) :
  (forall x b, P x -> b ∈ l -> exists x', f x b = Ok x' /\ P x') ->
  P a -> exists a', foldM f a l = Ok a' /\ P a'.
Proof.
  revert a; induction l as [|b l IH]; intros a Hf Ha; simpl; [eauto|].
  destruct (Hf a b Ha) as (a1 & -> & Ha1); [constructor|]. simpl.
  apply IH; [|exact Ha1]. intros x b' Hx Hb'. apply Hf; [exact Hx | now constructor].
Qed.

Lemma mapM_total {A B} (f : A -> result B) (l : list A) :
  Forall (fun a => exists b, f a = Ok b) l -> exists bs, mapM f l = Ok bs.
Proof.
  induction 1 as [|a l (b & Hb) _ (bs & Hbs)]; simpl; [eauto|].
  rewrite Hb. simpl. rewrite Hbs. simpl. eauto.
Qed.

Lemma new_leaves_of_total (L : list (list Z)) (t : nat) (leaves : list nat) :
  t - 1 < length L -> exists news, new_leaves_of L t leaves = Ok news.
Proof.
  intros Ht. destruct (lookup_lt_is_Some_2 L (t - 1) Ht) as [link Hlink].
  induction leaves as [|i leaves (news & IH)]; simpl; [eauto|].
  rewrite (getitem_Some _ _ _ Hlink). simpl. rewrite IH. simpl. eauto.
Qed.

Lemma emerge_total (nl : list nat) (s : PlantData)
    (acc : list (nat * series_entry) * nat) (t : nat) :
  initialized nl s -> links_shaped nl (link_info s) -> 1 <= t < length nl ->
  exists acc', emerge s acc t = Ok acc'.
Proof.
  intros Hs [Hlen _] Ht. unfold emerge.
  destruct (lookup_lt_is_Some_2 nl t) as [n Hn]; [lia|].
  rewrite (getitem_Some _ t (seq 0 n))
    by (rewrite (init_available _ _ Hs), list_lookup_fmap, Hn; reflexivity).
  simpl.
  destruct (new_leaves_of_total (link_info s) t (seq 0 n)) as [news ->]; [lia|].
  simpl. destruct news; eauto.
Qed.

Section ChainTotal.

Variables (nl : list nat) (L : list (list Z)).
Hypothesis Hshape : links_shaped nl L.
Hypothesis Hrange : links_in_range nl L.

Lemma chain_total (n m : nat) (tr : list Z) :
  m + n = length nl -> 1 <= m -> length tr = length nl ->
  (exists v, tr !! (m - 1) = Some v /\
             (v = (-1)%Z \/ (0 <= v < Z.of_nat (leaves_at nl (m - 1)))%Z)) ->
  exists tr', chain L tr (seq m n) = Ok tr'.
Proof.
  destruct Hshape as [HlenL Hlink].
  revert m tr; induction n as [|n IH]; intros m tr Hmn Hm Hlen (v & Hv & Hvr);
    cbn [seq chain]; [eauto|].
  rewrite (getitem_Some _ _ _ Hv). cbn [mbind result_bind].
  destruct (Z.ltb_spec v 0) as [|Hpos]; [eauto|].
  destruct (lookup_lt_is_Some_2 L (m - 1)) as [link Hl]; [lia|].
  rewrite (getitem_Some _ _ _ Hl). cbn [mbind result_bind].
  destruct (lookup_lt_is_Some_2 link (Z.to_nat v)) as [w Hw].
  { rewrite (Hlink _ _ Hl). lia. }
  rewrite (getitem_Some _ _ _ Hw). cbn [mbind result_bind].
  assert (Hlt : m < length tr) by lia.
  rewrite (setitem_lt _ _ _ Hlt). cbn [mbind result_bind].
  apply IH; [lia | lia | now rewrite length_insert |].
  exists w. replace (S m - 1) with m by lia.
  split; [now apply list_lookup_insert_eq|].
  pose proof (Hrange _ _ _ _ Hl Hw) as Hw'.
  replace (m - 1 + 1) with m in Hw' by lia. exact Hw'.
Qed.

Lemma trajectory_total (s : PlantData) (t0 lf : nat) :
  total_time s = length nl -> link_info s = L ->
  t0 < length nl -> lf < leaves_at nl t0 ->
  exists tr, trajectory s t0 lf = Ok tr.
Proof.
  intros HT HL Ht0 Hlf. unfold trajectory. rewrite HT, HL.
  destruct Hshape as [HlenL Hlink].
  rewrite setitem_lt by (rewrite length_replicate; exact Ht0). cbn [mbind result_bind].
  destruct (Nat.ltb_spec t0 (length nl - 1)) as [Hlt|]; [|eauto].
  destruct (lookup_lt_is_Some_2 L t0) as [link Hl]; [lia|].
  rewrite (getitem_Some _ _ _ Hl). cbn [mbind result_bind].
  destruct (lookup_lt_is_Some_2 link lf) as [v Hv].
  { now rewrite (Hlink _ _ Hl). }
  rewrite (getitem_Some _ _ _ Hv). cbn [mbind result_bind].
  rewrite setitem_lt by (rewrite length_insert, length_replicate; lia).
  cbn [mbind result_bind].
  apply chain_total; [lia | lia | now rewrite !length_insert, length_replicate |].
  exists v. replace (t0 + 2 - 1) with (t0 + 1) by lia.
  split; [|exact (Hrange _ _ _ _ Hl Hv)].
  apply list_lookup_insert_eq. rewrite length_insert, length_replicate. lia.
Qed.

End ChainTotal.

Lemma entries_elem (nl : list nat) (L : list (list Z)) (ts : list nat) (u t : nat)
    (e : series_entry) :
  (t, e) ∈ entries nl L ts u -> t ∈ ts /\ new_leaf e = emerged nl L t.
Proof.
  revert u; induction ts as [|t' ts IH]; intros u H; simpl in H; [inversion H|].
  apply elem_of_app in H as [H|H].
  - destruct (emerged nl L t') eqn:He; [inversion H|].
    apply list_elem_of_singleton in H. injection H as -> ->.
    split; [constructor | simpl; now rewrite He].
  - apply IH in H as [Ht He]. split; [now constructor | exact He].
Qed.

Lemma get_series_total (nl : list nat) (s : PlantData) :
  initialized nl s -> nl <> [] ->
  links_shaped nl (link_info s) -> links_in_range nl (link_info s) ->
  exists s', get_series s = Ok s'.
Proof.
  intros Hs Hne Hshape Hrange. unfold get_series.
  destruct nl as [|n0 nl'] eqn:Hnl; [congruence|]. rewrite <- Hnl in *.
  assert (Hn0 : nl !! 0 = Some n0) by now rewrite Hnl.
  rewrite (getitem_Some _ 0 (seq 0 n0))
    by (rewrite (init_available _ _ Hs), list_lookup_fmap, Hn0; reflexivity).
  cbn [mbind result_bind].
  rewrite (init_series _ _ Hs), (init_total_time _ _ Hs). simpl dict_set.
  destruct (foldM_total (fun _ => True) (emerge s) (seq 1 (length nl - 1))
              ([(0, {| new_leaf := seq 0 n0; unique_id := seq 0 n0; leaf := [] |})],
               length (seq 0 n0))) as (acc & Hacc & _); [|exact I|].
  { intros x t _ Ht. apply elem_of_seq in Ht.
    destruct (emerge_total nl s x t Hs Hshape) as [x' Hx']; [lia|]. eauto. }
  rewrite Hacc. simpl.
  pose proof Hacc as Hacc'. rewrite length_seq in Hacc'.
  apply (emerge_loop nl) in Hacc'; [|exact Hs|lia| |]; cycle 1.
  { rewrite Hnl. simpl. lia. }
  { intros k Hk. simpl in Hk. apply list_elem_of_singleton in Hk. lia. }
  destruct (mapM_total (fill_entry s) acc.1) as [series ->]; [|simpl; eauto].
  rewrite Hacc'. apply Forall_forall. intros [t e] Hte.
  assert (Ht : t < length nl /\ forall l, l ∈ new_leaf e -> l < leaves_at nl t).
  { apply elem_of_app in Hte as [Hte|Hte].
    - apply list_elem_of_singleton in Hte. injection Hte as -> ->. simpl.
      split; [rewrite Hnl; simpl; lia|]. intros l Hl. apply elem_of_seq in Hl.
      unfold leaves_at. rewrite Hn0. simpl. lia.
    - apply entries_elem in Hte as [Ht He]. apply elem_of_seq in Ht.
      split; [lia|]. intros l Hl. rewrite He in Hl. now apply emerged_range in Hl. }
  destruct Ht as [Ht Hl]. unfold fill_entry. simpl.
  destruct (foldM_total (fun _ => True)
              (fun d l => tr ← trajectory s t l; Ok (dict_set l tr d))
              (new_leaf e) (leaf e)) as (lf & -> & _); [|exact I|simpl; eauto].
  intros d l _ Hin.
  destruct (trajectory_total nl (link_info s) Hshape Hrange s t l) as [tr ->];
    [apply Hs | reflexivity | exact Ht | apply Hl, Hin |].
  simpl. eauto.
Qed.

Lemma links_in_rangeb_sound (nl : list nat) (L : list (list Z)) :
  links_in_rangeb nl L = true -> links_in_range nl L.
Proof.
  unfold links_in_rangeb. rewrite forallb_forall. intros H t link i v Ht Hi.
  specialize (H (t, link)). rewrite forallb_forall in H. simpl in H.
  assert (Hv : ((v =? -1) || (0 <=? v) && (v <? Z.of_nat (leaves_at nl (t + 1))))%Z = true).
  { apply H.
    - apply list_elem_of_In, list_elem_of_lookup. exists t.
      now rewrite list_lookup_imap, Ht.
    - apply list_elem_of_In. eapply list_elem_of_lookup_2; eauto. }
  apply orb_true_iff in Hv as [Hv|Hv]; [left; lia | right; lia].
Qed.

(** ** The trajectory builder *)

(** C5: [get_series] is the trajectory builder of the design.  Identities
    are handed out frame by frame from a running counter, at frame 0 to
    every leaf index and afterwards to the leaf indices that no entry of the
    previous link vector equals, in ascending order; the trajectory of an
    identity is the sentinel before its frame of emergence, its leaf index
    there, and from then on the link of the previous value until the
    sentinel is met, which then stays. *)
Theorem trajectory_builder (nl : list nat) (s : PlantData) :
  initialized nl s -> links_in_range nl (link_info s) ->
  (forall s', get_series s = Ok s' ->
     trajectories (link_series s') = spec_trajectories nl (link_info s) /\
     forall t e, (t, e) ∈ link_series s' -> new_leaf e = emerged nl (link_info s) t) /\
  (nl <> [] -> links_shaped nl (link_info s) -> exists s', get_series s = Ok s').
Proof.
  intros Hs HL. split.
  - intros s' H. destruct (get_series_series nl s s' Hs HL H) as (Hne & Hseries & _).
    rewrite Hseries. split; [now apply trajectories_spec_series|].
    intros t e He. now apply spec_series_entry in He.
  - intros Hne Hshape. now apply (get_series_total nl).
Qed.

(** From its frame of emergence on, once a trajectory of [get_series] holds
    the sentinel it holds it at every later frame. *)
Lemma get_series_sentinel_persists (nl : list nat) (s s' : PlantData)
    (t0 : nat) (e : series_entry) (j : nat) (tr : list Z) (t t' : nat) :
  initialized nl s -> links_in_range nl (link_info s) ->
  get_series s = Ok s' ->
  (t0, e) ∈ link_series s' -> dict_get j (leaf e) = Some tr ->
  t0 <= t -> t < t' -> t' < total_time s ->
  tr !! t = Some (-1)%Z -> tr !! t' = Some (-1)%Z.
Proof.
  intros Hs HL H He Htr Ht0 Htt' HT Ht.
  destruct (get_series_series nl s s' Hs HL H) as (_ & Hseries & _).
  rewrite Hseries in He. apply spec_series_entry in He as [_ Hleaf].
  rewrite Hleaf in Htr. apply dict_get_map_inv in Htr as [_ ->].
  rewrite (init_total_time _ _ Hs) in HT.
  unfold spec_trajectory in *. rewrite list_lookup_fmap in Ht |- *.
  rewrite lookup_seq_lt in Ht |- * by lia. simpl in *. unfold position in *.
  destruct (Nat.ltb_spec t t0) as [|_]; [lia|].
  destruct (Nat.ltb_spec t' t0) as [|_]; [lia|].
  injection Ht as Ht. f_equal.
  apply (follow_sentinel_stays _ _ _ (t - t0)); [exact Ht | lia].
Qed.

Section EndToEnd.

Variable lsa : matrix -> result (list nat * list nat).
Hypothesis lsa_ok : lsa_valid lsa.

(** C1: after linking every consecutive pair of frames and building the
    trajectories, the identities are pairwise distinct and every leaf index
    of every frame is occupied, at that frame, by the trajectory of exactly
    one identity. *)
Theorem one_identity_per_leaf (thr : npfloat) (files : list (String.string * ndarray3))
    (s' : PlantData) (t : nat) (m : ndarray3) (j : nat) :
  track_at lsa thr files = Ok s' ->
  files.*2 !! t = Some m -> j < instances m ->
  NoDup (trajectories (link_series s')).*1 /\
  length (List.filter (fun p : nat * list Z => occupies t j p.2)
                      (trajectories (link_series s'))) = 1.
Proof.
  intros H Hm Hj. unfold track_at in H.
  apply bind_Ok in H as (s1 & H1 & H). apply bind_Ok in H as (s2 & H2 & H).
  destruct (prepare_spec files s1 H1) as (Hs1 & Hm1 & Hl1 & _).
  set (nl := map instances files.*2) in *.
  assert (Hlen : length nl = length files) by (unfold nl; now rewrite length_map, length_fmap).
  apply (link_frames_spec lsa lsa_ok thr nl) in H2;
    [|exact Hs1|unfold nl; now rewrite Hm1|lia].
  destruct H2 as (Hs2 & _ & _ & _ & Hshape & Hrange & Hinj).
  destruct (get_series_series nl s2 s' Hs2 Hrange H) as (Hne & Hseries & _).
  rewrite Hseries, (trajectories_spec_series nl _ Hne).
  split; [apply spec_trajectories_ids_NoDup|].
  apply one_owner; try assumption.
  - rewrite Hlen, <- (length_fmap snd files). eapply lookup_lt_Some; eauto.
  - unfold leaves_at, nl. now rewrite list_lookup_fmap, Hm.
Qed.

(** C7, amended: in the trajectories the pipeline builds, from the frame of
    emergence of the identity on, once a trajectory holds the sentinel it
    holds it at every later frame. *)
Theorem sentinel_persists_after_emergence (thr : npfloat)
    (files : list (String.string * ndarray3)) (s' : PlantData)
    (t0 : nat) (e : series_entry) (j : nat) (tr : list Z) (t t' : nat) :
  track_at lsa thr files = Ok s' ->
  (t0, e) ∈ link_series s' -> dict_get j (leaf e) = Some tr ->
  t0 <= t -> t < t' -> t' < total_time s' ->
  tr !! t = Some (-1)%Z -> tr !! t' = Some (-1)%Z.
Proof.
  intros H He Htr Ht0 Htt' HT Ht. unfold track_at in H.
  apply bind_Ok in H as (s1 & H1 & H). apply bind_Ok in H as (s2 & H2 & H).
  destruct (prepare_spec files s1 H1) as (Hs1 & Hm1 & Hl1 & _).
  set (nl := map instances files.*2) in *.
  assert (Hlen : length nl = length files) by (unfold nl; now rewrite length_map, length_fmap).
  apply (link_frames_spec lsa lsa_ok thr nl) in H2;
    [|exact Hs1|unfold nl; now rewrite Hm1|lia].
  destruct H2 as (Hs2 & _ & _ & _ & _ & Hrange & _).
  destruct (get_series_series nl s2 s' Hs2 Hrange H) as (_ & _ & _ & HT' & _).
  apply (get_series_sentinel_persists nl s2 s' t0 e j tr t t'); try assumption.
  congruence.
Qed.

End EndToEnd.

Lemma initialized_linked (nl : list nat) (L : list (list Z)) : initialized nl (linked nl L).
Proof. constructor; reflexivity. Qed.

Lemma trajectory_builder_witness :
  (exists s', get_series (linked [1; 2; 1] [[0]; [-1; 0]]%Z) = Ok s') /\
  (forall s', get_series (linked [1; 2; 1] [[0]; [-1; 0]]%Z) = Ok s' ->
     trajectories (link_series s') = [(0, [0; 0; -1]%Z); (1, [-1; 1; 0]%Z)]).
Proof.
  destruct (trajectory_builder [1; 2; 1] (linked [1; 2; 1] [[0]; [-1; 0]]%Z))
    as [Hspec Htotal].
  - apply initialized_linked.
  - apply links_in_rangeb_sound. reflexivity.
  - split.
    + apply Htotal; [discriminate|]. split; [reflexivity|].
      intros [|[|t]] link Ht; simpl in Ht; try discriminate;
        injection Ht as <-; reflexivity.
    + intros s' H. rewrite (proj1 (Hspec s' H)). reflexivity.
Defined.

Lemma sentinel_persists_after_emergence_witness :
  exists s' e tr, track_at brute_force threshold frames_ABB = Ok s' /\
    (0, e) ∈ link_series s' /\ dict_get 0 (leaf e) = Some tr /\
    tr !! 2 = Some (-1)%Z /\ tr !! 3 = Some (-1)%Z.
Proof.
  do 3 eexists. split; [vm_compute; reflexivity|]. split; [constructor|].
  split; [reflexivity|]. split; [reflexivity|].
  eapply (sentinel_persists_after_emergence brute_force brute_force_valid threshold
            frames_ABB _ 0 _ 0 _ 2 3).
  - vm_compute. reflexivity.
  - constructor.
  - reflexivity.
  - lia.
  - lia.
  - simpl. lia.
  - reflexivity.
Defined.

(** C7 as stated fails: the trajectory of leaf B of [frames_AB], which
    emerges at frame 1, holds the sentinel at frame 0 and a leaf index at
    the later frames. *)
Lemma sentinel_before_emergence :
  exists s', track_at brute_force threshold frames_AB = Ok s' /\
    ~ (forall id tr t t', (id, tr) ∈ trajectories (link_series s') ->
         t < t' -> t' < total_time s' ->
         tr !! t = Some (-1)%Z -> tr !! t' = Some (-1)%Z).
Proof.
  eexists. split; [vm_compute; reflexivity|].
  intros H. specialize (H 1 [-1; 1; 0]%Z 0 1).
  discriminate H; [| | |reflexivity].
  - simpl. apply list_elem_of_further, list_elem_of_here.
  - lia.
  - simpl. lia.
Qed.

Lemma one_identity_per_leaf_witness :
  exists s', track_at brute_force threshold frames_AB = Ok s' /\
    length (List.filter (fun p : nat * list Z => occupies 1 1 p.2)
                        (trajectories (link_series s'))) = 1.
Proof.
  eexists. split; [vm_compute; reflexivity|].
  eapply (one_identity_per_leaf brute_force brute_force_valid threshold frames_AB _ 1 _ 1).
  - vm_compute. reflexivity.
  - reflexivity.
  - simpl. lia.
Defined.

(** ** What [linking] leaves untouched *)

Lemma linking_at_weights (lsa : matrix -> result (list nat * list nat)) (thr : npfloat)
    (t0 : nat) (s s' : PlantData) :
  linking_at lsa thr t0 s = Ok s' ->
  weights s' = weights s /\ num_emergence s' = num_emergence s /\
  num_leaves s' = num_leaves s.
Proof.
  unfold linking_at. intros H. bind_inv H. injection H as <-. auto.
Qed.

Lemma link_frames_weights (lsa : matrix -> result (list nat * list nat)) (thr : npfloat)
    (s s' : PlantData) :
  link_frames_at lsa thr s = Ok s' ->
  weights s' = weights s /\ num_emergence s' = num_emergence s /\
  num_leaves s' = num_leaves s.
Proof.
  unfold link_frames_at. intros H.
  apply (foldM_seq_inv (fun x t0 => linking_at lsa thr t0 x)
           (fun _ x => weights x = weights s /\ num_emergence x = num_emergence s /\
                       num_leaves x = num_leaves s) (total_time s - 1) 0 s s');
    [| |exact H].
  - intros k x x' _ (Hw & He & Hn) Hstep.
    apply linking_at_weights in Hstep as (Hw' & He' & Hn'). repeat split; congruence.
  - auto.
Qed.

Lemma get_series_fields (s s' : PlantData) :
  get_series s = Ok s' ->
  weights s' = weights s /\ num_emergence s' = num_emergence s /\
  num_leaves s' = num_leaves s /\ link_info s' = link_info s /\
  masks s' = masks s /\ total_time s' = total_time s.
Proof.
  unfold get_series. intros H. bind_inv H. injection H as <-. simpl. auto 10.
Qed.

(** The stored similarity matrices are never written: after the linking
    loop they still hold the [-inf] fill of [initialize_linking]. *)
Lemma weights_stay_neg_inf (lsa : matrix -> result (list nat * list nat)) (thr : npfloat)
    (files : list (String.string * ndarray3)) (s' : PlantData) (t : nat) (w : matrix) :
  track_at lsa thr files = Ok s' -> weights s' !! t = Some w ->
  w = full (leaves_at (map instances files.*2) t)
           (leaves_at (map instances files.*2) (t + 1)) NInf.
Proof.
  unfold track_at. intros H Hw.
  apply bind_Ok in H as (s1 & H1 & H). apply bind_Ok in H as (s2 & H2 & H).
  destruct (prepare_spec files s1 H1) as (_ & _ & _ & Hws & _).
  destruct (link_frames_weights _ _ _ _ H2) as (Hw2 & _).
  destruct (get_series_fields _ _ H) as (Hw3 & _).
  apply Hws. congruence.
Qed.

(** The per-frame emergence count is the difference of consecutive leaf
    counts, whatever the links are. *)
Lemma num_emergence_diff (lsa : matrix -> result (list nat * list nat)) (thr : npfloat)
    (files : list (String.string * ndarray3)) (s' : PlantData) :
  track_at lsa thr files = Ok s' ->
  num_emergence s'
  = take 1 (replicate (length files) (Z.of_nat (leaves_at (map instances files.*2) 0)))
    ++ diff (map instances files.*2).
Proof.
  unfold track_at. intros H.
  apply bind_Ok in H as (s1 & H1 & H). apply bind_Ok in H as (s2 & H2 & H).
  destruct (prepare_spec files s1 H1) as (_ & _ & _ & _ & _ & He).
  destruct (link_frames_weights _ _ _ _ H2) as (_ & He2 & _).
  destruct (get_series_fields _ _ H) as (_ & He3 & _).
  congruence.
Qed.

(** C8 fails on [frames_AB]: the similarity matrix of frames 0 and 1 is
    [[1, 0]], but the matrix stored for that pair after the linking loop is
    still the [-inf] fill. *)
Theorem weights_not_stored :
  exists s', track_at brute_force threshold frames_AB = Ok s' /\
    _compute_overlaps_masks frame_A frame_AB = Ok [[Fin 1; Fin 0]] /\
    link_info s' !! 0 = Some [0%Z] /\
    weights s' !! 0 = Some [[NInf; NInf]].
Proof.
  eexists. split; [vm_compute; reflexivity|].
  split; [vm_compute; reflexivity|]. split; reflexivity.
Qed.

(** C9 fails on [frames_AB]: at frame 2 no leaf is newly emerged (its only
    leaf is linked from frame 1), yet the emergence count stored for frame 2
    is [1 - 2 = -1]. *)
Theorem num_emergence_not_emerged :
  exists s', track_at brute_force threshold frames_AB = Ok s' /\
    num_emergence s' = [1; 1; -1]%Z /\
    map (fun t => length (emerged (num_leaves s') (link_info s') t)) [0; 1; 2] = [1; 1; 0].
Proof.
  eexists. split; [vm_compute; reflexivity|]. split; reflexivity.
Qed.

(** ** The overlap engine *)

Lemma reshape_gt_half_01 (m : ndarray3) (k j : nat) :
  reshape_gt_half m k j = 0%Z \/ reshape_gt_half m k j = 1%Z.
Proof. unfold reshape_gt_half. destruct (negb _); auto. Qed.

Lemma sumZ_le {A} (f g : A -> Z) (l : list A) :
  (forall k, (f k <= g k)%Z) -> (sumZ (map f l) <= sumZ (map g l))%Z.
Proof.
  intros H. induction l as [|k l IH]; simpl; [lia|]. specialize (H k). lia.
Qed.

Lemma sumZ_nonneg {A} (f : A -> Z) (l : list A) :
  (forall k, (0 <= f k)%Z) -> (0 <= sumZ (map f l))%Z.
Proof.
  intros H. induction l as [|k l IH]; simpl; [lia|]. specialize (H k). lia.
Qed.

Lemma intersection_bounds (m1 m2 : ndarray3) (i j : nat) :
  npixels m2 = npixels m1 ->
  (0 <= intersection_at m1 m2 i j <= area_at m2 j)%Z /\
  (intersection_at m1 m2 i j <= area_at m1 i)%Z.
Proof.
  intros Hpx. unfold intersection_at, area_at. rewrite <- Hpx. repeat split.
  - apply sumZ_nonneg. intros k.
    destruct (reshape_gt_half_01 m2 k j) as [->| ->],
             (reshape_gt_half_01 m1 k i) as [->| ->]; lia.
  - apply sumZ_le. intros k.
    destruct (reshape_gt_half_01 m2 k j) as [->| ->],
             (reshape_gt_half_01 m1 k i) as [->| ->]; lia.
  - apply sumZ_le. intros k.
    destruct (reshape_gt_half_01 m2 k j) as [->| ->],
             (reshape_gt_half_01 m1 k i) as [->| ->]; lia.
Qed.

Lemma fdivide_range (a u : Z) :
  (0 <= a <= u)%Z -> (0 < u)%Z ->
  exists q, fdivide a u = Fin q /\ (0 <= q)%Q /\ (q <= 1)%Q.
Proof.
  intros Ha Hu. unfold fdivide. destruct (Z.eqb_spec u 0); [lia|].
  eexists. split; [reflexivity|]. rewrite Qred_correct.
  assert (HuQ : (0 < inject_Z u)%Q).
  { change 0%Q with (inject_Z 0). rewrite <- Zlt_Qlt. exact Hu. }
  split.
  - apply Qle_shift_div_l; [exact HuQ|]. rewrite Qmult_0_l.
    change 0%Q with (inject_Z 0). rewrite <- Zle_Qle. lia.
  - apply Qle_shift_div_r; [exact HuQ|]. rewrite Qmult_1_l. rewrite <- Zle_Qle. lia.
Qed.

(** An entry of the similarity matrix is a value of [[0, 1]] unless both
    thresholded masks are empty, in which case it is [NaN]. *)
Lemma overlap_entry (m1 m2 : ndarray3) (i j : nat) :
  npixels m2 = npixels m1 ->
  (area_at m1 i = 0%Z /\ area_at m2 j = 0%Z /\
   fdivide (intersection_at m1 m2 i j) (union_at m1 m2 i j) = NaN) \/
  (exists q, fdivide (intersection_at m1 m2 i j) (union_at m1 m2 i j) = Fin q /\
             (0 <= q)%Q /\ (q <= 1)%Q).
Proof.
  intros Hpx. destruct (intersection_bounds m1 m2 i j Hpx) as ((H0 & H2) & H1).
  unfold union_at.
  destruct (Z.eq_dec (area_at m2 j + area_at m1 i - intersection_at m1 m2 i j)%Z 0%Z)
    as [Hz|Hnz].
  - left. assert (intersection_at m1 m2 i j = 0%Z) as Hi by lia.
    repeat split; try lia. rewrite Hz, Hi. reflexivity.
  - right. apply fdivide_range; lia.
Qed.

(** C6 fails on [frames_empty]: the similarity of two empty masks is [NaN],
    the column filter lets it through, and the solver is handed the [NaN]
    and rejects it. *)
Theorem empty_masks_give_nan :
  _compute_overlaps_masks frame_E frame_E = Ok [[NaN]] /\
  delete_cols [[NaN]] (where_lt [NaN] threshold) = [[NaN]] /\
  track_at brute_force threshold frames_empty = Raise ValueError.
Proof. split; [vm_compute; reflexivity|]. split; reflexivity. Qed.

Lemma reshape_gt_half_binarize (m : ndarray3) (k j : nat) :
  reshape_gt_half (binarize m) k j = reshape_gt_half m k j.
Proof.
  unfold reshape_gt_half, binarize. simpl.
  destruct (Qle_bool (item m (k / width m) (k mod width m) j) (1 # 2)); reflexivity.
Qed.

Lemma overlaps_binarize (m1 m2 : ndarray3) :
  _compute_overlaps_masks m1 m2 = _compute_overlaps_masks (binarize m1) (binarize m2).
Proof.
  unfold _compute_overlaps_masks. simpl.
  destruct (decide (instances m1 = 0 \/ instances m2 = 0)); [reflexivity|].
  change (npixels (binarize m2)) with (npixels m2).
  change (npixels (binarize m1)) with (npixels m1).
  destruct (decide (npixels m2 = npixels m1)); [|reflexivity].
  f_equal. apply map_ext. intros i. apply map_ext. intros j.
  unfold union_at, intersection_at, area_at.
  change (npixels (binarize m2)) with (npixels m2).
  change (npixels (binarize m1)) with (npixels m1).
  assert (Hi : map (fun k => (reshape_gt_half (binarize m2) k j
                              * reshape_gt_half (binarize m1) k i)%Z) (seq 0 (npixels m2))
               = map (fun k => (reshape_gt_half m2 k j * reshape_gt_half m1 k i)%Z)
                     (seq 0 (npixels m2))).
  { apply map_ext. intros k. now rewrite !reshape_gt_half_binarize. }
  assert (H2 : map (fun k => reshape_gt_half (binarize m2) k j) (seq 0 (npixels m2))
               = map (fun k => reshape_gt_half m2 k j) (seq 0 (npixels m2))).
  { apply map_ext. intros k. apply reshape_gt_half_binarize. }
  assert (H1 : map (fun k => reshape_gt_half (binarize m1) k i) (seq 0 (npixels m1))
               = map (fun k => reshape_gt_half m1 k i) (seq 0 (npixels m1))).
  { apply map_ext. intros k. apply reshape_gt_half_binarize. }
  now rewrite Hi, H2, H1.
Qed.

(** C10, amended: two non-empty mask sets whose flattened lengths
    (height × width) differ make the overlap computation fail at once; the
    values of the masks are not checked but thresholded at 0.5, the result
    being that of the thresholded masks. *)
Theorem malformed_masks (m1 m2 : ndarray3) :
  instances m1 <> 0 -> instances m2 <> 0 ->
  (npixels m1 <> npixels m2 -> _compute_overlaps_masks m1 m2 = Raise ValueError) /\
  _compute_overlaps_masks m1 m2 = _compute_overlaps_masks (binarize m1) (binarize m2).
Proof.
  intros H1 H2. split; [|apply overlaps_binarize].
  intros Hpx. unfold _compute_overlaps_masks.
  destruct (decide (instances m1 = 0 \/ instances m2 = 0)) as [[?|?]|_]; [lia|lia|].
  destruct (decide (npixels m2 = npixels m1)); [congruence | reflexivity].
Qed.

Lemma malformed_masks_witness :
  _compute_overlaps_masks frame_A frame_1x3 = Raise ValueError.
Proof.
  refine (proj1 (malformed_masks frame_A frame_1x3 _ _) _).
  - simpl. lia.
  - simpl. lia.
  - unfold npixels. simpl. lia.
Defined.

(** C10 as stated fails: a mask holding 0 and 255 is accepted and compared
    as if it held 0 and 1. *)
Lemma malformed_masks_accepted :
  ~ (forall m1 m2, non_binary m1 \/ mismatched m1 m2 ->
       exists e, _compute_overlaps_masks m1 m2 = Raise e).
Proof.
  intros H. destruct (H frame_255 frame_A) as [e He].
  - left. exists 0, 0, 0. simpl. repeat split; try lia; intros Heq; discriminate Heq.
  - vm_compute in He. discriminate He.
Qed.

(** So is a mask set of another shape with as many pixels. *)
Lemma mismatched_shape_accepted :
  mismatched frame_A frame_2x2 /\
  _compute_overlaps_masks frame_A frame_2x2 = Ok [[Fin (1 # 2)]].
Proof. split; [left; simpl; lia | vm_compute; reflexivity]. Qed.

(** ** The assignment step returns on finite matrices *)

Lemma brute_force_total : lsa_total brute_force.
Proof.
  intros W Hrect Hfin. unfold brute_force.
  assert (Hb : forallb (forallb is_finite) W = true).
  { apply forallb_forall. intros row Hrow. apply forallb_forall. intros x Hx.
    rewrite Forall_forall in Hfin. apply list_elem_of_In in Hrow, Hx.
    specialize (Hfin row Hrow). rewrite Forall_forall in Hfin. auto. }
  rewrite Hb.
  assert (Hc : (seq 0 (length W `min` ncols W), seq 0 (length W `min` ncols W))
               ∈ candidates W).
  { apply candidates_assignment. constructor; simpl.
    - reflexivity.
    - apply length_seq.
    - apply seq_StronglySorted.
    - apply NoDup_seq.
    - apply Forall_forall. intros r Hr. apply elem_of_seq in Hr. lia.
    - apply Forall_forall. intros c Hc. apply elem_of_seq in Hc. lia. }
  destruct (candidates W); [inversion Hc | eauto].
Qed.

Section LinkWeightTotal.

Variable lsa : matrix -> result (list nat * list nat).
Hypothesis lsa_ok : lsa_valid lsa.
Hypothesis lsa_tot : lsa_total lsa.

Lemma link_weight_total (thr : npfloat) (n0 n1 : nat) (W : matrix) :
  shaped n0 n1 W -> 0 < n0 ->
  Forall (Forall (fun x => is_finite x = true)) W ->
  exists link, link_weight lsa thr n0 n1 W = Ok link.
Proof.
  intros HW Hn0 Hfin. unfold link_weight.
  assert (HWne : W <> []) by (destruct HW as [HW _]; destruct W; [simpl in HW; lia | congruence]).
  destruct (amax0 W) as [cm|] eqn:Hcm; [|destruct W; [congruence | discriminate]].
  cbn [mbind result_bind].
  rewrite (delete_cols_restrict W _ n1) by apply HW.
  rewrite (avail_col_remaining thr n0 n1 W cm HW Hcm).
  set (kept := remaining_columns thr n1 W).
  destruct (lsa_tot (restrict W kept)) as [ind Hind].
  { rewrite ncols_restrict by exact HWne. unfold restrict.
    apply Forall_fmap, Forall_forall. intros row _. simpl. apply length_map. }
  { apply (restrict_finite thr n0 n1 W HW Hfin). }
  rewrite Hind. cbn [mbind result_bind].
  destruct (assignment_pairs _ _ (lsa_ok _ _ Hind)) as (_ & _ & Hrange).
  rewrite ncols_restrict in Hrange by exact HWne.
  destruct (foldM_total (fun link : list Z => length link = n0)
              (accept thr (restrict W kept) kept) (zip ind.1 ind.2)
              (replicate n0 (-1)%Z)) as (link & Hlink & _);
    [|apply length_replicate|eauto].
  intros link [r c] Hlen Hrc. destruct (Hrange r c Hrc) as [Hr Hc].
  unfold accept. simpl.
  destruct (lookup_lt_is_Some_2 _ r Hr) as [row Hrow].
  assert (Hrowlen : length row = length kept).
  { unfold restrict in Hrow. apply list_lookup_fmap_Some in Hrow as (row' & -> & _).
    apply length_map. }
  destruct (lookup_lt_is_Some_2 row c) as [w Hw]; [lia|].
  unfold getitem2. rewrite (getitem_Some _ _ _ Hrow). cbn [mbind result_bind].
  rewrite (getitem_Some _ _ _ Hw). cbn [mbind result_bind].
  destruct (fge w thr); [|eauto].
  destruct (lookup_lt_is_Some_2 kept c Hc) as [a Ha].
  rewrite (getitem_Some _ _ _ Ha). cbn [mbind result_bind].
  unfold restrict in Hr. rewrite length_map in Hr. destruct HW as [HW _].
  rewrite setitem_lt by lia. eexists. split; [reflexivity|].
  rewrite length_insert. exact Hlen.
Qed.

End LinkWeightTotal.

(** ** The pipeline returns on well-formed frames *)

Lemma foldM_seq_total {A} (f : A -> nat -> result A) (Inv : nat -> A -> Prop)
    (n a : nat) (s : A) :
  (forall k x, a <= k < a + n -> Inv k x -> exists x', f x k = Ok x' /\ Inv (S k) x') ->
  Inv a s -> exists s', foldM f s (seq a n) = Ok s' /\ Inv (a + n) s'.
Proof.
  revert a s; induction n as [|n IH]; intros a s Hstep Ha; simpl.
  - exists s. now rewrite Nat.add_0_r.
  - destruct (Hstep a s) as (s1 & -> & H1); [lia | exact Ha|]. simpl.
    replace (a + S n) with (S a + n) by lia. apply IH; [|exact H1].
    intros k x Hk. apply Hstep. lia.
Qed.

Lemma set_tail_diff (n : nat) (x : Z) (nl : list nat) :
  length nl = n ->
  set_tail (replicate n x) (diff nl) = Ok (take 1 (replicate n x) ++ diff nl).
Proof.
  intros Hn. unfold set_tail.
  destruct (decide (length (diff nl) = length (drop 1 (replicate n x)))) as [|Hbad];
    [reflexivity|].
  exfalso. apply Hbad. rewrite diff_length, length_drop, length_replicate. lia.
Qed.

Lemma mapM_seq_pure {B} (f : nat -> result B) (g : nat -> B) (a n : nat) :
  (forall i, a <= i < a + n -> f i = Ok (g i)) -> mapM f (seq a n) = Ok (map g (seq a n)).
Proof.
  intros H. apply mapM_pure. intros i Hi. apply elem_of_seq in Hi. now apply H.
Qed.

Lemma getitem_leaves_at (nl : list nat) (i : nat) :
  i < length nl -> getitem nl i = Ok (leaves_at nl i).
Proof.
  intros Hi. destruct (lookup_lt_is_Some_2 nl i Hi) as [n Hn].
  unfold leaves_at. rewrite Hn. now apply getitem_Some.
Qed.

Lemma prepare_total (files : list (String.string * ndarray3)) :
  files <> [] -> exists s, prepare files = Ok s.
Proof.
  intros Hne. destruct files as [|[stamp m0] files'] eqn:Hfiles; [congruence|].
  rewrite <- Hfiles. unfold prepare.
  assert (Hm0 : masks (loaded files) !! 0 = Some m0) by (now rewrite Hfiles).
  unfold getinitleaf. rewrite (getitem_Some _ _ _ Hm0). cbn [mbind result_bind].
  unfold getmaxleaf. cbn [num_leaves masks loaded app].
  destruct (decide (map instances files.*2 = [])) as [Hnil|_].
  { rewrite Hfiles in Hnil. discriminate. }
  cbn [mbind result_bind]. unfold gettotaltime. cbn [mbind result_bind time loaded].
  unfold getnumemergence. cbn [total_time init_nleaf num_leaves].
  rewrite set_tail_diff by (now rewrite length_map, !length_fmap).
  cbn [mbind result_bind]. unfold initialize_linking.
  cbn [total_time num_leaves].
  set (nl := map instances files.*2).
  assert (Hlen : length files.*1 = length nl).
  { unfold nl. now rewrite length_map, !length_fmap. }
  rewrite (mapM_seq_pure _ (fun i => replicate (leaves_at nl i) (-1)%Z)); cycle 1.
  { intros i Hi. rewrite getitem_leaves_at by lia. reflexivity. }
  cbn [mbind result_bind].
  rewrite (mapM_seq_pure _ (fun i => full (leaves_at nl i) (leaves_at nl (i + 1)) NInf));
    cycle 1.
  { intros i Hi. rewrite !getitem_leaves_at by lia. reflexivity. }
  cbn [mbind result_bind].
  rewrite (mapM_seq_pure _ (fun i => seq 0 (leaves_at nl i))); cycle 1.
  { intros i Hi. rewrite getitem_leaves_at by lia. reflexivity. }
  cbn [mbind result_bind]. eauto.
Qed.

Lemma overlaps_finite (m0 m1 : ndarray3) :
  npixels m1 = npixels m0 ->
  (forall i j, i < instances m0 -> j < instances m1 ->
     (0 < area_at m0 i)%Z \/ (0 < area_at m1 j)%Z) ->
  exists W, _compute_overlaps_masks m0 m1 = Ok W /\
            Forall (Forall (fun x => is_finite x = true)) W.
Proof.
  intros Hpx Hunion. unfold _compute_overlaps_masks.
  destruct (decide (instances m0 = 0 \/ instances m1 = 0)).
  - eexists. split; [reflexivity|]. unfold full.
    apply Forall_replicate, Forall_replicate. reflexivity.
  - destruct (decide (npixels m1 = npixels m0)); [|congruence].
    eexists. split; [reflexivity|].
    apply Forall_fmap, Forall_forall. intros i Hi. apply elem_of_seq in Hi. simpl.
    apply Forall_fmap, Forall_forall. intros j Hj. apply elem_of_seq in Hj. simpl.
    destruct (overlap_entry m0 m1 i j Hpx) as [(H0 & H1 & _)|(q & -> & _)];
      [|reflexivity].
    destruct (Hunion i j) as [?|?]; lia.
Qed.

Section TrackTotal.

Variable lsa : matrix -> result (list nat * list nat).
Hypothesis lsa_ok : lsa_valid lsa.
Hypothesis lsa_tot : lsa_total lsa.

Lemma linking_at_total (thr : npfloat) (nl : list nat) (t0 : nat) (s : PlantData) :
  initialized nl s -> nl = map instances (masks s) ->
  length (link_info s) = length nl - 1 ->
  well_formed (masks s) -> t0 + 1 < length nl ->
  exists s', linking_at lsa thr t0 s = Ok s'.
Proof.
  intros Hs Hnl Hlen Hwf Ht0. unfold linking_at.
  assert (Hmlen : length (masks s) = length nl) by (rewrite Hnl; now rewrite length_map).
  destruct (lookup_lt_is_Some_2 (masks s) t0) as [m0 Hm0]; [lia|].
  destruct (lookup_lt_is_Some_2 (masks s) (t0 + 1)) as [m1 Hm1]; [lia|].
  rewrite (getitem_Some _ _ _ Hm0), (getitem_Some _ _ _ Hm1). cbn [mbind result_bind].
  assert (Hn0 : nl !! t0 = Some (instances m0)) by (rewrite Hnl, list_lookup_fmap, Hm0; reflexivity).
  assert (Hn1 : nl !! (t0 + 1) = Some (instances m1)) by (rewrite Hnl, list_lookup_fmap, Hm1; reflexivity).
  rewrite (getitem_Some _ t0 (seq 0 (instances m0)))
    by (rewrite (init_available _ _ Hs), list_lookup_fmap, Hn0; reflexivity).
  cbn [mbind result_bind].
  rewrite (getitem_Some _ (t0 + 1) (seq 0 (instances m1)))
    by (rewrite (init_available _ _ Hs), list_lookup_fmap, Hn1; reflexivity).
  cbn [mbind result_bind]. rewrite !length_seq.
  destruct (overlaps_finite m0 m1) as (W & HW & Hfin).
  { exact (wf_pixels _ Hwf t0 m0 m1 Hm0 Hm1). }
  { intros i j. exact (wf_union _ Hwf t0 m0 m1 i j Hm0 Hm1). }
  rewrite HW. cbn [mbind result_bind].
  destruct (link_weight_total lsa lsa_ok lsa_tot thr (instances m0) (instances m1) W)
    as [link Hlink].
  { now apply overlaps_shaped. }
  { exact (wf_leaves _ Hwf t0 m0 m1 Hm0 Hm1). }
  { exact Hfin. }
  rewrite Hlink. cbn [mbind result_bind].
  rewrite setitem_lt by lia. cbn [mbind result_bind]. eauto.
Qed.

(** On well-formed frames the whole pipeline returns. *)
Lemma track_total (thr : npfloat) (files : list (String.string * ndarray3)) :
  well_formed files.*2 -> exists s', track_at lsa thr files = Ok s'.
Proof.
  intros Hwf. unfold track_at.
  destruct (prepare_total files) as [s1 H1].
  { intros ->. now apply (wf_nonempty _ Hwf). }
  rewrite H1. cbn [mbind result_bind].
  destruct (prepare_spec files s1 H1) as (Hs1 & Hm1 & Hl1 & _).
  set (nl := map instances files.*2) in *.
  assert (Hlen : length nl = length files) by (unfold nl; now rewrite length_map, length_fmap).
  assert (Hnl : nl = map instances (masks s1)) by (unfold nl; now rewrite Hm1).
  destruct (foldM_seq_total (fun x t0 => linking_at lsa thr t0 x)
              (fun _ x => initialized nl x /\ masks x = masks s1 /\
                          length (link_info x) = length nl - 1)
              (total_time s1 - 1) 0 s1) as (s2 & H2 & _).
  { intros k x Hk (Hx & Hmx & Hlx).
    destruct (linking_at_total thr nl k x) as [x' Hx']; try assumption.
    - congruence.
    - rewrite Hmx, Hm1. exact Hwf.
    - rewrite (init_total_time _ _ Hs1) in Hk. lia.
    - exists x'. split; [exact Hx'|].
      apply (linking_at_spec lsa lsa_ok thr nl) in Hx'; [|exact Hx|congruence].
      destruct Hx' as (Hx'' & Hm' & _ & _ & link & _ & _ & Hli).
      split; [exact Hx''|]. split; [congruence|]. now rewrite Hli, length_insert. }
  { split; [exact Hs1|]. split; [reflexivity | lia]. }
  fold (link_frames_at lsa thr s1) in H2. rewrite H2. cbn [mbind result_bind].
  apply (link_frames_spec lsa lsa_ok thr nl) in H2; [|exact Hs1|exact Hnl|lia].
  destruct H2 as (Hs2 & _ & _ & _ & Hshape & Hrange & _).
  apply (get_series_total nl); try assumption.
  intros Hnil. apply (wf_nonempty _ Hwf). unfold nl in Hnil.
  now apply fmap_nil_inv in Hnil.
Qed.

End TrackTotal.

(** ** The scenarios of the design, run on the model *)

(** Static leaves: both links are the identity and the two trajectories
    never move. *)
Example scenario_static :
  exists s', track_at brute_force threshold frames_static = Ok s' /\
    link_info s' = [[0; 1]; [0; 1]]%Z /\
    trajectories (link_series s') = [(0, [0; 0; 0]%Z); (1, [1; 1; 1]%Z)].
Proof. eexists. split; [vm_compute; reflexivity|]. split; reflexivity. Qed.

(** Emergence and loss: leaf A is lost after frame 1, leaf B emerges at
    frame 1 with a fresh identity and is followed into frame 2. *)
Example scenario_emergence_and_loss :
  exists s', track_at brute_force threshold frames_AB = Ok s' /\
    link_info s' = [[0]; [-1; 0]]%Z /\
    trajectories (link_series s') = [(0, [0; 0; -1]%Z); (1, [-1; 1; 0]%Z)].
Proof. eexists. split; [vm_compute; reflexivity|]. split; reflexivity. Qed.

(** Threshold boundary: a similarity of exactly 0.2 is accepted, 0.19 is not. *)
Example scenario_boundary :
  link_weight brute_force threshold 1 1 [[Fin (1 # 5)]] = Ok [0%Z] /\
  link_weight brute_force threshold 1 1 [[Fin (19 # 100)]] = Ok [(-1)%Z].
Proof. split; reflexivity. Qed.

(** * Further properties of the code *)

(** ** [linking] works on one pair of frames and nothing else *)

(** [linking(t0)] stores one link vector, which it computes from the masks
    and the available leaves only. *)
Lemma linking_at_inv (lsa : matrix -> result (list nat * list nat)) (thr : npfloat)
    (t0 : nat) (s s' : PlantData) :
  linking_at lsa thr t0 s = Ok s' ->
  exists link,
    t0 < length (link_info s) /\
    s' = with_link_info s (<[t0:=link]> (link_info s)) /\
    forall s2, masks s2 = masks s -> available_leaves s2 = available_leaves s ->
               t0 < length (link_info s2) ->
               linking_at lsa thr t0 s2
               = Ok (with_link_info s2 (<[t0:=link]> (link_info s2))).
Proof.
  intros H. unfold linking_at in H.
  apply bind_Ok in H as (m0 & Hm0 & H). apply bind_Ok in H as (m1 & Hm1 & H).
  apply bind_Ok in H as (l0 & Hl0 & H). apply bind_Ok in H as (l1 & Hl1 & H).
  apply bind_Ok in H as (W & HW & H). apply bind_Ok in H as (link & Hlink & H).
  apply bind_Ok in H as (li & Hli & H). apply setitem_Ok in Hli as [Hlt ->].
  injection H as <-. exists link. split; [exact Hlt|]. split; [reflexivity|].
  intros s2 Hmasks Havail Hlt2. unfold linking_at.
  rewrite Hmasks, Havail, Hm0, Hm1, Hl0, Hl1. cbn [mbind result_bind].
  rewrite HW. cbn [mbind result_bind]. rewrite Hlink. cbn [mbind result_bind].
  rewrite (setitem_lt _ _ _ Hlt2). cbn [mbind result_bind].
  unfold with_link_info. rewrite Hmasks, Havail. reflexivity.
Qed.

(** X1: the link vectors of two different frame pairs can be computed in
    either order: if [linking(t0)] followed by [linking(t1)] returns, so does
    [linking(t1)] followed by [linking(t0)], with the same object. *)
Theorem linking_commute (lsa : matrix -> result (list nat * list nat)) (thr : npfloat)
    (t0 t1 : nat) (s s' : PlantData) :
  t0 <> t1 ->
  linking_at lsa thr t0 s ≫= linking_at lsa thr t1 = Ok s' ->
  linking_at lsa thr t1 s ≫= linking_at lsa thr t0 = Ok s'.
Proof.
  intros Hne H. apply bind_Ok in H as (s1 & H0 & H1).
  destruct (linking_at_inv _ _ _ _ _ H0) as (k0 & Hlt0 & -> & Hany0).
  destruct (linking_at_inv _ _ _ _ _ H1) as (k1 & Hlt1 & -> & Hany1).
  simpl in Hlt1. rewrite length_insert in Hlt1.
  rewrite (Hany1 s) by (try reflexivity; exact Hlt1). cbn [mbind result_bind].
  rewrite Hany0 by (try reflexivity; simpl; rewrite length_insert; exact Hlt0).
  unfold with_link_info. simpl. f_equal. f_equal.
  apply list_insert_insert_ne. congruence.
Qed.

(** X2: [linking(t0)] does not depend on the links already stored: run a
    second time it returns the object unchanged. *)
Theorem linking_idempotent (lsa : matrix -> result (list nat * list nat)) (thr : npfloat)
    (t0 : nat) (s s1 : PlantData) :
  linking_at lsa thr t0 s = Ok s1 -> linking_at lsa thr t0 s1 = Ok s1.
Proof.
  intros H. destruct (linking_at_inv _ _ _ _ _ H) as (k & Hlt & -> & Hany).
  rewrite Hany by (try reflexivity; simpl; rewrite length_insert; exact Hlt).
  unfold with_link_info. simpl. f_equal. f_equal. apply list_insert_insert_eq.
Qed.

Lemma linking_commute_witness :
  exists s', linking_at brute_force threshold 1 prepared_AB
             ≫= linking_at brute_force threshold 0 = Ok s' /\
             link_info s' = [[0]; [-1; 0]]%Z.
Proof.
  eexists. split.
  - apply (linking_commute brute_force threshold 0 1 prepared_AB); [lia|].
    vm_compute. reflexivity.
  - reflexivity.
Defined.

Lemma linking_idempotent_witness :
  exists s1, linking_at brute_force threshold 0 prepared_AB = Ok s1 /\
             linking_at brute_force threshold 0 s1 = Ok s1.
Proof.
  eexists. split; [vm_compute; reflexivity|].
  apply (linking_idempotent brute_force threshold 0 prepared_AB).
  vm_compute. reflexivity.
Defined.

(** ** Unmatched rows and unmatched columns *)

Lemma map_const_replicate {A B} (f : A -> B) (b : B) (l : list A) :
  (forall a, a ∈ l -> f a = b) -> map f l = replicate (length l) b.
Proof.
  induction l as [|a l IH]; intros H; simpl; [reflexivity|].
  rewrite H by constructor. f_equal. apply IH. intros; apply H; now constructor.
Qed.

Section Unmatched.

Variable lsa : matrix -> result (list nat * list nat).
Hypothesis lsa_ok : lsa_valid lsa.

(** X3: when no similarity reaches the threshold, in particular when the
    next frame has no leaf at all, every row is left at the sentinel. *)
Theorem no_confident_match (thr : npfloat) (n0 n1 : nat) (W : matrix) (link : list Z) :
  shaped n0 n1 W ->
  (forall i j, i < n0 -> j < n1 -> fge (entry W i j) thr = false) ->
  link_weight lsa thr n0 n1 W = Ok link ->
  link = replicate n0 (-1)%Z.
Proof.
  intros HW Hlow H.
  destruct (link_weight_inv lsa lsa_ok thr n0 n1 W link HW H) as (ind & _ & _ & ->).
  replace (replicate n0 (-1)%Z) with (replicate (length (seq 0 n0)) (-1)%Z)
    by (now rewrite length_seq).
  apply map_const_replicate.
  intros i Hi. apply elem_of_seq in Hi.
  destruct (decide (rethreshold thr W (remaining_columns thr n1 W) (zip ind.1 ind.2) i
                    = (-1)%Z)) as [|Hne]; [assumption|].
  destruct (rethreshold_matched thr W _ _ i _ eq_refl Hne) as (c & j & _ & Hj & Hge & _).
  apply list_elem_of_lookup_2, remaining_columns_spec in Hj as [Hj _].
  rewrite Hlow in Hge by lia. discriminate.
Qed.

End Unmatched.

Lemma no_confident_match_witness :
  link_weight brute_force threshold 2 0 [[]; []] = Ok [-1; -1]%Z /\
  [-1; -1]%Z = replicate 2 (-1)%Z.
Proof.
  split; [reflexivity|].
  apply (no_confident_match brute_force brute_force_valid threshold 2 0 [[]; []]).
  - split; [reflexivity | repeat constructor].
  - intros i j _ Hj. lia.
  - reflexivity.
Defined.

Lemma NoDup_filter_positions {A} (P : A -> bool) (l : list A) :
  (forall i i' v, l !! i = Some v -> l !! i' = Some v -> P v = true -> i = i') ->
  NoDup (List.filter P l).
Proof.
  induction l as [|x l IH]; intros H; simpl; [constructor|].
  assert (Hl : NoDup (List.filter P l)).
  { apply IH. intros i i' v Hi Hi' Hv.
    assert (S i = S i') by (apply (H (S i) (S i') v); assumption). lia. }
  destruct (P x) eqn:HP; [|exact Hl]. constructor; [|exact Hl].
  intros Hin. apply elem_of_filter_bool in Hin as [Hin _].
  apply list_elem_of_lookup in Hin as (i & Hi).
  assert (0 = S i) by (apply (H 0 (S i) x); [reflexivity | exact Hi | exact HP]).
  discriminate.
Qed.

Lemma filter_split_length {A} (f : A -> bool) (l : list A) :
  length (List.filter f l) + length (List.filter (fun x => negb (f x)) l) = length l.
Proof.
  induction l as [|x l IH]; [reflexivity|]. simpl. destruct (f x); simpl; lia.
Qed.

(** The columns no link points to and the links partition the next frame. *)
Lemma link_balance (n1 : nat) (link : list Z) :
  (forall i v, link !! i = Some v -> v = (-1)%Z \/ (0 <= v < Z.of_nat n1)%Z) ->
  (forall i i' v, link !! i = Some v -> link !! i' = Some v -> v <> (-1)%Z -> i = i') ->
  length (List.filter is_link link)
  + length (List.filter (fun j => not_in j link) (seq 0 n1)) = n1.
Proof.
  intros Hrange Hinj.
  set (targets := List.filter is_link link).
  assert (Hnd : NoDup targets).
  { apply NoDup_filter_positions. intros i i' v Hi Hi' Hv. apply (Hinj i i' v Hi Hi').
    unfold is_link in Hv. apply negb_true_iff, Z.eqb_neq in Hv. exact Hv. }
  assert (Hperm : map Z.of_nat (List.filter (fun j => negb (not_in j link)) (seq 0 n1))
                  ≡ₚ targets).
  { apply NoDup_Permutation; [|exact Hnd|].
    - apply NoDup_fmap_2; [exact Nat2Z.inj | apply NoDup_filter_bool, NoDup_seq].
    - intros v. rewrite list_elem_of_fmap. unfold targets.
      rewrite elem_of_filter_bool. split.
      + intros (j & -> & Hj). apply elem_of_filter_bool in Hj as [_ Hj].
        apply negb_true_iff, not_in_false in Hj as (i & Hi). split.
        * eapply list_elem_of_lookup_2; eauto.
        * unfold is_link. apply negb_true_iff, Z.eqb_neq. lia.
      + intros [Hv Hlink]. unfold is_link in Hlink.
        apply negb_true_iff, Z.eqb_neq in Hlink.
        apply list_elem_of_lookup in Hv as (i & Hi).
        destruct (Hrange i v Hi) as [|Hr]; [congruence|].
        exists (Z.to_nat v). split; [lia|]. apply elem_of_filter_bool. split.
        * apply elem_of_seq. lia.
        * apply negb_true_iff, not_in_false. exists i. rewrite Z2Nat.id by lia. exact Hi. }
  apply Permutation_length in Hperm. rewrite length_map in Hperm.
  pose proof (filter_split_length (fun j => negb (not_in j link)) (seq 0 n1)) as Hsplit.
  rewrite length_seq in Hsplit. fold targets. rewrite <- Hperm.
  erewrite (filter_ext (fun j => not_in j link)); [exact Hsplit|].
  intros j. simpl. now destruct (not_in j link).
Qed.

Section Balance.

Variable lsa : matrix -> result (list nat * list nat).
Hypothesis lsa_ok : lsa_valid lsa.

(** X4: the links of a vector and the leaves of the next frame that
    [get_series] will call new partition the next frame: the number of links
    plus the number of next-frame indices that no entry of the vector equals
    is the number of leaves of the next frame, and the number of links plus
    the number of sentinels is the number of leaves of the current one. *)
Theorem links_and_new_leaves (thr : npfloat) (n0 n1 : nat) (W : matrix) (link : list Z) :
  shaped n0 n1 W ->
  link_weight lsa thr n0 n1 W = Ok link ->
  length (List.filter is_link link)
  + length (List.filter (fun j => not_in j link) (seq 0 n1)) = n1 /\
  length (List.filter is_link link) + length (List.filter is_sentinel link) = n0.
Proof.
  intros HW H.
  destruct (link_weight_wf lsa lsa_ok thr n0 n1 W link HW H) as (Hlen & Hrange & Hinj).
  split; [apply link_balance; assumption|].
  rewrite <- Hlen, <- (filter_split_length is_sentinel link), Nat.add_comm.
  reflexivity.
Qed.

(** X5: a frame without leaves cannot be linked to a frame that has some:
    the similarity matrix has no row, the column maximum of [linking] has
    nothing to reduce and the call raises [ValueError]. *)
Theorem linking_without_leaves (thr : npfloat) (t0 : nat) (s : PlantData)
    (m0 m1 : ndarray3) :
  masks s !! t0 = Some m0 -> masks s !! (t0 + 1) = Some m1 ->
  is_Some (available_leaves s !! t0) -> is_Some (available_leaves s !! (t0 + 1)) ->
  instances m0 = 0 -> instances m1 <> 0 ->
  linking_at lsa thr t0 s = Raise ValueError.
Proof.
  intros Hm0 Hm1 [l0 Hl0] [l1 Hl1] Hz _. unfold linking_at.
  rewrite (getitem_Some _ _ _ Hm0), (getitem_Some _ _ _ Hm1),
          (getitem_Some _ _ _ Hl0), (getitem_Some _ _ _ Hl1).
  cbn [mbind result_bind]. unfold _compute_overlaps_masks.
  destruct (decide _) as [_|Hn]; [|tauto].
  rewrite Hz. reflexivity.
Qed.

Lemma diff_lookup (nl : list nat) (t a b : nat) :
  nl !! t = Some a -> nl !! (t + 1) = Some b ->
  diff nl !! t = Some (Z.of_nat b - Z.of_nat a)%Z.
Proof.
  revert t; induction nl as [|x nl IH]; intros t Ha Hb; [discriminate|].
  destruct t as [|t].
  - destruct nl as [|y nl]; [discriminate|]. simpl in *. congruence.
  - destruct nl as [|y nl]; [discriminate|].
    change (diff (y :: nl) !! t = Some (Z.of_nat b - Z.of_nat a)%Z).
    apply IH; assumption.
Qed.

(** X6: what [getnumemergence] stores for frame [t + 1] is a net change: the
    number of leaves [get_series] finds newly emerged at [t + 1] minus the
    number of leaves of frame [t] that [linking] left at the sentinel. *)
Theorem emergence_is_net_change (thr : npfloat) (files : list (String.string * ndarray3))
    (s' : PlantData) (t : nat) (link : list Z) :
  track_at lsa thr files = Ok s' ->
  link_info s' !! t = Some link ->
  num_emergence s' !! (t + 1)
  = Some (Z.of_nat (length (emerged (num_leaves s') (link_info s') (t + 1)))
          - Z.of_nat (length (List.filter is_sentinel link)))%Z.
Proof.
  intros H Hlink. pose proof (num_emergence_diff lsa thr files s' H) as He.
  unfold track_at in H.
  apply bind_Ok in H as (s1 & H1 & H). apply bind_Ok in H as (s2 & H2 & H).
  destruct (prepare_spec files s1 H1) as (Hs1 & Hm1 & Hl1 & _).
  set (nl := map instances files.*2) in *.
  assert (Hlen : length nl = length files) by (unfold nl; now rewrite length_map, length_fmap).
  apply (link_frames_spec lsa lsa_ok thr nl) in H2;
    [|exact Hs1|unfold nl; now rewrite Hm1|lia].
  destruct H2 as (Hs2 & _ & _ & _ & Hshape & Hrange & Hinj).
  destruct (get_series_fields _ _ H) as (_ & _ & Hnl & HL & _).
  rewrite Hnl, (init_num_leaves _ _ Hs2), HL. rewrite HL in Hlink.
  destruct Hshape as [HlenL Hshape].
  pose proof (lookup_lt_Some _ _ _ Hlink) as Ht.
  pose proof (Hshape t link Hlink) as Hl.
  destruct (lookup_lt_is_Some_2 nl t) as [a Ha]; [lia|].
  destruct (lookup_lt_is_Some_2 nl (t + 1)) as [b Hb]; [lia|].
  rewrite He. rewrite lookup_app_r; rewrite length_take, length_replicate; [|lia].
  replace (t + 1 - 1 `min` length files) with t by lia.
  rewrite (diff_lookup nl t a b Ha Hb). f_equal.
  replace (t + 1) with (S t) by lia. cbn [emerged].
  unfold link_at. rewrite Hlink. cbn [default].
  pose proof (link_balance (leaves_at nl (S t)) link) as Hbal.
  replace (S t) with (t + 1) in Hbal by lia.
  specialize (Hbal (fun i v => Hrange t link i v Hlink)
                  (fun i i' v => Hinj t link i i' v Hlink)).
  pose proof (filter_split_length is_sentinel link) as Hsplit.
  replace (S t) with (t + 1) by lia.
  unfold leaves_at in *. rewrite Ha in Hl. rewrite Hb in Hbal |- *. simpl in *.
  change (fun x => negb (is_sentinel x)) with is_link in Hsplit.
  lia.
Qed.

End Balance.

Lemma links_and_new_leaves_witness :
  exists link, link_weight brute_force threshold 3 2 W_rect = Ok link /\
    length (List.filter is_link link)
    + length (List.filter (fun j => not_in j link) (seq 0 2)) = 2 /\
    length (List.filter is_link link) + length (List.filter is_sentinel link) = 3.
Proof.
  eexists. split; [vm_compute; reflexivity|].
  apply (links_and_new_leaves brute_force brute_force_valid threshold 3 2 W_rect).
  - exact shaped_W_rect.
  - vm_compute. reflexivity.
Defined.

Lemma linking_without_leaves_witness :
  linking_at brute_force threshold 0 prepared_none = Raise ValueError.
Proof.
  apply (linking_without_leaves brute_force threshold 0 prepared_none
           (of_pixels 1 4 []) frame_A).
  - reflexivity.
  - reflexivity.
  - eexists. reflexivity.
  - eexists. reflexivity.
  - reflexivity.
  - discriminate.
Defined.

Lemma emergence_is_net_change_witness :
  exists s', track_at brute_force threshold frames_AB = Ok s' /\
    num_emergence s' !! (1 + 1)
    = Some (Z.of_nat (length (emerged (num_leaves s') (link_info s') (1 + 1)))
            - Z.of_nat (length (List.filter is_sentinel [-1; 0]%Z)))%Z.
Proof.
  eexists. split; [vm_compute; reflexivity|].
  apply (emergence_is_net_change brute_force brute_force_valid threshold frames_AB).
  - vm_compute. reflexivity.
  - reflexivity.
Defined.

(** ** As many identities are alive at a frame as the frame has leaves *)

Lemma follow_in_frame (nl : list nat) (L : list (list Z)) (t0 j0 d : nat) :
  links_in_range nl L -> j0 < leaves_at nl t0 ->
  follow L t0 (Z.of_nat j0) d = (-1)%Z \/
  (0 <= follow L t0 (Z.of_nat j0) d < Z.of_nat (leaves_at nl (t0 + d)))%Z.
Proof.
  intros HL Hj. destruct d as [|d]; [right; rewrite Nat.add_0_r; simpl; lia|].
  simpl. destruct (Z.eqb_spec (follow L t0 (Z.of_nat j0) d) (-1)); [now left|].
  unfold link_at. destruct (L !! (t0 + d)) as [link|] eqn:Hlink; simpl; [|now left].
  destruct (link !! Z.to_nat (follow L t0 (Z.of_nat j0) d)) as [v|] eqn:Hv; simpl;
    [|now left].
  destruct (HL _ _ _ _ Hlink Hv) as [->|Hr]; [now left|].
  right. replace (t0 + S d) with (t0 + d + 1) by lia. exact Hr.
Qed.

Lemma filter_length_le {A} (f : A -> bool) (l : list A) :
  length (List.filter f l) <= length l.
Proof. induction l as [|x l IH]; simpl; [lia|]. destruct (f x); simpl; lia. Qed.

Lemma sum_list_with_add {A} (f g : A -> nat) (l : list A) :
  sum_list_with (fun x => f x + g x) l = sum_list_with f l + sum_list_with g l.
Proof. induction l as [|x l IH]; simpl; lia. Qed.

Lemma sum_list_with_eq {A} (f g : A -> nat) (l : list A) :
  (forall x, f x = g x) -> sum_list_with f l = sum_list_with g l.
Proof. intros H. induction l as [|x l IH]; simpl; [reflexivity|]. now rewrite H, IH. Qed.

Lemma sum_list_with_const {A} (f : A -> nat) (c : nat) (l : list A) :
  (forall x, x ∈ l -> f x = c) -> sum_list_with f l = length l * c.
Proof.
  induction l as [|x l IH]; intros H; simpl; [reflexivity|].
  rewrite H by constructor. rewrite IH; [lia|]. intros; apply H; now constructor.
Qed.

Lemma sum_indicator (v : Z) (n : nat) :
  sum_list_with (fun j => if (v =? Z.of_nat j)%Z then 1 else 0) (seq 0 n)
  = if decide (0 <= v < Z.of_nat n)%Z then 1 else 0.
Proof.
  induction n as [|n IH]; [simpl; destruct (decide _); [lia | reflexivity]|].
  rewrite seq_S, sum_list_with_app, IH. simpl.
  destruct (Z.eqb_spec v (Z.of_nat n)), (decide (0 <= v < Z.of_nat n)%Z),
           (decide (0 <= v < Z.of_nat (S n))%Z); lia.
Qed.

(** Trajectories whose entry at [t] is the sentinel or a leaf index of the
    frame: the alive ones are those that occupy one of its indices. *)
Lemma alive_occupies (t n : nat) (l : list (nat * list Z)) :
  (forall p v, p ∈ l -> p.2 !! t = Some v -> v = (-1)%Z \/ (0 <= v < Z.of_nat n)%Z) ->
  length (List.filter (fun p : nat * list Z => alive t p.2) l)
  = sum_list_with
      (fun j => length (List.filter (fun p : nat * list Z => occupies t j p.2) l))
      (seq 0 n).
Proof.
  induction l as [|p l IH]; intros H.
  - simpl. symmetry. rewrite (sum_list_with_const _ 0); [lia | reflexivity].
  - assert (Hl : forall p v, p ∈ l -> p.2 !! t = Some v ->
                             v = (-1)%Z \/ (0 <= v < Z.of_nat n)%Z).
    { intros q v Hq. apply H. now constructor. }
    specialize (IH Hl).
    transitivity (sum_list_with
                    (fun j => (if occupies t j p.2 then 1 else 0)
                              + length (List.filter
                                          (fun p : nat * list Z => occupies t j p.2) l))
                    (seq 0 n)).
    2:{ apply sum_list_with_eq. intros j. simpl.
        destruct (occupies t j p.2); reflexivity. }
    rewrite sum_list_with_add, <- IH. simpl.
    assert (Hp : (if alive t p.2 then 1 else 0)
                 = sum_list_with (fun j => if occupies t j p.2 then 1 else 0) (seq 0 n)).
    { unfold alive, occupies. destruct (p.2 !! t) as [v|] eqn:Hv.
      - rewrite sum_indicator.
        destruct (H p v (list_elem_of_here _ _) Hv) as [->|Hr].
        + destruct (decide (0 <= -1 < Z.of_nat n)%Z); [lia | reflexivity].
        + destruct (Z.eqb_spec v (-1)); [lia|].
          destruct (decide (0 <= v < Z.of_nat n)%Z); [reflexivity | lia].
      - symmetry. rewrite (sum_list_with_const _ 0); [lia | reflexivity]. }
    rewrite <- Hp. destruct (alive t p.2); reflexivity.
Qed.

Lemma alive_count (nl : list nat) (L : list (list Z)) (t : nat) :
  links_shaped nl L -> links_in_range nl L -> links_injective L ->
  t < length nl ->
  length (List.filter (fun p : nat * list Z => alive t p.2) (spec_trajectories nl L))
  = leaves_at nl t.
Proof.
  intros Hshape Hrange Hinj Ht.
  rewrite (alive_occupies t (leaves_at nl t)).
  - rewrite (sum_list_with_const _ 1); [rewrite length_seq; lia|].
    intros j Hj. apply elem_of_seq in Hj. apply one_owner; try assumption. lia.
  - intros [id tr] v Hp Hv. simpl in Hv.
    assert (Htr : tr ∈ (spec_trajectories nl L).*2).
    { apply list_elem_of_fmap. exists (id, tr). auto. }
    unfold spec_trajectories in Htr. rewrite build_snd in Htr.
    apply list_elem_of_fmap in Htr as ([t0 j0] & -> & Hid). simpl in Hv.
    apply elem_of_identities in Hid as [_ Hj0]. apply emerged_range in Hj0.
    unfold spec_trajectory in Hv. rewrite list_lookup_fmap, lookup_seq_lt in Hv by exact Ht.
    simpl in Hv. injection Hv as <-. unfold position.
    destruct (Nat.ltb_spec t t0) as [|Hge]; [now left|].
    pose proof (follow_in_frame nl L t0 j0 (t - t0) Hrange Hj0) as Hf.
    replace (t0 + (t - t0)) with t in Hf by lia. exact Hf.
Qed.

Section AliveCount.

Variable lsa : matrix -> result (list nat * list nat).
Hypothesis lsa_ok : lsa_valid lsa.

(** X7: at every frame, the number of identities whose trajectory holds a
    leaf index there is the number of leaves of the frame; so there are
    never fewer identities than leaves in any frame. *)
Theorem alive_identities (thr : npfloat) (files : list (String.string * ndarray3))
    (s' : PlantData) (t : nat) (m : ndarray3) :
  track_at lsa thr files = Ok s' ->
  files.*2 !! t = Some m ->
  length (List.filter (fun p : nat * list Z => alive t p.2)
                      (trajectories (link_series s'))) = instances m /\
  instances m <= length (trajectories (link_series s')).
Proof.
  intros H Hm. unfold track_at in H.
  apply bind_Ok in H as (s1 & H1 & H). apply bind_Ok in H as (s2 & H2 & H).
  destruct (prepare_spec files s1 H1) as (Hs1 & Hm1 & Hl1 & _).
  set (nl := map instances files.*2) in *.
  assert (Hlen : length nl = length files) by (unfold nl; now rewrite length_map, length_fmap).
  apply (link_frames_spec lsa lsa_ok thr nl) in H2;
    [|exact Hs1|unfold nl; now rewrite Hm1|lia].
  destruct H2 as (Hs2 & _ & _ & _ & Hshape & Hrange & Hinj).
  destruct (get_series_series nl s2 s' Hs2 Hrange H) as (Hne & Hseries & _).
  rewrite Hseries, (trajectories_spec_series nl _ Hne).
  assert (Hcount : length (List.filter (fun p : nat * list Z => alive t p.2)
                                       (spec_trajectories nl (link_info s2)))
                   = instances m).
  { rewrite alive_count; try assumption.
    - unfold leaves_at, nl. now rewrite list_lookup_fmap, Hm.
    - rewrite Hlen, <- (length_fmap snd files). eapply lookup_lt_Some; eauto. }
  split; [exact Hcount|]. rewrite <- Hcount. apply filter_length_le.
Qed.

End AliveCount.

Lemma alive_identities_witness :
  exists s', track_at brute_force threshold frames_AB = Ok s' /\
    length (List.filter (fun p : nat * list Z => alive 2 p.2)
                        (trajectories (link_series s'))) = 1 /\
    1 <= length (trajectories (link_series s')).
Proof.
  eexists. split; [vm_compute; reflexivity|].
  apply (alive_identities brute_force brute_force_valid threshold frames_AB _ 2 frame_B).
  - vm_compute. reflexivity.
  - reflexivity.
Defined.

(** ** The values of the similarity matrix *)

(** Inside the matrix, an entry is the quotient of the two pixel counts. *)
Lemma overlaps_entry_eq (m1 m2 : ndarray3) (W : matrix) (i j : nat) :
  _compute_overlaps_masks m1 m2 = Ok W ->
  i < instances m1 -> j < instances m2 ->
  npixels m2 = npixels m1 /\
  entry W i j = fdivide (intersection_at m1 m2 i j) (union_at m1 m2 i j).
Proof.
  unfold _compute_overlaps_masks. intros H Hi Hj.
  destruct (decide (instances m1 = 0 \/ instances m2 = 0)) as [[?|?]|_]; [lia|lia|].
  destruct (decide (npixels m2 = npixels m1)) as [Hpx|]; [|discriminate].
  injection H as <-. split; [exact Hpx|]. unfold entry.
  rewrite list_lookup_fmap, lookup_seq_lt by exact Hi. simpl.
  rewrite list_lookup_fmap, lookup_seq_lt by exact Hj. reflexivity.
Qed.

Lemma sumZ_eq_pointwise {A} (f g : A -> Z) (l : list A) :
  (forall k, (f k <= g k)%Z) -> sumZ (map f l) = sumZ (map g l) ->
  forall k, k ∈ l -> f k = g k.
Proof.
  intros Hle. induction l as [|x l IH]; intros Hsum k Hk; [inversion Hk|].
  simpl in Hsum. pose proof (sumZ_le f g l Hle) as Hl. pose proof (Hle x) as Hx.
  apply elem_of_cons in Hk as [->|Hk]; [lia|]. apply IH; [lia | exact Hk].
Qed.

Lemma sumZ_ext {A} (f g : A -> Z) (l : list A) :
  (forall k, k ∈ l -> f k = g k) -> sumZ (map f l) = sumZ (map g l).
Proof.
  induction l as [|x l IH]; intros H; simpl; [reflexivity|].
  rewrite (H x) by constructor. rewrite IH; [reflexivity|].
  intros; apply H; now constructor.
Qed.

Lemma overlap_pixel (m1 m2 : ndarray3) (i j k : nat) :
  (0 <= reshape_gt_half m2 k j * reshape_gt_half m1 k i)%Z /\
  (reshape_gt_half m2 k j * reshape_gt_half m1 k i <= reshape_gt_half m1 k i)%Z /\
  (reshape_gt_half m2 k j * reshape_gt_half m1 k i <= reshape_gt_half m2 k j)%Z.
Proof.
  destruct (reshape_gt_half_01 m2 k j) as [->| ->],
           (reshape_gt_half_01 m1 k i) as [->| ->]; lia.
Qed.


Lemma fdivide_zero (a u : Z) : fdivide a u = Fin 0 <-> (a = 0 /\ u <> 0)%Z.
Proof.
  unfold fdivide. destruct (Z.eqb_spec u 0) as [->|Hu].
  - split; [|lia]. destruct (a =? 0)%Z; [discriminate|]. destruct (0 <? a)%Z; discriminate.
  - split.
    + intros H. injection H as H.
      assert (Hq : (inject_Z a / inject_Z u == 0)%Q).
      { rewrite <- (Qred_correct (inject_Z a / inject_Z u)), H. reflexivity. }
      split; [|exact Hu].
      destruct u as [|p|p]; [lia| |]; unfold Qeq in Hq; simpl in Hq; lia.
    + intros [-> _]. reflexivity.
Qed.




(** X10: the similarity is 0 exactly when the two thresholded masks share
    no pixel and are not both empty. *)
Theorem similarity_zero (m1 m2 : ndarray3) (W : matrix) (i j : nat) :
  _compute_overlaps_masks m1 m2 = Ok W ->
  i < instances m1 -> j < instances m2 ->
  entry W i j = Fin 0 <->
  (0 < area_at m1 i \/ 0 < area_at m2 j)%Z /\
  forall k, k < npixels m1 ->
            reshape_gt_half m1 k i = 0%Z \/ reshape_gt_half m2 k j = 0%Z.
Proof.
  intros H Hi Hj. destruct (overlaps_entry_eq m1 m2 W i j H Hi Hj) as [Hpx ->].
  destruct (intersection_bounds m1 m2 i j Hpx) as ((H0 & H2) & H1).
  rewrite fdivide_zero. unfold union_at. split.
  - intros [Hz Hne]. split; [lia|]. intros k Hk.
    assert (Hin : k ∈ seq 0 (npixels m2)) by (apply elem_of_seq; lia).
    unfold intersection_at in Hz.
    assert (Hz' : sumZ (map (fun _ : nat => 0%Z) (seq 0 (npixels m2)))
                  = sumZ (map (fun k => (reshape_gt_half m2 k j
                                         * reshape_gt_half m1 k i)%Z)
                              (seq 0 (npixels m2)))).
    { rewrite Hz. clear. induction (seq 0 (npixels m2)); simpl; [reflexivity | lia]. }
    pose proof (sumZ_eq_pointwise _ _ _
                  (fun k => proj1 (overlap_pixel m1 m2 i j k)) Hz' k Hin) as E.
    simpl in E.
    destruct (reshape_gt_half_01 m2 k j) as [E2|E2], (reshape_gt_half_01 m1 k i) as [E1|E1];
      rewrite ?E1, ?E2 in *; auto; lia.
  - intros [Hpos Hdis].
    assert (HI : intersection_at m1 m2 i j = 0%Z).
    { unfold intersection_at.
      transitivity (sumZ (map (fun _ : nat => 0%Z) (seq 0 (npixels m2)))).
      - apply sumZ_ext. intros k Hk. apply elem_of_seq in Hk.
        destruct (Hdis k) as [->| ->]; lia.
      - clear. induction (seq 0 (npixels m2)); simpl; [reflexivity | lia]. }
    lia.
Qed.




Lemma similarity_zero_witness :
  entry [[Fin 1; Fin 0]] 0 1 = Fin 0 <->
  (0 < area_at frame_A 0 \/ 0 < area_at frame_AB 1)%Z /\
  forall k, k < npixels frame_A ->
            reshape_gt_half frame_A k 0 = 0%Z \/ reshape_gt_half frame_AB k 1 = 0%Z.
Proof.
  apply (similarity_zero frame_A frame_AB [[Fin 1; Fin 0]] 0 1).
  - vm_compute. reflexivity.
  - simpl. lia.
  - simpl. lia.
Defined.


(** ** The bookkeeping methods outside their intended use *)

Lemma last_cons {A} (b : A) (l : list A) (d : A) :
  List.last (b :: l) d = List.last l b.
Proof.
  revert b d; induction l as [|a l IH]; intros b d; [reflexivity|].
  change (List.last (b :: a :: l) d) with (List.last (a :: l) d).
  now rewrite (IH a d), (IH a b).
Qed.

Lemma sumZ_diff (a : nat) (l : list nat) :
  sumZ (diff (a :: l)) = (Z.of_nat (List.last l a) - Z.of_nat a)%Z.
Proof.
  revert a; induction l as [|b l IH]; intros a; [simpl; lia|].
  change (diff (a :: b :: l)) with ((Z.of_nat b - Z.of_nat a)%Z :: diff (b :: l)).
  cbn [sumZ foldr]. fold (sumZ (diff (b :: l))). rewrite IH, (last_cons b l a). lia.
Qed.

(** X12: the emergence counts of [getnumemergence] are net changes: over
    the whole sequence they add up to the number of leaves of the last
    frame. *)
Theorem emergence_sums_to_last (files : list (String.string * ndarray3)) (s : PlantData) :
  prepare files = Ok s ->
  sumZ (num_emergence s) = Z.of_nat (List.last (map instances files.*2) 0).
Proof.
  intros H. destruct (prepare_spec files s H) as (_ & _ & _ & _ & _ & ->).
  assert (Hlen : length (map instances files.*2) = length files)
    by (now rewrite length_map, length_fmap).
  destruct (map instances files.*2) as [|a l] eqn:Hnl.
  - destruct files; [reflexivity | discriminate].
  - rewrite <- Hlen.
    change (sumZ (take 1 (replicate (length (a :: l)) (Z.of_nat (leaves_at (a :: l) 0)))
                  ++ diff (a :: l)))
      with (Z.of_nat a + sumZ (diff (a :: l)))%Z.
    rewrite sumZ_diff.
    rewrite (last_cons a l 0). lia.
Qed.

(** X13: [getmaxleaf] appends to [num_leaves]: called twice on a sequence
    of two frames or more, it leaves a list that [getnumemergence] cannot
    fit into its array, and the call raises [ValueError]. *)
Theorem getmaxleaf_twice (files : list (String.string * ndarray3)) :
  2 <= length files ->
  (s ← getinitleaf (loaded files); s ← getmaxleaf s; s ← getmaxleaf s;
   s ← gettotaltime s; getnumemergence s) = Raise ValueError.
Proof.
  intros Hlen. destruct files as [|[stamp m0] files'] eqn:Hfiles; [simpl in Hlen; lia|].
  rewrite <- Hfiles.
  assert (Hm0 : masks (loaded files) !! 0 = Some m0) by (now rewrite Hfiles).
  unfold getinitleaf. rewrite (getitem_Some _ _ _ Hm0). cbn [mbind result_bind].
  unfold getmaxleaf. cbn [num_leaves masks loaded app].
  set (nl := map instances files.*2).
  assert (Hnl : length nl = length files) by (unfold nl; now rewrite length_map, length_fmap).
  assert (Hl : 2 <= length files) by (rewrite Hfiles; exact Hlen).
  destruct (decide (nl = [])) as [Hnil|_]; [rewrite Hnil in Hnl; simpl in Hnl; lia|].
  cbn [mbind result_bind num_leaves masks loaded]. fold nl.
  destruct (decide (nl ++ nl = [])) as [Hnil|_].
  { apply (f_equal length) in Hnil. rewrite length_app in Hnil. simpl in Hnil. lia. }
  cbn [mbind result_bind]. unfold gettotaltime. cbn [mbind result_bind time loaded].
  unfold getnumemergence. cbn [total_time init_nleaf num_leaves]. unfold set_tail.
  assert (Hd : length (diff (nl ++ nl)) = 2 * length files - 1).
  { rewrite diff_length, length_app. lia. }
  destruct (decide _) as [Heq|_].
  { rewrite Hd, length_drop, length_replicate, length_fmap in Heq. lia. }
  destruct (diff (nl ++ nl)) as [|x [|y d]]; simpl in Hd; try reflexivity; lia.
Qed.

Lemma bind_Raise {A B} (m : result A) (f : A -> result B) (e : exn) :
  m ≫= f = Raise e -> m = Raise e \/ exists a, m = Ok a /\ f a = Raise e.
Proof. destruct m as [a|e']; simpl; [eauto | intros [= <-]; auto]. Qed.

Lemma mapM_error {A B} (f : A -> result B) (l : list A) (e e' : exn) :
  (forall a e0, f a = Raise e0 -> e0 = e) -> mapM f l = Raise e' -> e' = e.
Proof.
  intros Hf. induction l as [|a l IH]; simpl; [discriminate|].
  destruct (f a) eqn:Ha; simpl.
  - destruct (mapM f l); simpl; [discriminate|]. intros [= <-]. now apply IH.
  - intros [= <-]. eapply Hf; eauto.
Qed.

Lemma getitem_error {A} (l : list A) (i : nat) (e : exn) :
  getitem l i = Raise e -> e = IndexError.
Proof. unfold getitem. destruct (l !! i); [discriminate | congruence]. Qed.

(** X14: [initialize_linking] needs a leaf count for every frame: it
    returns, with one link vector per consecutive pair and one list of
    available leaves per frame, when [num_leaves] has at least [total_time]
    entries, and raises [IndexError] otherwise. *)
Theorem initialize_linking_bounds (s : PlantData) :
  (total_time s <= length (num_leaves s) ->
   exists s', initialize_linking s = Ok s' /\
              length (link_info s') = total_time s - 1 /\
              length (weights s') = total_time s - 1 /\
              length (available_leaves s') = total_time s) /\
  (length (num_leaves s) < total_time s -> initialize_linking s = Raise IndexError).
Proof.
  split.
  - intros HT. unfold initialize_linking.
    rewrite (mapM_seq_pure _ (fun i => replicate (leaves_at (num_leaves s) i) (-1)%Z));
      cycle 1.
    { intros i Hi. rewrite getitem_leaves_at by lia. reflexivity. }
    cbn [mbind result_bind].
    rewrite (mapM_seq_pure _ (fun i => full (leaves_at (num_leaves s) i)
                                            (leaves_at (num_leaves s) (i + 1)) NInf));
      cycle 1.
    { intros i Hi. rewrite !getitem_leaves_at by lia. reflexivity. }
    cbn [mbind result_bind].
    rewrite (mapM_seq_pure _ (fun i => seq 0 (leaves_at (num_leaves s) i))); cycle 1.
    { intros i Hi. rewrite getitem_leaves_at by lia. reflexivity. }
    cbn [mbind result_bind]. eexists. split; [reflexivity|].
    cbn [link_info weights available_leaves]. now rewrite !length_map, !length_seq.
  - intros HT. destruct (initialize_linking s) as [s'|e] eqn:H.
    + exfalso. unfold initialize_linking in H.
      apply bind_Ok in H as (li & _ & H). apply bind_Ok in H as (ws & _ & H).
      apply bind_Ok in H as (al & Hal & _).
      destruct (mapM_Ok_lookup _ _ _ (total_time s - 1) (total_time s - 1) Hal)
        as (b & _ & Hb).
      { apply lookup_seq_lt. lia. }
      apply bind_Ok in Hb as (n & Hn & _). apply getitem_Ok, lookup_lt_Some in Hn. lia.
    + f_equal. unfold initialize_linking in H.
      assert (Hget : forall i e0, (n ← getitem (num_leaves s) i;
                                   Ok (replicate n (-1)%Z)) = Raise e0 -> e0 = IndexError).
      { intros i e0 Ha. apply bind_Raise in Ha as [Ha|(n & _ & Ha)]; [|discriminate].
        eapply getitem_error; eauto. }
      apply bind_Raise in H as [H|(li & _ & H)];
        [eapply mapM_error; [exact Hget | exact H]|].
      apply bind_Raise in H as [H|(ws & _ & H)].
      { eapply mapM_error; [|exact H]. intros i e0 Ha.
        apply bind_Raise in Ha as [Ha|(n & _ & Ha)]; [eapply getitem_error; eauto|].
        apply bind_Raise in Ha as [Ha|(m & _ & Ha)]; [|discriminate].
        eapply getitem_error; eauto. }
      apply bind_Raise in H as [H|(al & _ & H)]; [|discriminate].
      eapply mapM_error; [|exact H]. intros i e0 Ha.
      apply bind_Raise in Ha as [Ha|(n & _ & Ha)]; [|discriminate].
      eapply getitem_error; eauto.
Qed.

Lemma emergence_sums_to_last_witness :
  exists s, prepare frames_AB = Ok s /\
            sumZ (num_emergence s) = Z.of_nat (List.last (map instances frames_AB.*2) 0).
Proof.
  eexists. split; [vm_compute; reflexivity|].
  apply (emergence_sums_to_last frames_AB). vm_compute. reflexivity.
Defined.

Lemma getmaxleaf_twice_witness :
  (s ← getinitleaf (loaded frames_AB); s ← getmaxleaf s; s ← getmaxleaf s;
   s ← gettotaltime s; getnumemergence s) = Raise ValueError.
Proof. apply (getmaxleaf_twice frames_AB). simpl. lia. Defined.

Lemma initialize_linking_bounds_witness :
  initialize_linking timed_AB = Raise IndexError.
Proof.
  refine (proj2 (initialize_linking_bounds timed_AB) _). simpl. lia.
Defined.

(** ** A frame that does not change *)








Section Unchanged.

Variable lsa : matrix -> result (list nat * list nat).
Hypothesis lsa_ok : lsa_valid lsa.
Hypothesis lsa_opt : lsa_optimal lsa.




End Unchanged.


(** ** Loading images and masks *)





(** X17: mask sets cut by [load_results] to a [min_dim] that none of them
    falls short of have the same number of pixels, so the overlap engine
    accepts any two of them. *)
Theorem cropped_masks_comparable (min_dim : nat) (read : list ndarray3)
    (m0 m1 : ndarray3) :
  (forall r, r ∈ read -> min_dim <= height r /\ min_dim <= width r) ->
  m0 ∈ load_results min_dim read -> m1 ∈ load_results min_dim read ->
  npixels m0 = min_dim * min_dim /\ npixels m1 = min_dim * min_dim /\
  exists W, _compute_overlaps_masks m0 m1 = Ok W.
Proof.
  intros Hdim H0 H1. unfold load_results in *.
  apply list_elem_of_fmap in H0 as (r0 & -> & Hr0).
  apply list_elem_of_fmap in H1 as (r1 & -> & Hr1).
  destruct (Hdim r0 Hr0) as [Hh0 Hw0]. destruct (Hdim r1 Hr1) as [Hh1 Hw1].
  assert (Hp0 : npixels (crop min_dim r0) = min_dim * min_dim).
  { unfold npixels. simpl. rewrite !Nat.min_r by lia. reflexivity. }
  assert (Hp1 : npixels (crop min_dim r1) = min_dim * min_dim).
  { unfold npixels. simpl. rewrite !Nat.min_r by lia. reflexivity. }
  split; [exact Hp0|]. split; [exact Hp1|]. unfold _compute_overlaps_masks.
  destruct (decide _); [eauto|].
  destruct (decide _) as [_|Hne]; [eauto | congruence].
Qed.

(** X18: [min_dim] is 0 until [load_images] has run; mask sets loaded
    before that are cut to nothing, and every similarity between two of
    them is [NaN]. *)
Theorem results_before_images (read : list ndarray3) (m0 m1 : ndarray3)
    (W : matrix) (i j : nat) :
  m0 ∈ load_results initial_min_dim read -> m1 ∈ load_results initial_min_dim read ->
  _compute_overlaps_masks m0 m1 = Ok W ->
  i < instances m0 -> j < instances m1 ->
  npixels m0 = 0 /\ entry W i j = NaN.
Proof.
  intros H0 H1 HW Hi Hj. unfold load_results, initial_min_dim in *.
  apply list_elem_of_fmap in H0 as (r0 & -> & _).
  apply list_elem_of_fmap in H1 as (r1 & -> & _).
  split; [unfold npixels; simpl; lia|].
  destruct (overlaps_entry_eq _ _ W i j HW Hi Hj) as [_ ->].
  unfold union_at, intersection_at, area_at, npixels. simpl.
  rewrite !Nat.min_0_r. reflexivity.
Qed.


Lemma cropped_masks_comparable_witness :
  npixels (crop 1 frame_2x2) = 1 * 1 /\ npixels (crop 1 frame_A) = 1 * 1 /\
  exists W, _compute_overlaps_masks (crop 1 frame_2x2) (crop 1 frame_A) = Ok W.
Proof.
  apply (cropped_masks_comparable 1 [frame_2x2; frame_A]).
  - intros r Hr. apply elem_of_cons in Hr as [->|Hr]; [simpl; lia|].
    apply list_elem_of_singleton in Hr as ->. simpl. lia.
  - apply list_elem_of_here.
  - apply list_elem_of_further, list_elem_of_here.
Defined.

Lemma results_before_images_witness :
  npixels (crop 0 frame_A) = 0 /\ entry [[NaN; NaN]] 0 1 = NaN.
Proof.
  apply (results_before_images [frame_A; frame_AB] (crop 0 frame_A) (crop 0 frame_AB)).
  - apply list_elem_of_here.
  - apply list_elem_of_further, list_elem_of_here.
  - vm_compute. reflexivity.
  - simpl. lia.
  - simpl. lia.
Defined.

(** * Segment areas *)


Lemma count_in_keys (v : Z) (uc : list (Z * nat)) (p : Z * nat) :
  p ∈ count_in v uc -> p.1 = v \/ exists q, q ∈ uc /\ q.1 = p.1.
Proof.
  induction uc as [|[u c] uc IH]; simpl.
  - intros Hp. apply list_elem_of_singleton in Hp as ->. now left.
  - destruct (Z.eqb_spec v u) as [->|Hne].
    + intros Hp. apply elem_of_cons in Hp as [->|Hp]; [now left|].
      right. exists p. split; [now constructor | reflexivity].
    + destruct (Z.ltb_spec v u).
      * intros Hp. apply elem_of_cons in Hp as [->|Hp]; [now left|].
        right. exists p. split; [exact Hp | reflexivity].
      * intros Hp. apply elem_of_cons in Hp as [->|Hp].
        -- right. exists (u, c). split; [constructor | reflexivity].
        -- destruct (IH Hp) as [?|(q & Hq & Hk)]; [now left|].
           right. exists q. split; [now constructor | exact Hk].
Qed.

Lemma count_in_sorted (v : Z) (uc : list (Z * nat)) :
  keys_sorted uc -> keys_sorted (count_in v uc).
Proof.
  unfold keys_sorted. induction 1 as [|[u c] uc Hs IH Hall]; simpl.
  - repeat constructor.
  - destruct (Z.eqb_spec v u) as [->|Hne]; [constructor; assumption|].
    destruct (Z.ltb_spec v u) as [Hlt|Hge].
    + constructor; [constructor; assumption|].
      constructor; [simpl; lia|]. eapply Forall_impl; [exact Hall|].
      simpl. intros q Hq. lia.
    + constructor; [exact IH|]. apply Forall_forall. intros p Hp.
      rewrite Forall_forall in Hall.
      destruct (count_in_keys v uc p Hp) as [->|(q & Hq & <-)]; simpl; [lia|].
      exact (Hall q Hq).
Qed.

Lemma np_unique_sorted (a : list Z) : keys_sorted (np_unique a).
Proof.
  induction a as [|v a IH]; simpl; [constructor | now apply count_in_sorted].
Qed.


Lemma held_above (u : Z) (uc : list (Z * nat)) :
  Forall (fun q : Z * nat => (u < q.1)%Z) uc -> held u uc = 0.
Proof.
  unfold held. induction 1 as [|[k c] uc Hk _ IH]; simpl; [reflexivity|].
  simpl in Hk. destruct (Z.eqb_spec k u); [lia | exact IH].
Qed.

Lemma held_count_in (u v : Z) (uc : list (Z * nat)) :
  keys_sorted uc ->
  held u (count_in v uc) = held u uc + (if (u =? v)%Z then 1 else 0).
Proof.
  unfold keys_sorted. induction 1 as [|[k c] uc Hs IH Hall].
  - unfold held. simpl. rewrite (Z.eqb_sym v u). destruct (u =? v)%Z; reflexivity.
  - simpl. destruct (Z.eqb_spec v k) as [->|Hne].
    + unfold held. simpl. destruct (Z.eqb_spec k u) as [->|Hku].
      * rewrite Z.eqb_refl. simpl. lia.
      * destruct (Z.eqb_spec u k); [congruence | lia].
    + destruct (Z.ltb_spec v k) as [Hlt|Hge].
      * destruct (Z.eqb_spec u v) as [->|Huv].
        -- assert (H0 : held v ((k, c) :: uc) = 0).
           { apply held_above. constructor; [simpl; lia|].
             eapply Forall_impl; [exact Hall|]. simpl. intros; lia. }
           rewrite H0. unfold held. simpl. now rewrite Z.eqb_refl.
        -- unfold held. simpl. destruct (Z.eqb_spec v u); [congruence | lia].
      * unfold held in *. simpl. destruct (Z.eqb_spec k u); [|exact IH].
        subst k. destruct (Z.eqb_spec u v); [congruence | lia].
Qed.

Lemma held_np_unique (u : Z) (a : list Z) :
  held u (np_unique a) = length (List.filter (Z.eqb u) a).
Proof.
  induction a as [|v a IH]; [reflexivity|]. simpl.
  rewrite held_count_in by apply np_unique_sorted. rewrite IH.
  destruct (u =? v)%Z; simpl; lia.
Qed.

Lemma count_in_positive (v : Z) (uc : list (Z * nat)) :
  Forall (fun p : Z * nat => 0 < p.2) uc -> Forall (fun p : Z * nat => 0 < p.2) (count_in v uc).
Proof.
  induction 1 as [|[k c] uc Hk Hall IH]; simpl.
  - repeat constructor.
  - destruct (v =? k)%Z; [constructor; [simpl; lia | exact Hall]|].
    destruct (v <? k)%Z; repeat constructor; simpl in *; try lia; assumption.
Qed.

Lemma np_unique_positive (a : list Z) : Forall (fun p : Z * nat => 0 < p.2) (np_unique a).
Proof.
  induction a as [|v a IH]; simpl; [constructor | now apply count_in_positive].
Qed.

Lemma held_elem (uc : list (Z * nat)) (p : Z * nat) :
  keys_sorted uc -> p ∈ uc -> held p.1 uc = p.2.
Proof.
  unfold keys_sorted. induction 1 as [|[k c] uc Hs IH Hall]; intros Hp; [inversion Hp|].
  apply elem_of_cons in Hp as [->|Hp].
  - unfold held. simpl. now rewrite Z.eqb_refl.
  - unfold held in *. simpl. rewrite Forall_forall in Hall. specialize (Hall p Hp).
    simpl in Hall. destruct (Z.eqb_spec k p.1); [lia | auto].
Qed.

Lemma held_positive_elem (u : Z) (uc : list (Z * nat)) :
  0 < held u uc -> (u, held u uc) ∈ uc.
Proof.
  unfold held. induction uc as [|[k c] uc IH]; simpl; [lia|].
  destruct (Z.eqb_spec k u) as [->|Hne]; simpl.
  - intros _. constructor.
  - intros H. constructor. auto.
Qed.

(** The table of [np.unique]: [(u, c)] is listed exactly when [u] occurs
    [c > 0] times. *)
Lemma np_unique_spec (a : list Z) (u : Z) (c : nat) :
  (u, c) ∈ np_unique a <-> c = length (List.filter (Z.eqb u) a) /\ 0 < c.
Proof.
  split.
  - intros H. pose proof (held_elem _ _ (np_unique_sorted a) H) as Hh. simpl in Hh.
    rewrite held_np_unique in Hh. split; [congruence|].
    pose proof (np_unique_positive a) as Hpos. rewrite Forall_forall in Hpos.
    exact (Hpos _ H).
  - intros [-> Hc]. rewrite <- held_np_unique in *. now apply held_positive_elem.
Qed.

Lemma count_in_total (v : Z) (uc : list (Z * nat)) :
  sum_list (map snd (count_in v uc)) = S (sum_list (map snd uc)).
Proof.
  induction uc as [|[k c] uc IH]; simpl; [reflexivity|].
  destruct (v =? k)%Z; simpl; [lia|]. destruct (v <? k)%Z; simpl; lia.
Qed.

Lemma np_unique_total (a : list Z) : sum_list (map snd (np_unique a)) = length a.
Proof.
  induction a as [|v a IH]; [reflexivity|]. simpl. now rewrite count_in_total, IH.
Qed.

(** The first row of the table is the smallest value of the array. *)
Lemma np_unique_head (a : list Z) (p : Z * nat) (rest : list (Z * nat)) :
  np_unique a = p :: rest ->
  p.1 ∈ a /\ (forall x, x ∈ a -> (p.1 <= x)%Z) /\
  p.2 = length (List.filter (Z.eqb p.1) a) /\
  forall q, q ∈ rest <-> q.1 <> p.1 /\ q ∈ np_unique a.
Proof.
  intros Hu. pose proof (np_unique_sorted a) as Hs. rewrite Hu in Hs.
  inversion Hs as [|? ? Hs' Hall]; subst. rewrite Forall_forall in Hall.
  assert (Hp : (p.1, p.2) ∈ np_unique a) by (rewrite Hu; destruct p; constructor).
  apply np_unique_spec in Hp as [Hc Hpos].
  assert (Hin : forall x, x ∈ a -> 0 < length (List.filter (Z.eqb x) a)).
  { intros x Hx. assert (Hf : x ∈ List.filter (Z.eqb x) a).
    { apply elem_of_filter_bool. split; [exact Hx | apply Z.eqb_refl]. }
    destruct (List.filter (Z.eqb x) a); [inversion Hf | simpl; lia]. }
  split; [|split; [|split]].
  - destruct (List.filter (Z.eqb p.1) a) as [|y l] eqn:Hf; [simpl in Hc; lia|].
    assert (Hy : y ∈ List.filter (Z.eqb p.1) a) by (rewrite Hf; constructor).
    apply elem_of_filter_bool in Hy as [Hy Heq]. apply Z.eqb_eq in Heq. congruence.
  - intros x Hx.
    assert (Hxu : (x, length (List.filter (Z.eqb x) a)) ∈ np_unique a).
    { apply np_unique_spec. split; [reflexivity | now apply Hin]. }
    rewrite Hu in Hxu. apply elem_of_cons in Hxu as [Heq|Hxu].
    + rewrite <- Heq. simpl. lia.
    + specialize (Hall _ Hxu). simpl in Hall. lia.
  - exact Hc.
  - intros q. rewrite Hu. split.
    + intros Hq. specialize (Hall q Hq). split; [lia | now constructor].
    + intros [Hne Hq]. apply elem_of_cons in Hq as [->|Hq]; [congruence | exact Hq].
Qed.

(** X19: on a label image with some background pixel and no negative
    label, the observation lists, in ascending order, segment [l - 1] with
    its number of pixels for every label [l >= 1] that occurs, and nothing
    else; the areas add up to the number of pixels off the background. *)
Theorem segment_area_with_background (filled_mask : list (list Z)) :
  Forall (fun v => (0 <= v)%Z) (concat filled_mask) ->
  (0%Z ∈ concat filled_mask) ->
  let (value, label) := segment_area filled_mask in
  length value = length label /\
  StronglySorted Z.lt label /\
  (forall s n, (s, n) ∈ zip label value <->
               (0 <= s)%Z /\ n = pixels_of (s + 1) filled_mask /\ 0 < n) /\
  sum_list value + pixels_of 0 filled_mask = length (concat filled_mask).
Proof.
  intros Hnn H0. unfold segment_area, pixels_of. set (a := concat filled_mask) in *.
  destruct (np_unique a) as [|p rest] eqn:Hu.
  { assert (Hin : (0%Z, length (List.filter (Z.eqb 0) a)) ∈ np_unique a).
    { apply np_unique_spec. split; [reflexivity|].
      assert (Hf : 0%Z ∈ List.filter (Z.eqb 0) a)
        by (apply elem_of_filter_bool; split; [exact H0 | reflexivity]).
      destruct (List.filter (Z.eqb 0) a); [inversion Hf | simpl; lia]. }
    rewrite Hu in Hin. inversion Hin. }
  destruct (np_unique_head a p rest Hu) as (Hpin & Hmin & Hcnt & Hrest).
  assert (Hp0 : p.1 = 0%Z).
  { rewrite Forall_forall in Hnn. pose proof (Hnn _ Hpin). pose proof (Hmin _ H0). lia. }
  pose proof (np_unique_sorted a) as Hs. rewrite Hu in Hs.
  inversion Hs as [|? ? Hs' Hall]; subst.
  simpl. rewrite drop_0. split; [now rewrite !length_map|]. split; [|split].
  - clear -Hs'. induction Hs' as [|q l Hsl IH Hq]; simpl; constructor; [exact IH|].
    apply Forall_fmap. eapply Forall_impl; [exact Hq|]. simpl. intros; lia.
  - intros s n.
    assert (Hzip : (s, n) ∈ zip (map (fun p : Z * nat => (p.1 - 1)%Z) rest) (map snd rest)
                   <-> ((s + 1)%Z, n) ∈ rest).
    { clear. induction rest as [|[k c] rest IH]; simpl.
      - split; intros H; inversion H.
      - rewrite !elem_of_cons, IH. split.
        + intros [[= -> ->]|H]; [left; f_equal; lia | now right].
        + intros [[= <- <-]|H]; [left; f_equal; lia | now right]. }
    rewrite Hzip, Hrest. simpl. rewrite Hp0. rewrite np_unique_spec.
    rewrite Forall_forall in Hnn. split.
    + intros (Hne & Hc & Hpos). split; [|auto].
      assert (Hin : (s + 1)%Z ∈ a).
      { destruct (List.filter (Z.eqb (s + 1)) a) as [|y l] eqn:Hf; [simpl in Hc; lia|].
        assert (Hy : y ∈ List.filter (Z.eqb (s + 1)) a) by (rewrite Hf; constructor).
        apply elem_of_filter_bool in Hy as [Hy Heq]. apply Z.eqb_eq in Heq. congruence. }
      specialize (Hnn _ Hin). lia.
    + intros (Hs0 & Hc & Hpos). split; [lia | auto].
  - pose proof (np_unique_total a) as Ht. rewrite Hu in Ht. simpl in Ht.
    rewrite Hcnt, Hp0 in Ht. lia.
Qed.

(** X20: on a label image without any background pixel, the segment of
    the smallest label is missing from the observation although it has
    pixels: the first row that [counts[1:]] drops is then a segment. *)
Theorem segment_area_without_background (filled_mask : list (list Z)) :
  Forall (fun v => (1 <= v)%Z) (concat filled_mask) ->
  concat filled_mask <> [] ->
  let (value, label) := segment_area filled_mask in
  exists l, l ∈ concat filled_mask /\
            (forall x, x ∈ concat filled_mask -> (l <= x)%Z) /\
            ~ (l - 1)%Z ∈ label /\
            0 < pixels_of l filled_mask /\
            sum_list value + pixels_of l filled_mask = length (concat filled_mask).
Proof.
  intros Hpos Hne. unfold segment_area, pixels_of. set (a := concat filled_mask) in *.
  destruct (np_unique a) as [|p rest] eqn:Hu.
  { pose proof (np_unique_total a) as Ht. rewrite Hu in Ht. simpl in Ht.
    destruct a; [congruence | discriminate]. }
  destruct (np_unique_head a p rest Hu) as (Hpin & Hmin & Hcnt & Hrest).
  simpl. rewrite drop_0. exists p.1. split; [exact Hpin|]. split; [exact Hmin|].
  split; [|split].
  - intros Hin. apply list_elem_of_fmap in Hin as (q & Hq & Hqin).
    apply Hrest in Hqin as [Hneq _]. apply Hneq. lia.
  - assert (Hp : (p.1, p.2) ∈ np_unique a) by (rewrite Hu; destruct p; constructor).
    apply np_unique_spec in Hp as [Hc Hp]. rewrite <- Hc. exact Hp.
  - pose proof (np_unique_total a) as Ht. rewrite Hu in Ht. simpl in Ht.
    rewrite Hcnt in Ht. lia.
Qed.

Lemma segment_area_with_background_witness :
  segment_area filled_with_background = ([3; 1], [0; 2]%Z) /\
  (forall s n, (s, n) ∈ zip [0; 2]%Z [3; 1] <->
               (0 <= s)%Z /\ n = pixels_of (s + 1) filled_with_background /\ 0 < n).
Proof.
  split; [reflexivity|].
  refine (proj1 (proj2 (proj2
            (segment_area_with_background filled_with_background _ _)))).
  - repeat constructor; lia.
  - simpl. constructor.
Defined.

Lemma segment_area_without_background_witness :
  segment_area filled_without_background = ([3], [1%Z]) /\
  exists l, l ∈ concat filled_without_background /\
            (forall x, x ∈ concat filled_without_background -> (l <= x)%Z) /\
            ~ (l - 1)%Z ∈ [1%Z] /\
            0 < pixels_of l filled_without_background /\
            sum_list [3] + pixels_of l filled_without_background
            = length (concat filled_without_background).
Proof.
  split; [reflexivity|].
  refine (segment_area_without_background filled_without_background _ _).
  - repeat constructor; lia.
  - discriminate.
Defined.

(** ** Identities, leaves and links *)

Lemma sum_list_with_map {A B} (f : B -> nat) (g : A -> B) (l : list A) :
  sum_list_with f (map g l) = sum_list_with (fun x => f (g x)) l.
Proof. induction l as [|x l IH]; simpl; [reflexivity | now rewrite IH]. Qed.

Lemma sum_seq_lookup {A} (f : A -> nat) (d : A) (l : list A) :
  sum_list_with (fun t => f (default d (l !! t))) (seq 0 (length l)) = sum_list_with f l.
Proof.
  induction l as [|x l IH]; [reflexivity|].
  cbn [length seq sum_list_with]. rewrite <- seq_shift, sum_list_with_map.
  simpl. f_equal. exact IH.
Qed.

Lemma sum_list_with_eq_on {A} (f g : A -> nat) (l : list A) :
  (forall x, x ∈ l -> f x = g x) -> sum_list_with f l = sum_list_with g l.
Proof.
  induction l as [|x l IH]; intros H; simpl; [reflexivity|].
  rewrite (H x) by constructor. f_equal. apply IH. intros; apply H; now constructor.
Qed.

Lemma build_length (nl : list nat) (L : list (list Z)) (T : nat) (ts : list nat) (u : nat) :
  length (build nl L T ts u) = sum_list_with (fun t => length (emerged nl L t)) ts.
Proof.
  revert u; induction ts as [|t ts IH]; intros u; [reflexivity|].
  simpl. rewrite length_app, IH, length_zip_with, length_seq. lia.
Qed.

(** On a link table that is shaped, in range and injective, every leaf of
    every frame either continues an identity through a link or starts one. *)
Lemma identities_balance (nl : list nat) (L : list (list Z)) :
  nl <> [] -> links_shaped nl L -> links_in_range nl L -> links_injective L ->
  length (spec_trajectories nl L)
  + sum_list_with (fun link => length (List.filter is_link link)) L
  = sum_list nl.
Proof.
  intros Hne [HlenL Hshape] Hrange Hinj. unfold spec_trajectories. rewrite build_length.
  destruct nl as [|n0 nl']; [congruence|]. cbn [length] in *.
  replace (S (length nl') - 1) with (length nl') in HlenL by lia.
  cbn [seq sum_list_with]. rewrite <- seq_shift, sum_list_with_map.
  change (length (emerged (n0 :: nl') L 0)) with (length (seq 0 n0)).
  rewrite length_seq. cbn [sum_list sum_list_with]. fold (sum_list nl').
  rewrite <- (sum_seq_lookup (fun link => length (List.filter is_link link)) [] L).
  rewrite HlenL. rewrite <- Nat.add_assoc, <- sum_list_with_add. f_equal.
  rewrite <- (sum_seq_lookup id 0 nl').
  apply sum_list_with_eq_on. intros t Ht. apply elem_of_seq in Ht. unfold id.
  destruct (lookup_lt_is_Some_2 L t) as [link Hlink]; [lia|].
  rewrite Hlink. cbn [default emerged]. unfold link_at. rewrite Hlink. cbn [default].
  pose proof (link_balance (leaves_at (n0 :: nl') (t + 1)) link
                (fun i v => Hrange t link i v Hlink)
                (fun i i' v => Hinj t link i i' v Hlink)) as Hbal.
  replace (t + 1) with (S t) in Hbal by lia.
  unfold leaves_at in *. cbn [lookup list_lookup] in *.
  fold (@lookup nat nat (list nat) _ t nl') in *.
  rewrite Nat.add_comm. exact Hbal.
Qed.

Section IdentityCount.

Variable lsa : matrix -> result (list nat * list nat).
Hypothesis lsa_ok : lsa_valid lsa.

(** X21: identities are leaves minus links: over the whole sequence, the
    number of identities [get_series] hands out plus the number of links
    [linking] has stored is the total number of leaves, every leaf of every
    frame either continuing an identity or starting one. *)
Theorem identities_leaves_links (thr : npfloat) (files : list (String.string * ndarray3))
    (s' : PlantData) :
  track_at lsa thr files = Ok s' ->
  length (trajectories (link_series s'))
  + sum_list_with (fun link => length (List.filter is_link link)) (link_info s')
  = sum_list (map instances files.*2).
Proof.
  intros H. unfold track_at in H.
  apply bind_Ok in H as (s1 & H1 & H). apply bind_Ok in H as (s2 & H2 & H).
  destruct (prepare_spec files s1 H1) as (Hs1 & Hm1 & Hl1 & _).
  set (nl := map instances files.*2) in *.
  assert (Hlen : length nl = length files) by (unfold nl; now rewrite length_map, length_fmap).
  apply (link_frames_spec lsa lsa_ok thr nl) in H2;
    [|exact Hs1|unfold nl; now rewrite Hm1|lia].
  destruct H2 as (Hs2 & _ & _ & _ & Hshape & Hrange & Hinj).
  destruct (get_series_series nl s2 s' Hs2 Hrange H) as (Hne & Hseries & HL & _).
  rewrite Hseries, (trajectories_spec_series nl _ Hne), HL.
  now apply identities_balance.
Qed.

End IdentityCount.

Lemma identities_leaves_links_witness :
  exists s', track_at brute_force threshold frames_AB = Ok s' /\
    length (trajectories (link_series s'))
    + sum_list_with (fun link => length (List.filter is_link link)) (link_info s')
    = sum_list (map instances frames_AB.*2).
Proof.
  eexists. split; [vm_compute; reflexivity|].
  apply (identities_leaves_links brute_force brute_force_valid threshold frames_AB).
  vm_compute. reflexivity.
Defined.
